(** * The token-rank analysis core of the SmolLM2 text probability visualizer

    A shallow embedding of [src/utils/mathUtils.ts], [src/utils/textUtils.ts],
    [services/TokenizerService.ts] and [services/AnalysisEngine.ts], and the
    properties of the rank engine, the statistics aggregator and the
    sequential analyzer that the specification states about them; then
    the top predictions, the clamping, the text utilities and the fallback
    tokenizer, with the properties that the code shows of them and of the
    runs of the engine. *)

From Stdlib Require Import ZArith String Ascii Bool Lia List Permutation.
From Stdlib Require Import Sorted DecimalString.
From Stdlib Require Import Floats.SpecFloat.
Import ListNotations.

Set Implicit Arguments.
Local Open Scope Z_scope.

(** ** JavaScript values *)

Module JS.

(** What a [throw] carries: an [Error] object with its message, or any
    other value (for which [error instanceof Error] is false) with the
    string it converts to. *)
Inductive Thrown : Type :=
| JSError (message : string)
| NonError (text : string).

(** The outcome of a call: a normal return or an exception. *)
Inductive Completion (A : Type) : Type :=
| Normal (a : A)
| Throw (e : Thrown).
Arguments Normal {A} a.
Arguments Throw {A} e.

(** The operations of the JavaScript [number] type that the program uses.
    The instance [Binary64.IEEE] below is the IEEE 754 double of
    ECMAScript. *)
Class Number : Type := {
  number : Type;
  zero : number;                       (* the literal 0 *)
  add : number -> number -> number;    (* x + y *)
  sub : number -> number -> number;    (* x - y *)
  mul : number -> number -> number;    (* x * y *)
  div : number -> number -> number;    (* x / y *)
  sqrt : number -> number;             (* Math.sqrt(x) *)
  ofZ : Z -> number;                   (* an integer as a number *)
  ltb : number -> number -> bool;      (* x < y *)
  toBoolean : number -> bool           (* truthiness: false for 0, -0, NaN *)
}.

(** What the program relies on when it compares and adds numbers.
    [comparable] singles out the numbers that take part in an order (for
    IEEE 754, every value but NaN); on them [<] is a strict weak order,
    the sign of a difference tells which operand is larger, and adding a
    number that is not negative does not make a sum smaller. *)
Class NumberOrder (N : Number) (comparable : number -> Prop) : Prop := {
  comparable_zero : comparable zero;
  ltb_asym : forall x y, comparable x -> comparable y ->
    ltb x y = true -> ltb y x = false;
  ltb_negtrans : forall x y z, comparable x -> comparable y -> comparable z ->
    ltb x y = false -> ltb y z = false -> ltb x z = false;
  sub_positive : forall x y, comparable x -> comparable y ->
    ltb zero (sub x y) = ltb y x;
  sub_negative : forall x y, comparable x -> comparable y ->
    ltb (sub x y) zero = ltb x y;
  add_nonnegative : forall x y, comparable x -> comparable y ->
    ltb x zero = false -> ltb y zero = false ->
    comparable (add x y) /\ ltb (add x y) zero = false /\ ltb (add x y) x = false
}.

(** [Array.prototype.sort(comparefn)].  ECMAScript requires the sort to be
    stable and, for a consistent comparison function, to put [x] before
    [y] whenever [comparefn(x, y) < 0]; the result is then unique, and the
    stable insertion sort below computes it.  An element is moved behind
    exactly those elements that the comparison function puts in front of
    it. *)
Section ArraySort.
Context {N : Number} {A : Type}.
Variable comparefn : A -> A -> number.

(** [comparefn(x, y) > 0]: [y] sorts before [x]. *)
Definition sortsAfter (x y : A) : bool := ltb zero (comparefn x y).

Fixpoint insert (x : A) (l : list A) : list A :=
  match l with
  | [] => [x]
  | y :: l' => if sortsAfter x y then y :: insert x l' else x :: l
  end.

Fixpoint sort (l : list A) : list A :=
  match l with
  | [] => []
  | x :: l' => insert x (sort l')
  end.
End ArraySort.

(** [Array.prototype.map((value, index) => ...)], from index [i] on. *)
Fixpoint mapIndexed {A B : Type} (f : A -> nat -> B) (l : list A) (i : nat)
  : list B :=
  match l with
  | [] => []
  | x :: l' => f x i :: mapIndexed f l' (S i)
  end.

(** [Array.prototype.findIndex(p)], counting from [i]; [-1] when no
    element satisfies [p]. *)
Fixpoint findIndexFrom {A : Type} (p : A -> bool) (l : list A) (i : Z) : Z :=
  match l with
  | [] => -1
  | x :: l' => if p x then i else findIndexFrom p l' (i + 1)
  end.

Definition findIndex {A : Type} (p : A -> bool) (l : list A) : Z :=
  findIndexFrom p l 0.

(** [array.slice(0, end)] for an integer [end]: a negative [end] counts
    from the end of the array. *)
Definition slice0 {A : Type} (l : list A) (end_ : Z) : list A :=
  if end_ <? 0
  then firstn (Z.to_nat (Z.max (Z.of_nat (length l) + end_) 0)) l
  else firstn (Z.to_nat end_) l.

End JS.
Import JS.

(** ** IEEE 754 binary64, the [number] type of ECMAScript

    The operations are those of the specification of floating-point
    arithmetic in the Standard Library, at precision 53 and maximal
    exponent 1024. *)

Module Binary64.

Definition prec : Z := 53.
Definition emax : Z := 1024.

(** The double nearest to [m * 2^e]. *)
Definition ofScaled (m e : Z) : spec_float := binary_normalize prec emax m e false.

Definition isTruthy (x : spec_float) : bool :=
  match x with
  | S754_zero _ | S754_nan => false
  | _ => true
  end.

Definition isNaN (x : spec_float) : bool :=
  match x with
  | S754_nan => true
  | _ => false
  end.

(** A double that is not NaN. *)
Definition isOrdered (x : spec_float) : bool :=
  valid_binary prec emax x && negb (isNaN x).

(** A double that is neither NaN nor negative. *)
Definition isNonNegative (x : spec_float) : bool :=
  isOrdered x && negb (SFltb x (S754_zero false)).

(** The order of [SFcompare] on the numbers that are not NaN, as a
    lexicographic order on integers. *)
Definition key (x : spec_float) : Z * Z * Z :=
  match x with
  | S754_infinity true => (-2, 0, 0)
  | S754_finite true m e => (-1, - e, - Z.pos m)
  | S754_zero _ => (0, 0, 0)
  | S754_finite false m e => (1, e, Z.pos m)
  | S754_infinity false => (2, 0, 0)
  | S754_nan => (3, 0, 0)
  end.

Definition keyLt (a b : Z * Z * Z) : Prop :=
  let '(a1, a2, a3) := a in
  let '(b1, b2, b3) := b in
  a1 < b1 \/ (a1 = b1 /\ (a2 < b2 \/ (a2 = b2 /\ a3 < b3))).

(** [p * 2^e] is at least the value of [mx * 2^ex]. *)
Definition atLeast (p : positive) (e : Z) (mx : positive) (ex : Z) : Prop :=
  e <= ex /\ Z.pos mx * 2 ^ (ex - e) <= Z.pos p.

#[export] Instance IEEE : Number := {
  number := spec_float;
  zero := S754_zero false;
  add := SFadd prec emax;
  sub := SFsub prec emax;
  mul := SFmul prec emax;
  div := SFdiv prec emax;
  sqrt := SFsqrt prec emax;
  ofZ := fun z => ofScaled z 0;
  ltb := SFltb;
  toBoolean := isTruthy
}.

End Binary64.

(** ** src/utils/mathUtils.ts *)

Module MathUtils.
Section WithNumber.
Context {N : Number}.

(** The objects [{ prob, index }]. *)
Record ProbPair : Type := { prob : number; index : nat }.

Definition probabilityPairs (probabilities : list number) : list ProbPair :=
  mapIndexed (fun p i => {| prob := p; index := i |}) probabilities 0.

(** [(a, b) => b.prob - a.prob] *)
Definition byProbDescending (a b : ProbPair) : number :=
  sub (prob b) (prob a).

Definition calculateTokenRank (probabilities : list number)
           (targetTokenId : Z) : Z :=
  let probabilityPairs := sort byProbDescending (probabilityPairs probabilities) in
  let rank :=
    findIndex (fun pr => Z.of_nat (index pr) =? targetTokenId)
              probabilityPairs in
  if rank =? -1 then Z.of_nat (length probabilities) else rank.

(** The loop [for (i; i < rank && i < probabilityPairs.length; i++)
    cumulativeProb += probabilityPairs[i].prob], entered at index [i]
    with the pairs from [i] on. *)
Fixpoint sumBelowRank (pairs : list ProbPair) (i rank : Z)
         (cumulativeProb : number) : number :=
  match pairs with
  | [] => cumulativeProb
  | pr :: rest =>
      if i <? rank
      then sumBelowRank rest (i + 1) rank (add cumulativeProb (prob pr))
      else cumulativeProb
  end.

Definition calculateCumulativeProbability (probabilities : list number)
           (rank : Z) : number :=
  let probabilityPairs := sort byProbDescending (probabilityPairs probabilities) in
  sumBelowRank probabilityPairs 0 rank zero.

Definition pairAt (d : list number) (k : nat) : ProbPair :=
  {| prob := nth k d zero; index := k |}.

Definition sortedPairs (probabilities : list number) : list ProbPair :=
  sort byProbDescending (probabilityPairs probabilities).

(** [a] stands before [b] in the sorted array: its probability is larger,
    or equal with a smaller index. *)
Definition precedes (a b : ProbPair) : bool :=
  ltb (prob b) (prob a)
  || (negb (ltb (prob a) (prob b)) && Nat.ltb (index a) (index b)).

(** The rank as the specification words it: the position of the target
    when the pairs are ordered by probability, larger first, and among
    equal probabilities by index, smaller first.  That position is the
    number of indices ahead of the target. *)
Definition aheadOf (probabilities : list number) (target j : nat) : bool :=
  let pt := nth target probabilities zero in
  let pj := nth j probabilities zero in
  ltb pt pj || (negb (ltb pj pt) && Nat.ltb j target).

Definition positionInDescendingOrder (probabilities : list number)
           (target : nat) : Z :=
  Z.of_nat (length (filter (aheadOf probabilities target)
                           (seq 0 (length probabilities)))).

Definition numberOfLength {A : Type} (l : list A) : number :=
  ofZ (Z.of_nat (length l)).

(** [ranks.filter(rank => rank < k).length / ranks.length] *)
Definition calculateTopKAccuracy (ranks : list Z) (k : Z) : number :=
  match ranks with
  | [] => zero
  | _ => div (numberOfLength (filter (fun rank => rank <? k) ranks))
             (numberOfLength ranks)
  end.

Record Statistics : Type := {
  mean : number;
  median : number;
  min : number;
  max : number;
  std : number
}.

(** [values.reduce((sum, val) => sum + val, 0)] *)
Definition sum (values : list number) : number :=
  fold_left (fun sum val => add sum val) values zero.

(** [(a, b) => a - b] *)
Definition ascending (a b : number) : number := sub a b.

(** [Math.pow(x, 2)] *)
Definition square (x : number) : number := mul x x.

Definition calculateStatistics (values : list number) : Statistics :=
  match values with
  | [] => {| mean := zero; median := zero; min := zero; max := zero;
             std := zero |}
  | _ =>
      let sorted := sort ascending values in
      let n := length sorted in
      let mean := div (sum values) (numberOfLength values) in
      let median :=
        if Nat.eqb (Nat.modulo n 2) 0
        then div (add (nth (Nat.div n 2 - 1) sorted zero)
                      (nth (Nat.div n 2) sorted zero))
                 (ofZ 2)
        else nth (Nat.div n 2) sorted zero in
      let variance :=
        div (fold_left (fun sum val => add sum (square (sub val mean)))
                       values zero)
            (numberOfLength values) in
      {| mean := mean; median := median;
         min := nth 0 sorted zero;
         max := nth (n - 1) sorted zero;
         std := sqrt variance |}
  end.
End WithNumber.
End MathUtils.

(** ** src/utils/textUtils.ts *)

(** A text is a string of one-byte code units. *)

Module TextUtils.
Local Open Scope string_scope.

Definition CR : ascii := ascii_of_nat 13.
Definition LF : ascii := ascii_of_nat 10.
Definition TAB : ascii := ascii_of_nat 9.
Definition SPACE : ascii := ascii_of_nat 32.

(** [.replace(/\r\n/g, '\n')] *)
Fixpoint replaceCRLF (s : string) : string :=
  match s with
  | EmptyString => EmptyString
  | String c rest =>
      match rest with
      | String c' rest' =>
          if Ascii.eqb c CR && Ascii.eqb c' LF
          then String LF (replaceCRLF rest')
          else String c (replaceCRLF rest)
      | EmptyString => String c EmptyString
      end
  end.

(** [.replace(/x/g, y)] for single characters [x] and [y]. *)
Fixpoint replaceChar (x y : ascii) (s : string) : string :=
  match s with
  | EmptyString => EmptyString
  | String c rest =>
      String (if Ascii.eqb c x then y else c) (replaceChar x y rest)
  end.

(** [.replace(/[ ]+/g, ' ')] *)
Fixpoint collapseSpaces (s : string) : string :=
  match s with
  | EmptyString => EmptyString
  | String c rest =>
      match rest with
      | String c' _ =>
          if Ascii.eqb c SPACE && Ascii.eqb c' SPACE
          then collapseSpaces rest
          else String c (collapseSpaces rest)
      | EmptyString => String c EmptyString
      end
  end.

(** The white space and line terminators of ECMAScript among the
    one-byte code units: TAB, LF, VT, FF, CR, SPACE and NBSP. *)
Definition isWhiteSpace (c : ascii) : bool :=
  let n := nat_of_ascii c in
  (Nat.leb 9 n && Nat.leb n 13) || Nat.eqb n 32 || Nat.eqb n 160.

Fixpoint trimStart (s : string) : string :=
  match s with
  | EmptyString => EmptyString
  | String c rest => if isWhiteSpace c then trimStart rest else s
  end.

Fixpoint trimEnd (s : string) : string :=
  match s with
  | EmptyString => EmptyString
  | String c rest =>
      match trimEnd rest with
      | EmptyString => if isWhiteSpace c then EmptyString else String c EmptyString
      | t => String c t
      end
  end.

Definition trim (s : string) : string := trimEnd (trimStart s).

Definition preprocessText (text : string) : string :=
  trim (collapseSpaces (replaceChar TAB SPACE (replaceChar CR LF (replaceCRLF text)))).

End TextUtils.

(** ** The services and the analysis engine *)

Module Analysis.
Local Open Scope string_scope.
Local Open Scope Z_scope.

(** [`${n}`] for an integer [n]. *)
Definition decimal (n : Z) : string :=
  DecimalString.NilZero.string_of_int (Z.to_int n).

(** [error instanceof Error ? error.message : fallback] *)
Definition messageOr (fallback : string) (error : Thrown) : string :=
  match error with
  | JSError message => message
  | NonError _ => fallback
  end.

Section WithCollaborators.
Context {N : Number}.

(** The state of what lies outside the engine: the tokenizer's
    vocabulary, the ONNX session, whatever the progress subscribers
    touch. *)
Variable World : Type.

(** A call that may change the world and may throw. *)
Definition External (A : Type) : Type := World -> Completion A * World.

(** *** services/TokenizerService.ts *)

(** The object held in [tokenizerService.tokenizer]: an [AutoTokenizer]
    of Transformers.js or the fallback [SimpleTokenizer].  [tkDecode]
    is [None] when the property [decode] is missing. *)
Record TokenizerObject : Type := {
  tkEncode : string -> External (list Z);
  tkDecode : option (list Z -> External string);
  tkDecodeToken : Z -> External string
}.

Record TokenizerService : Type := {
  tokenizer : option TokenizerObject
}.

Definition notLoaded : Thrown :=
  JSError "Tokenizer not loaded. Call loadTokenizer() first.".

(** [`${error}`] for a thrown value. *)
Definition describe (error : Thrown) : string :=
  match error with
  | JSError message => "Error: " ++ message
  | NonError text => text
  end.

(** [encode]; the array of the tokenizer, or the copy by [Array.from], is
    the list of its elements. *)
Definition encode (service : TokenizerService) (text : string)
  : External (list Z) :=
  fun w =>
    match tokenizer service with
    | None => (Throw notLoaded, w)
    | Some tk =>
        match tkEncode tk text w with
        | (Normal result, w') => (Normal result, w')
        | (Throw error, w') =>
            (Throw (JSError ("Failed to tokenize text: " ++ describe error)), w')
        end
    end.

(** The body of the [try] block of [decodeToken]. *)
Definition decodeAttempt (tk : TokenizerObject) (tokenId : Z) : External string :=
  match tkDecode tk with
  | Some decode => decode [tokenId]
  | None => tkDecodeToken tk tokenId
  end.

(** [`<${tokenId}>`] *)
Definition placeholder (tokenId : Z) : string := "<" ++ decimal tokenId ++ ">".

Definition decodeToken (service : TokenizerService) (tokenId : Z)
  : External string :=
  fun w =>
    match tokenizer service with
    | None => (Throw notLoaded, w)
    | Some tk =>
        match decodeAttempt tk tokenId w with
        | (Normal text, w') => (Normal text, w')
        | (Throw _, w') => (Normal (placeholder tokenId), w')
        end
    end.

(** *** services/ModelService.ts *)

(** The [InferenceResult] of types/model.ts; of its fields [logits],
    [probabilities] and [topTokens] the engine reads [probabilities], the
    [Float32Array] of the softmax, its elements read as numbers. *)
Record InferenceResult : Type := {
  probabilities : list number
}.

(** [session] is the loaded ONNX session together with the extraction of
    the last position's logits and their softmax: the body of the [try]
    block of [runInference]. *)
Record ModelService : Type := {
  session : option (list Z -> External InferenceResult);
  maxSequenceLength : Z
}.

Definition runInference (service : ModelService) (inputIds : list Z)
  : External InferenceResult :=
  fun w =>
    match session service with
    | None => (Throw (JSError "Model not loaded. Call loadModel() first."), w)
    | Some run =>
        if Z.of_nat (length inputIds) =? 0
        then (Throw (JSError "Input sequence cannot be empty"), w)
        else if maxSequenceLength service <? Z.of_nat (length inputIds)
        then (Throw (JSError ("Input sequence too long. Maximum length: "
                                ++ decimal (maxSequenceLength service))), w)
        else
          match run inputIds w with
          | (Normal result, w') => (Normal result, w')
          | (Throw error, w') =>
              (Throw (JSError ("Inference failed: "
                                 ++ messageOr "Unknown inference error" error)), w')
          end
    end.

(** *** types/analysis.ts *)

(** Modelled from the spec: the declarations of [types/analysis.ts], which
    is not among the sources.  The records have the fields of section 3 of
    the specification, under the names that [AnalysisEngine.ts] gives them
    in its object literals; [null] is [None]. *)

Record AnalysisResult : Type := {
  position : nat;
  token : string;
  tokenId : Z;
  rank : option Z;
  probability : option number;
  cumulativeProbability : option number;
  isInitial : bool
}.

Record AnalysisStatistics : Type := {
  totalTokens : Z;
  predictedTokens : Z;
  top1Accuracy : number;
  top5Accuracy : number;
  top10Accuracy : number;
  averageRank : number;
  averageCumulativeProbability : number;
  medianRank : number;
  medianCumulativeProbability : number
}.

Record AnalysisProgress : Type := {
  current : Z;
  total : Z;
  percentage : number;
  currentToken : string
}.

Record AnalysisConfig : Type := {
  maxLength : option Z
}.

Definition ProgressCallback : Type := AnalysisProgress -> External unit.

(** *** The engine's state and the calls it makes *)

Record Machine : Type := {
  isAnalyzing : bool;
  progressCallbacks : list ProgressCallback;
  world : World
}.

(** The calls of a computation to its collaborators, oldest first, each
    with what it returned. *)
Inductive Event : Type :=
| Encoded (text : string) (outcome : Completion (list Z))
| Decoded (tokenId : Z) (outcome : Completion string)
| Inferred (context : list Z) (outcome : Completion InferenceResult)
| Notified (progress : AnalysisProgress).

(** A computation of the engine: from the state it starts in, its
    outcome, the state it leaves and the calls it made. *)
Definition M (A : Type) : Type :=
  Machine -> Completion A * Machine * list Event.

Definition ret {A : Type} (a : A) : M A := fun m => (Normal a, m, []).

Definition throw {A : Type} (e : Thrown) : M A := fun m => (Throw e, m, []).

Definition bind {A B : Type} (c : M A) (k : A -> M B) : M B :=
  fun m =>
    match c m with
    | (Normal a, m', events) =>
        let '(r, m'', events') := k a m' in (r, m'', (events ++ events')%list)
    | (Throw e, m', events) => (Throw e, m', events)
    end.

(** [try { c } catch (error) { handler error }] *)
Definition tryCatch {A : Type} (c : M A) (handler : Thrown -> M A) : M A :=
  fun m =>
    match c m with
    | (Normal a, m', events) => (Normal a, m', events)
    | (Throw e, m', events) =>
        let '(r, m'', events') := handler e m' in
        (r, m'', (events ++ events')%list)
    end.

(** [try { c } finally { cleanup }], for a [cleanup] that cannot throw. *)
Definition tryFinally {A : Type} (c : M A) (cleanup : Machine -> Machine)
  : M A :=
  fun m => let '(r, m', events) := c m in (r, cleanup m', events).

Definition withWorld (w : World) (m : Machine) : Machine :=
  {| isAnalyzing := isAnalyzing m;
     progressCallbacks := progressCallbacks m;
     world := w |}.

(** A call to a collaborator, reported with its outcome. *)
Definition call {A : Type} (c : External A) (event : Completion A -> Event)
  : M A :=
  fun m => let '(r, w) := c (world m) in (r, withWorld w m, [event r]).

Notation "x <- c ;; k" := (bind c (fun x => k))
  (at level 61, c at next level, right associativity).

(** *** services/AnalysisEngine.ts *)

Variable tokenizerService : TokenizerService.
Variable modelService : ModelService.

(** [MODEL_CONFIG.INITIAL_TOKENS_COUNT] of utils/constants.ts *)
Definition INITIAL_TOKENS_COUNT : nat := 3.

(** [forEach(callback => { try { callback(progress) } catch { ... } })] *)
Fixpoint runCallbacks (callbacks : list ProgressCallback)
         (progress : AnalysisProgress) (w : World) : World :=
  match callbacks with
  | [] => w
  | callback :: rest => runCallbacks rest progress (snd (callback progress w))
  end.

Definition notifyProgress (progress : AnalysisProgress) : M unit :=
  fun m =>
    let w := runCallbacks (progressCallbacks m) progress (world m) in
    (Normal tt, withWorld w m, [Notified progress]).

(** The progress after the token at position [i]. *)
Definition progressAt (tokenIds : list Z) (i : nat) (token : string)
  : AnalysisProgress :=
  {| current := Z.of_nat i + 1;
     total := Z.of_nat (length tokenIds);
     percentage :=
       mul (div (ofZ (Z.of_nat i + 1)) (ofZ (Z.of_nat (length tokenIds))))
           (ofZ 100);
     currentToken := token |}.

(** The result pushed with [rank], [probability] and
    [cumulativeProbability] all [null]. *)
Definition unpredicted (i : nat) (token : string) (tokenId : Z)
           (isInitial : bool) : AnalysisResult :=
  {| position := i; token := token; tokenId := tokenId;
     rank := None; probability := None; cumulativeProbability := None;
     isInitial := isInitial |}.

(** [probabilities[targetTokenId] || 0] *)
Definition probabilityOf (probabilities : list number) (targetTokenId : Z)
  : number :=
  match (if targetTokenId <? 0 then None
         else nth_error probabilities (Z.to_nat targetTokenId)) with
  | Some p => if toBoolean p then p else zero
  | None => zero
  end.

(** The body of the first loop, for one [i]. *)
Definition processInitial (tokenIds : list Z) (i : nat)
           (results : list AnalysisResult) : M (list AnalysisResult) :=
  let tokenId := nth i tokenIds 0 in
  token <- call (decodeToken tokenizerService tokenId) (Decoded tokenId) ;;
  let results := (results ++ [unpredicted i token tokenId true])%list in
  _ <- notifyProgress (progressAt tokenIds i token) ;;
  ret results.

(** The body of the second loop, for one [i]. *)
Definition processPredicted (tokenIds : list Z) (i : nat)
           (results : list AnalysisResult) : M (list AnalysisResult) :=
  let contextTokens := firstn i tokenIds in
  let targetTokenId := nth i tokenIds 0 in
  token <- call (decodeToken tokenizerService targetTokenId)
                (Decoded targetTokenId) ;;
  results <-
    tryCatch
      (inferenceResult <- call (runInference modelService contextTokens)
                               (Inferred contextTokens) ;;
       let rank :=
         MathUtils.calculateTokenRank (probabilities inferenceResult)
                                      targetTokenId in
       let probability :=
         probabilityOf (probabilities inferenceResult) targetTokenId in
       let cumulativeProbability :=
         MathUtils.calculateCumulativeProbability
           (probabilities inferenceResult) rank in
       ret (results ++ [ {| position := i; token := token;
                            tokenId := targetTokenId;
                            rank := Some rank;
                            probability := Some probability;
                            cumulativeProbability := Some cumulativeProbability;
                            isInitial := false |} ])%list)
      (fun error =>
         ret (results ++ [unpredicted i token targetTokenId false])%list) ;;
  _ <- notifyProgress (progressAt tokenIds i token) ;;
  ret results.

(** [for (let i = ...; i < ...; i++) body], over the values of [i].  The
    [await yieldToMainThread()] that ends each iteration gives way to the
    event loop and changes nothing that the run reads. *)
Fixpoint forEach (positions : list nat)
         (body : nat -> list AnalysisResult -> M (list AnalysisResult))
         (results : list AnalysisResult) : M (list AnalysisResult) :=
  match positions with
  | [] => ret results
  | i :: rest => results <- body i results ;; forEach rest body results
  end.

Definition analyzeTokenSequence (tokenIds : list Z)
  : M (list AnalysisResult) :=
  let initialTokensCount := Nat.min INITIAL_TOKENS_COUNT (length tokenIds) in
  results <- forEach (seq 0 initialTokensCount) (processInitial tokenIds) [] ;;
  forEach (seq initialTokensCount (length tokenIds - initialTokensCount))
          (processPredicted tokenIds) results.

(** The two loops of [analyzeTokenSequence] stopped before the position
    [stop]: what the scan has done when it reaches that position. *)
Definition scanBefore (tokenIds : list Z) (stop : nat)
  : M (list AnalysisResult) :=
  let initialTokensCount := Nat.min INITIAL_TOKENS_COUNT (length tokenIds) in
  results <- forEach (seq 0 (Nat.min initialTokensCount stop))
                     (processInitial tokenIds) [] ;;
  forEach (seq initialTokensCount (stop - initialTokensCount))
          (processPredicted tokenIds) results.

(** What the first loop does for position [i]: the result it pushes and
    the calls it makes. *)
Definition initialStep (tokenIds : list Z) (i : nat) (r : AnalysisResult)
           (events : list Event) : Prop :=
  exists token,
    r = unpredicted i token (nth i tokenIds 0) true /\
    events = [Decoded (nth i tokenIds 0) (Normal token);
              Notified (progressAt tokenIds i token)].

(** What the second loop does for position [i], by the outcome of the
    inference. *)
Definition predictedStep (tokenIds : list Z) (i : nat) (r : AnalysisResult)
           (events : list Event) : Prop :=
  exists token outcome,
    events = [Decoded (nth i tokenIds 0) (Normal token);
              Inferred (firstn i tokenIds) outcome;
              Notified (progressAt tokenIds i token)] /\
    r = match outcome with
        | Throw _ => unpredicted i token (nth i tokenIds 0) false
        | Normal inferenceResult =>
            let rank := MathUtils.calculateTokenRank
                          (probabilities inferenceResult) (nth i tokenIds 0) in
            {| position := i; token := token; tokenId := nth i tokenIds 0;
               rank := Some rank;
               probability :=
                 Some (probabilityOf (probabilities inferenceResult)
                                     (nth i tokenIds 0));
               cumulativeProbability :=
                 Some (MathUtils.calculateCumulativeProbability
                         (probabilities inferenceResult) rank);
               isInitial := false |}
        end.

(** The result and the calls of one iteration. *)
Definition Step : Type := (AnalysisResult * list Event)%type.

Definition resultsOf (steps : list Step) : list AnalysisResult := map fst steps.

Definition eventsOf (steps : list Step) : list Event := concat (map snd steps).

Definition initialSteps (tokenIds : list Z) (l : list nat) (steps : list Step)
  : Prop :=
  Forall2 (fun i s => initialStep tokenIds i (fst s) (snd s)) l steps.

Definition predictedSteps (tokenIds : list Z) (l : list nat) (steps : list Step)
  : Prop :=
  Forall2 (fun i s => predictedStep tokenIds i (fst s) (snd s)) l steps.

(** The engine's own fields are the same in two states. *)
Definition sameEngine (m m' : Machine) : Prop :=
  isAnalyzing m' = isAnalyzing m /\ progressCallbacks m' = progressCallbacks m.

(** An event that is a call for a token: its decoding or its prediction. *)
Definition tokenEvent (event : Event) : Prop :=
  match event with
  | Decoded _ _ | Inferred _ _ => True
  | _ => False
  end.

(** An event that is not a call to the tokenizer's [encode]. *)
Definition notEncoded (event : Event) : Prop :=
  match event with
  | Encoded _ _ => False
  | _ => True
  end.

(** [config?.maxLength || tokenIds.length] *)
Definition maxLengthOr (config : option AnalysisConfig) (length : Z) : Z :=
  match config with
  | Some {| maxLength := Some n |} => if n =? 0 then length else n
  | _ => length
  end.

Definition alreadyInProgress : Thrown := JSError "Analysis already in progress".

(** The body of the [try] block of [analyzeText]. *)
Definition analyzeTextBody (text : string) (config : option AnalysisConfig)
  : M (list AnalysisResult) :=
  let cleanText := TextUtils.preprocessText text in
  if String.eqb cleanText ""
  then throw (JSError "Text is empty after preprocessing")
  else
    _ <- notifyProgress {| current := 0; total := 100; percentage := ofZ 5;
                           currentToken := "Tokenizing..." |} ;;
    tokenIds <- call (encode tokenizerService cleanText) (Encoded cleanText) ;;
    if Z.of_nat (length tokenIds) =? 0
    then throw (JSError "No tokens generated from text")
    else
      let maxLength := maxLengthOr config (Z.of_nat (length tokenIds)) in
      let limitedTokenIds := slice0 tokenIds maxLength in
      _ <- notifyProgress {| current := 0;
                             total := Z.of_nat (length limitedTokenIds);
                             percentage := ofZ 10;
                             currentToken := "Starting analysis..." |} ;;
      results <- analyzeTokenSequence limitedTokenIds ;;
      _ <- notifyProgress {| current := Z.of_nat (length limitedTokenIds);
                             total := Z.of_nat (length limitedTokenIds);
                             percentage := ofZ 100;
                             currentToken := "Complete!" |} ;;
      ret results.

Definition analyzeText (text : string) (config : option AnalysisConfig)
           (onProgress : option ProgressCallback) : M (list AnalysisResult) :=
  fun m =>
    if isAnalyzing m
    then (Throw alreadyInProgress, m, [])
    else
      let started :=
        {| isAnalyzing := true;
           progressCallbacks :=
             match onProgress with
             | Some callback => (progressCallbacks m ++ [callback])%list
             | None => progressCallbacks m
             end;
           world := world m |} in
      tryFinally
        (tryCatch
           (analyzeTextBody text config)
           (fun error =>
              throw (JSError ("Analysis failed: "
                                ++ messageOr "Unknown analysis error" error))))
        (fun m' => {| isAnalyzing := false; progressCallbacks := [];
                      world := world m' |})
        started.

Definition isRunning (m : Machine) : bool := isAnalyzing m.

(** [r => !r.isInitial && r.rank !== null] *)
Definition isPredicted (r : AnalysisResult) : bool :=
  negb (isInitial r) && match rank r with Some _ => true | None => false end.

(** [predictedResults.map(r => r.rank!)], as numbers *)
Definition ranksOf (results : list AnalysisResult) : list Z :=
  flat_map (fun r => match rank r with Some k => [k] | None => [] end) results.

(** [.filter(r => r.cumulativeProbability !== null)
     .map(r => r.cumulativeProbability!)] *)
Definition cumulativeProbsOf (results : list AnalysisResult) : list number :=
  flat_map (fun r => match cumulativeProbability r with
                     | Some p => [p]
                     | None => []
                     end) results.

Definition calculateStatistics (results : list AnalysisResult)
  : AnalysisStatistics :=
  let predictedResults := filter isPredicted results in
  match predictedResults with
  | [] =>
      {| totalTokens := Z.of_nat (length results);
         predictedTokens := 0;
         top1Accuracy := zero; top5Accuracy := zero; top10Accuracy := zero;
         averageRank := zero; averageCumulativeProbability := zero;
         medianRank := zero; medianCumulativeProbability := zero |}
  | _ =>
      let ranks := ranksOf predictedResults in
      let cumulativeProbs := cumulativeProbsOf predictedResults in
      let rankStats := MathUtils.calculateStatistics (map ofZ ranks) in
      let cumulativeProbStats :=
        match cumulativeProbs with
        | [] => {| MathUtils.mean := zero; MathUtils.median := zero;
                   MathUtils.min := zero; MathUtils.max := zero;
                   MathUtils.std := zero |}
        | _ => MathUtils.calculateStatistics cumulativeProbs
        end in
      {| totalTokens := Z.of_nat (length results);
         predictedTokens := Z.of_nat (length predictedResults);
         top1Accuracy := MathUtils.calculateTopKAccuracy ranks 1;
         top5Accuracy := MathUtils.calculateTopKAccuracy ranks 5;
         top10Accuracy := MathUtils.calculateTopKAccuracy ranks 10;
         averageRank := MathUtils.mean rankStats;
         averageCumulativeProbability := MathUtils.mean cumulativeProbStats;
         medianRank := MathUtils.median rankStats;
         medianCumulativeProbability := MathUtils.median cumulativeProbStats |}
  end.

End WithCollaborators.
End Analysis.

(** ** Inputs of the scenarios *)

Module Scenario.
Import Binary64 Analysis.
Local Open Scope string_scope.
Local Open Scope Z_scope.

(** The [Float32Array] with the elements 0.1, 0.5, 0.3 and 0.1: the nearest
    single-precision numbers, [13421773 * 2^-27], [2^-1] and
    [10066330 * 2^-25], read as doubles. *)
Definition distribution : list spec_float :=
  [ofScaled 13421773 (-27); ofScaled 1 (-1); ofScaled 10066330 (-25);
   ofScaled 13421773 (-27)].

Definition half : spec_float := ofScaled 1 (-1).

(** A tokenizer object that decodes every id to the same text. *)
Definition plainTokenizer : TokenizerObject unit :=
  {| tkEncode := fun text w => (Normal [1; 2; 3; 0; 2], w);
     tkDecode := Some (fun ids w => (Normal "tok", w));
     tkDecodeToken := fun id w => (Normal "tok", w) |}.

(** A tokenizer object whose [decode] throws. *)
Definition failingTokenizer : TokenizerObject unit :=
  {| tkEncode := fun text w => (Normal [], w);
     tkDecode := Some (fun ids w => (Throw (JSError "decode failed"), w));
     tkDecodeToken := fun id w => (Normal "tok", w) |}.

Definition loaded (tk : TokenizerObject unit) : TokenizerService unit :=
  {| tokenizer := Some tk |}.

Definition unloaded : TokenizerService unit := {| tokenizer := None |}.

(** A model whose session throws for contexts of four tokens and returns
    [distribution] for the others. *)
Definition flakyModel : ModelService unit :=
  {| session :=
       Some (fun inputIds w =>
               if Nat.eqb (length inputIds) 4
               then (Throw (JSError "backend unavailable"), w)
               else (Normal {| probabilities := distribution |}, w));
     maxSequenceLength := 8192 |}.

Definition idle : Machine unit :=
  {| isAnalyzing := false; progressCallbacks := []; world := tt |}.

Definition busy : Machine unit :=
  {| isAnalyzing := true; progressCallbacks := []; world := tt |}.

Definition fiveTokens : list Z := [1; 2; 3; 0; 2].

(** The results of a text of one token. *)
Definition oneInitial : list (AnalysisResult (N := IEEE)) :=
  [unpredicted 0 "tok" 1 true].

End Scenario.

(** ** src/utils/mathUtils.ts: the top predictions *)

Module TopK.
Import MathUtils.
Section WithNumber.
Context {N : Number}.

(** The objects [{ tokenId, probability, rank }]. *)
Record TopToken : Type := {
  tokenId : nat;
  probability : number;
  rank : nat
}.

(** The default of the parameter [k: number = 10]. *)
Definition orTen (k : option Z) : Z :=
  match k with
  | Some k => k
  | None => 10
  end.

(** The pairs [{ prob, tokenId }] are those of [calculateTokenRank], with
    [index] for [tokenId]. *)
Definition getTopKTokens (probabilities : list number) (k : option Z)
  : list TopToken :=
  let probabilityPairs := sort byProbDescending (probabilityPairs probabilities) in
  mapIndexed (fun pr rank => {| tokenId := index pr;
                                probability := prob pr;
                                rank := rank |})
             (slice0 probabilityPairs (orTen k)) 0.

End WithNumber.
End TopK.

(** ** What a run of the engine reports *)

Module Trace.
Import Analysis.
Section WithNumber.
Context {N : Number}.

(** The progress reports among the calls, oldest first. *)
Definition notifications (events : list Event) : list AnalysisProgress :=
  flat_map (fun event => match event with
                         | Notified progress => [progress]
                         | _ => []
                         end) events.

(** The contexts that were passed to [runInference], oldest first. *)
Definition inferenceContexts (events : list Event) : list (list Z) :=
  flat_map (fun event => match event with
                         | Inferred context _ => [context]
                         | _ => []
                         end) events.

(** The contexts for which [runInference] returned a result. *)
Definition answered (events : list Event) : list (list Z) :=
  flat_map (fun event => match event with
                         | Inferred context (Normal _) => [context]
                         | _ => []
                         end) events.

(** An outcome reported for an inference is what [runInference] gave for
    that context. *)
Definition fromModel (World : Type) (modelService : ModelService World)
           (event : Event) : Prop :=
  match event with
  | Inferred context outcome =>
      exists w, outcome = fst (runInference modelService context w)
  | _ => True
  end.

(** [config?.maxLength] *)
Definition configuredMaxLength (config : option AnalysisConfig) : option Z :=
  match config with
  | Some c => maxLength c
  | None => None
  end.

End WithNumber.
End Trace.

(** ** src/utils/textUtils.ts: the shape of a text *)

Module TextShape.
Import TextUtils.
Local Open Scope string_scope.

(** The code unit [x] occurs in [s]. *)
Fixpoint contains (x : ascii) (s : string) : bool :=
  match s with
  | EmptyString => false
  | String c rest => Ascii.eqb c x || contains x rest
  end.

(** Two spaces stand side by side in [s]. *)
Fixpoint hasDoubleSpace (s : string) : bool :=
  match s with
  | EmptyString => false
  | String c rest =>
      match rest with
      | String c' _ => (Ascii.eqb c SPACE && Ascii.eqb c' SPACE) || hasDoubleSpace rest
      | EmptyString => false
      end
  end.

(** Every code unit of [s] is white space. *)
Fixpoint isBlank (s : string) : bool :=
  match s with
  | EmptyString => true
  | String c rest => isWhiteSpace c && isBlank rest
  end.

(** The objects [{ isValid, error }]; [error] is [None] when the property
    is missing. *)
Record Validation : Type := { isValid : bool; error : option string }.

Definition validateText (text : string) : Validation :=
  if String.eqb text "" || (Z.of_nat (String.length (trim text)) =? 0)%Z
  then {| isValid := false; error := Some "Text cannot be empty" |}
  else if (1000000 <? Z.of_nat (String.length text))%Z
  then {| isValid := false; error := Some "Text is too long (max 1MB)" |}
  else {| isValid := true; error := None |}.

End TextShape.

(** ** services/TokenizerService.ts: the fallback tokenizer *)

Module Fallback.
Import TextUtils.
Local Open Scope string_scope.
Local Open Scope Z_scope.

(** A [Map] as the list of its entries in the order of insertion. *)
Section Maps.
Variables K V : Type.
Variable sameKey : K -> K -> bool.

(** [map.get(key)]; [None] is [undefined]. *)
Fixpoint mapGet (entries : list (K * V)) (key : K) : option V :=
  match entries with
  | [] => None
  | (k, v) :: rest => if sameKey k key then Some v else mapGet rest key
  end.

(** [map.set(key, value)]: the entry of the key is replaced where it
    stands, a new key is added at the end. *)
Fixpoint mapSet (entries : list (K * V)) (key : K) (value : V) : list (K * V) :=
  match entries with
  | [] => [(key, value)]
  | (k, v) :: rest =>
      if sameKey k key then (k, value) :: rest
      else (k, v) :: mapSet rest key value
  end.
End Maps.

(** The fields of a [SimpleTokenizer]. *)
Record SimpleTokenizer : Type := {
  vocab : list (string * Z);
  reverseVocab : list (Z * string);
  nextId : Z
}.

(** [addToken]: the id of the token and the tokenizer after the call.
    [vocab.has(token)] holds when [vocab.get(token)] is an id. *)
Definition addToken (token : string) (t : SimpleTokenizer)
  : Z * SimpleTokenizer :=
  match mapGet String.eqb (vocab t) token with
  | None =>
      let id := nextId t in
      (id, {| vocab := mapSet String.eqb (vocab t) token id;
              reverseVocab := mapSet Z.eqb (reverseVocab t) id token;
              nextId := nextId t + 1 |})
  | Some id => (id, t)
  end.

Definition specialTokens : list string :=
  ["<|endoftext|>"; "<|im_start|>"; "<|im_end|>"; "<repo_name>"; "<reponame>";
   "<file_sep>"; "<filename>"; "<gh_stars>"; "<issue_start>";
   "<issue_comment>"; "<issue_closed>"; "<jupyter_start>"; "<jupyter_text>";
   "<jupyter_code>"; "<jupyter_output>"; "<jupyter_script>"; "<empty_output>"].

(** [new SimpleTokenizer()] *)
Definition create : SimpleTokenizer :=
  fold_left (fun t token => snd (addToken token t)) specialTokens
            {| vocab := []; reverseVocab := []; nextId := 0 |}.

(** [toLowerCase] on a code unit below 256: the letters A to Z and the
    letters from U+00C0 to U+00DE, the multiplication sign U+00D7 apart,
    have their lower case 32 places further. *)
Definition lowerCaseUnit (c : ascii) : ascii :=
  let n := nat_of_ascii c in
  if (Nat.leb 65 n && Nat.leb n 90)
     || (Nat.leb 192 n && Nat.leb n 222 && negb (Nat.eqb n 215))
  then ascii_of_nat (n + 32)
  else c.

Fixpoint toLowerCase (s : string) : string :=
  match s with
  | EmptyString => EmptyString
  | String c rest => String (lowerCaseUnit c) (toLowerCase rest)
  end.

(** [s.split(/\s+/)]: the pieces of [s] between its runs of white space.
    A run at the start or at the end of [s] leaves an empty piece there,
    and the empty string has the one piece that is empty. *)
Fixpoint splitWhiteSpace (s : string) : list string :=
  match s with
  | EmptyString => [EmptyString]
  | String c rest =>
      if isWhiteSpace c
      then match rest with
           | String c' _ =>
               if isWhiteSpace c' then splitWhiteSpace rest
               else EmptyString :: splitWhiteSpace rest
           | EmptyString => EmptyString :: splitWhiteSpace rest
           end
      else match splitWhiteSpace rest with
           | word :: words => String c word :: words
           | [] => [String c EmptyString]
           end
  end.

(** The loop of [encode] over the words, with the tokens pushed so far. *)
Fixpoint encodeWords (words : list string) (t : SimpleTokenizer)
         (tokens : list Z) : list Z * SimpleTokenizer :=
  match words with
  | [] => (tokens, t)
  | word :: rest =>
      if Nat.eqb (String.length word) 0 then encodeWords rest t tokens
      else
        match mapGet String.eqb (vocab t) word with
        | Some tokenId => encodeWords rest t (tokens ++ [tokenId])
        | None =>
            let '(tokenId, t') := addToken word t in
            encodeWords rest t' (tokens ++ [tokenId])
        end
  end.

Definition encode (text : string) (t : SimpleTokenizer)
  : list Z * SimpleTokenizer :=
  encodeWords (splitWhiteSpace (toLowerCase text)) t [].

(** [entry || '<unk>'] *)
Definition orUnk (entry : option string) : string :=
  match entry with
  | Some token => if String.eqb token "" then "<unk>" else token
  | None => "<unk>"
  end.

Definition decode (tokenIds : list Z) (t : SimpleTokenizer) : string :=
  String.concat " " (map (fun id => orUnk (mapGet Z.eqb (reverseVocab t) id))
                         tokenIds).

Definition decodeToken (tokenId : Z) (t : SimpleTokenizer) : string :=
  orUnk (mapGet Z.eqb (reverseVocab t) tokenId).

(** The tokenizer as the object that [TokenizerService] holds; its fields
    are the state outside the engine. *)
Definition asTokenizerObject : Analysis.TokenizerObject SimpleTokenizer :=
  {| Analysis.tkEncode :=
       fun text t => let '(tokens, t') := encode text t in (Normal tokens, t');
     Analysis.tkDecode :=
       Some (fun tokenIds t => (Normal (decode tokenIds t), t));
     Analysis.tkDecodeToken :=
       fun tokenId t => (Normal (decodeToken tokenId t), t) |}.

(** The service after [loadTokenizer] has fallen back to the simple
    tokenizer. *)
Definition fallbackService : Analysis.TokenizerService SimpleTokenizer :=
  {| Analysis.tokenizer := Some asTokenizerObject |}.

(** The words of a text: the pieces of its lower case that are not
    empty. *)
Definition wordsOf (text : string) : list string :=
  filter (fun word => negb (Nat.eqb (String.length word) 0))
         (splitWhiteSpace (toLowerCase text)).

(** The two maps are inverse to each other, and the ids in use are those
    below [nextId]. *)
Definition consistent (t : SimpleTokenizer) : Prop :=
  0 <= nextId t /\
  (forall token id, mapGet String.eqb (vocab t) token = Some id ->
                    0 <= id < nextId t /\
                    mapGet Z.eqb (reverseVocab t) id = Some token) /\
  (forall id token, mapGet Z.eqb (reverseVocab t) id = Some token ->
                    mapGet String.eqb (vocab t) token = Some id).

(** The vocabulary of [t'] has every entry of the vocabulary of [t]. *)
Definition extends (t t' : SimpleTokenizer) : Prop :=
  forall token id, mapGet String.eqb (vocab t) token = Some id ->
                   mapGet String.eqb (vocab t') token = Some id.

End Fallback.

(** ** src/utils/textUtils.ts: wrapping a text *)

Module Wrapping.
Import TextUtils Fallback.
Local Open Scope string_scope.
Local Open Scope Z_scope.

(** A string is truthy when it is not empty. *)
Definition isTruthy (s : string) : bool := negb (Nat.eqb (String.length s) 0).

(** [s.substring(0, n)] for an integer [n]: a negative [n] counts as 0. *)
Definition substringTo (n : Z) (s : string) : string :=
  String.substring 0 (Z.to_nat n) s.

(** [s.substring(n)] *)
Definition substringFrom (n : Z) (s : string) : string :=
  String.substring (Z.to_nat n) (String.length s - Z.to_nat n) s.

(** The loop over the words, which [chunkText] and [wordWrap] have in the
    same words: the lines pushed so far and the line in the making. *)
Fixpoint fill (words : list string) (width : Z) (lines : list string)
         (currentLine : string) : list string * string :=
  match words with
  | [] => (lines, currentLine)
  | word :: rest =>
      let testLine :=
        if isTruthy currentLine then currentLine ++ " " ++ word else word in
      if Z.of_nat (String.length testLine) <=? width
      then fill rest width lines testLine
      else if isTruthy currentLine
      then fill rest width (lines ++ [currentLine])%list word
      else fill rest width (lines ++ [substringTo width word])%list
                (substringFrom width word)
  end.

(** [if (currentLine) lines.push(currentLine)] *)
Definition pushLast (filled : list string * string) : list string :=
  let '(lines, currentLine) := filled in
  if isTruthy currentLine then (lines ++ [currentLine])%list else lines.

Definition wordWrap (text : string) (width : Z) : list string :=
  pushLast (fill (splitWhiteSpace text) width [] "").

Definition chunkText (text : string) (maxChunkSize : Z) : list string :=
  if Z.of_nat (String.length text) <=? maxChunkSize
  then [text]
  else pushLast (fill (splitWhiteSpace text) maxChunkSize [] "").

End Wrapping.

(** ** src/utils/mathUtils.ts: clamping *)

Module Clamping.
Import Binary64.

(** [Math.max(x, y)]: NaN when an argument is NaN, and [+0] counts as
    larger than [-0]. *)
Definition mathMax (x y : spec_float) : spec_float :=
  match x, y with
  | S754_nan, _ | _, S754_nan => S754_nan
  | S754_zero sx, S754_zero sy => S754_zero (sx && sy)
  | _, _ => if SFltb x y then y else x
  end.

(** [Math.min(x, y)]: NaN when an argument is NaN, and [-0] counts as
    smaller than [+0]. *)
Definition mathMin (x y : spec_float) : spec_float :=
  match x, y with
  | S754_nan, _ | _, S754_nan => S754_nan
  | S754_zero sx, S754_zero sy => S754_zero (sx || sy)
  | _, _ => if SFltb y x then y else x
  end.

Definition clamp (value min max : spec_float) : spec_float :=
  mathMax min (mathMin max value).

End Clamping.

(** ** More inputs of the scenarios *)

Module Inputs.
Import Binary64 Analysis Scenario Fallback.
Local Open Scope string_scope.
Local Open Scope Z_scope.

(** A model that takes contexts of at most three tokens. *)
Definition shortModel : ModelService unit :=
  {| session :=
       Some (fun inputIds w => (Normal {| probabilities := distribution |}, w));
     maxSequenceLength := 3 |}.

(** A model beside the fallback tokenizer, which it leaves alone. *)
Definition steadyModel : ModelService SimpleTokenizer :=
  {| session :=
       Some (fun inputIds t => (Normal {| probabilities := distribution |}, t));
     maxSequenceLength := 8192 |}.

(** An idle engine with a new fallback tokenizer. *)
Definition fresh : Machine SimpleTokenizer :=
  {| isAnalyzing := false; progressCallbacks := []; world := create |}.

(** The configuration [{ maxLength: 4 }]. *)
Definition fourTokens : option AnalysisConfig :=
  Some {| maxLength := Some 4 |}.

End Inputs.

(** * Properties *)

Unset Implicit Arguments.

Module ArrayFacts.
Section Sorting.
Context {N : Number} {A : Type}.
Variable comparefn : A -> A -> number.

Lemma insert_Permutation (x : A) (l : list A) :
  Permutation (insert comparefn x l) (x :: l).
Proof.
  induction l as [|y l IH]; simpl.
  - apply Permutation_refl.
  - destruct (sortsAfter comparefn x y).
    + apply perm_trans with (y :: x :: l).
      * now apply perm_skip.
      * apply perm_swap.
    + apply Permutation_refl.
Qed.

Lemma sort_Permutation (l : list A) : Permutation (sort comparefn l) l.
Proof.
  induction l as [|x l IH]; simpl.
  - apply perm_nil.
  - eapply perm_trans; [apply insert_Permutation|now apply perm_skip].
Qed.

Lemma sort_length (l : list A) : length (sort comparefn l) = length l.
Proof. apply Permutation_length, sort_Permutation. Qed.

Lemma sort_In (x : A) (l : list A) : In x (sort comparefn l) <-> In x l.
Proof.
  split; apply Permutation_in;
    [|apply Permutation_sym]; apply sort_Permutation.
Qed.
End Sorting.

Section Finding.
Context {A : Type}.
Variable p : A -> bool.

Lemma findIndexFrom_absent (l : list A) (i : Z) :
  (forall x, In x l -> p x = false) -> findIndexFrom p l i = -1.
Proof.
  revert i; induction l as [|y l IH]; intros i Hall; simpl.
  - reflexivity.
  - rewrite (Hall y (or_introl eq_refl)).
    apply IH. intros x Hx. apply Hall. now right.
Qed.

(** A found index is the length of the longest prefix without a match. *)
Lemma findIndexFrom_present (l : list A) (i : Z) :
  (exists x, In x l /\ p x = true) ->
  exists l1 x l2,
    l = l1 ++ x :: l2 /\ p x = true /\
    (forall y, In y l1 -> p y = false) /\
    findIndexFrom p l i = i + Z.of_nat (length l1).
Proof.
  revert i; induction l as [|y l IH]; intros i [x [Hin Hpx]].
  - destruct Hin.
  - simpl. destruct (p y) eqn:Hpy.
    + exists [], y, l. simpl. repeat split; auto; try lia.
    + destruct Hin as [->|Hin]; [congruence|].
      destruct (IH (i + 1) (ex_intro _ x (conj Hin Hpx)))
        as (l1 & z & l2 & -> & Hz & Hl1 & Hk).
      exists (y :: l1), z, l2. simpl. repeat split; auto.
      * intros w [<-|Hw]; auto.
      * rewrite Hk. lia.
Qed.
End Finding.

Lemma mapIndexed_seq {A B : Type} (f : A -> nat -> B) (d : A) (l : list A) (i : nat) :
  mapIndexed f l i = map (fun k => f (nth (k - i) l d) k) (seq i (length l)).
Proof.
  revert i; induction l as [|x l IH]; intros i; simpl.
  - reflexivity.
  - rewrite Nat.sub_diag. f_equal. rewrite IH.
    apply map_ext_in. intros k Hk. apply in_seq in Hk.
    replace (k - i)%nat with (S (k - S i)) by lia. reflexivity.
Qed.
End ArrayFacts.

Module RankFacts.
Import MathUtils ArrayFacts.

Section AnyNumber.
Context {N : Number}.

Lemma probabilityPairs_seq (d : list number) :
  probabilityPairs d = map (pairAt d) (seq 0 (length d)).
Proof.
  unfold probabilityPairs. rewrite (mapIndexed_seq _ zero).
  apply map_ext. intros k. unfold pairAt. now rewrite Nat.sub_0_r.
Qed.

Lemma In_probabilityPairs (d : list number) (x : ProbPair) :
  In x (probabilityPairs d) <->
  (index x < length d)%nat /\ x = pairAt d (index x).
Proof.
  rewrite probabilityPairs_seq, in_map_iff. split.
  - intros (k & <- & Hk). apply in_seq in Hk. simpl. split; [lia|reflexivity].
  - intros [Hlt Hx]. exists (index x). split; [now symmetry|].
    apply in_seq. lia.
Qed.

Lemma In_sortedPairs (d : list number) (x : ProbPair) :
  In x (sortedPairs d) <-> (index x < length d)%nat /\ x = pairAt d (index x).
Proof. unfold sortedPairs. now rewrite sort_In, In_probabilityPairs. Qed.

Lemma sortedPairs_length (d : list number) :
  length (sortedPairs d) = length d.
Proof.
  unfold sortedPairs. rewrite sort_length, probabilityPairs_seq.
  now rewrite length_map, length_seq.
Qed.

(** Where the target id stands in the sorted pairs, when it is the id of
    one of them. *)
Lemma rank_is_prefix_length (d : list number) (t : Z) :
  0 <= t < Z.of_nat (length d) ->
  exists l1 l2,
    sortedPairs d = l1 ++ pairAt d (Z.to_nat t) :: l2 /\
    (forall y, In y l1 -> index y <> Z.to_nat t) /\
    calculateTokenRank d t = Z.of_nat (length l1).
Proof.
  intros Ht. unfold calculateTokenRank, findIndex. fold (sortedPairs d).
  destruct (findIndexFrom_present
              (fun pr => Z.of_nat (index pr) =? t) (sortedPairs d) 0)
    as (l1 & x & l2 & HL & Hx & Hl1 & Hk).
  { exists (pairAt d (Z.to_nat t)). split.
    - apply In_sortedPairs. simpl. split; [lia|reflexivity].
    - simpl. apply Z.eqb_eq. lia. }
  apply Z.eqb_eq in Hx.
  assert (Hxin : In x (sortedPairs d)) by (rewrite HL; apply in_elt).
  apply In_sortedPairs in Hxin. destruct Hxin as [_ Hxeq].
  replace (index x) with (Z.to_nat t) in Hxeq by lia.
  exists l1, l2. rewrite Hk. repeat split.
  - now rewrite HL, Hxeq.
  - intros y Hy Heq. specialize (Hl1 y Hy). apply Z.eqb_neq in Hl1. lia.
  - destruct (0 + Z.of_nat (length l1) =? -1) eqn:E.
    + apply Z.eqb_eq in E. lia.
    + lia.
Qed.

Lemma rank_in_range (d : list number) (t : Z) :
  0 <= t < Z.of_nat (length d) ->
  0 <= calculateTokenRank d t < Z.of_nat (length d).
Proof.
  intros Ht. destruct (rank_is_prefix_length d t Ht) as (l1 & l2 & HL & _ & ->).
  apply (f_equal (@length _)) in HL.
  rewrite sortedPairs_length, length_app in HL. simpl in HL. lia.
Qed.

Lemma rank_out_of_range (d : list number) (t : Z) :
  t < 0 \/ Z.of_nat (length d) <= t ->
  calculateTokenRank d t = Z.of_nat (length d).
Proof.
  intros Ht. unfold calculateTokenRank, findIndex. fold (sortedPairs d).
  rewrite findIndexFrom_absent; [reflexivity|].
  intros x Hx. apply In_sortedPairs in Hx. apply Z.eqb_neq. lia.
Qed.

Lemma cumulative_at_zero (d : list number) :
  calculateCumulativeProbability d 0 = zero.
Proof.
  unfold calculateCumulativeProbability.
  destruct (sort byProbDescending (probabilityPairs d)); reflexivity.
Qed.
End AnyNumber.
End RankFacts.

Module OrderedRankFacts.
Import MathUtils ArrayFacts RankFacts.

Lemma filter_length_Permutation {A : Type} (f : A -> bool) (l l' : list A) :
  Permutation l l' -> length (filter f l) = length (filter f l').
Proof.
  induction 1; simpl; auto.
  - destruct (f x); simpl; auto.
  - destruct (f x), (f y); reflexivity.
  - congruence.
Qed.

Lemma filter_all {A : Type} (f : A -> bool) (l : list A) :
  Forall (fun y => f y = true) l -> filter f l = l.
Proof.
  induction 1 as [|y l Hy _ IH]; simpl; [reflexivity|]. now rewrite Hy, IH.
Qed.

Lemma filter_none {A : Type} (f : A -> bool) (l : list A) :
  Forall (fun y => f y = false) l -> filter f l = [].
Proof.
  induction 1 as [|y l Hy _ IH]; simpl; [reflexivity|]. now rewrite Hy, IH.
Qed.

Lemma StronglySorted_middle {A : Type} (R : A -> A -> Prop) (l1 l2 : list A) (x : A) :
  StronglySorted R (l1 ++ x :: l2) ->
  Forall (fun y => R y x) l1 /\ Forall (R x) l2.
Proof.
  induction l1 as [|y l1 IH]; simpl; intros HS.
  - apply StronglySorted_inv in HS. split; [constructor|tauto].
  - apply StronglySorted_inv in HS. destruct HS as [HS Hy].
    destruct (IH HS) as [H1 H2]. split; auto.
    constructor; auto.
    rewrite Forall_forall in Hy. apply Hy, in_elt.
Qed.

Section Ordered.
Context {N : Number}.
Variable comparable : number -> Prop.
Context {O : NumberOrder N comparable}.

Lemma sortsAfter_byProbDescending (a b : ProbPair) :
  comparable (prob a) -> comparable (prob b) ->
  sortsAfter byProbDescending a b = ltb (prob a) (prob b).
Proof. intros Ha Hb. unfold sortsAfter, byProbDescending. now apply sub_positive. Qed.

(** The comparison function is consistent in the sense of ECMAScript:
    it is negative one way exactly when it is positive the other way. *)
Lemma byProbDescending_consistent (a b : ProbPair) :
  comparable (prob a) -> comparable (prob b) ->
  ltb (byProbDescending a b) zero = ltb zero (byProbDescending b a).
Proof.
  intros Ha Hb. unfold byProbDescending.
  rewrite sub_negative, sub_positive by assumption. reflexivity.
Qed.

Lemma ltb_irrefl (x : number) : comparable x -> ltb x x = false.
Proof.
  intros Hx. destruct (ltb x x) eqn:E; [|reflexivity].
  now rewrite (ltb_asym x x Hx Hx E) in E.
Qed.

Lemma precedes_irrefl (a : ProbPair) : comparable (prob a) -> precedes a a = false.
Proof.
  intros Ha. unfold precedes. rewrite (ltb_irrefl _ Ha), Nat.ltb_irrefl.
  reflexivity.
Qed.

Lemma precedes_asym (a b : ProbPair) :
  comparable (prob a) -> comparable (prob b) ->
  precedes a b = true -> precedes b a = false.
Proof.
  unfold precedes. intros Ha Hb H.
  destruct (ltb (prob b) (prob a)) eqn:Eba.
  - rewrite (ltb_asym _ _ Hb Ha Eba). reflexivity.
  - simpl in H. apply andb_true_iff in H. destruct H as [H1 H2].
    apply negb_true_iff in H1. rewrite H1. simpl.
    apply Nat.ltb_lt in H2.
    destruct (Nat.ltb (index b) (index a)) eqn:E; [|reflexivity].
    apply Nat.ltb_lt in E. lia.
Qed.

Lemma precedes_not_less (a b : ProbPair) :
  comparable (prob a) -> comparable (prob b) ->
  precedes a b = true -> ltb (prob a) (prob b) = false.
Proof.
  unfold precedes. intros Ha Hb H.
  apply orb_true_iff in H. destruct H as [H|H].
  - now apply ltb_asym.
  - apply andb_true_iff in H. now apply negb_true_iff.
Qed.

Lemma insert_sorted (x : ProbPair) (s : list ProbPair) :
  comparable (prob x) -> Forall (fun a => comparable (prob a)) s ->
  (forall y, In y s -> (index x < index y)%nat) ->
  StronglySorted (fun a b => precedes a b = true) s ->
  StronglySorted (fun a b => precedes a b = true) (insert byProbDescending x s).
Proof.
  intros Hx. induction s as [|y s IH]; intros Hs Hidx HS; simpl.
  - repeat constructor.
  - apply Forall_cons_iff in Hs. destruct Hs as [Hy Hs].
    apply StronglySorted_inv in HS. destruct HS as [HS Hys].
    rewrite (sortsAfter_byProbDescending _ _ Hx Hy).
    destruct (ltb (prob x) (prob y)) eqn:Exy.
    + constructor.
      * apply IH; auto. intros z Hz. apply Hidx. now right.
      * rewrite Forall_forall in *. intros z Hz.
        apply (Permutation_in _ (insert_Permutation _ x s)) in Hz.
        destruct Hz as [<-|Hz]; [|now apply Hys].
        unfold precedes. now rewrite Exy.
    + constructor; [now constructor|].
      rewrite Forall_forall in *. intros z Hz.
      assert (Hlt : (index x < index z)%nat) by now apply Hidx.
      assert (Exz : ltb (prob x) (prob z) = false).
      { destruct Hz as [<-|Hz]; [assumption|].
        assert (Hcz : comparable (prob z)) by (apply Hs, Hz).
        apply (ltb_negtrans (prob x) (prob y) (prob z)); auto.
        apply precedes_not_less; auto. }
      unfold precedes. rewrite Exz. apply Nat.ltb_lt in Hlt. rewrite Hlt.
      apply orb_true_r.
Qed.

Lemma sort_sorted (l : list ProbPair) :
  Forall (fun a => comparable (prob a)) l ->
  StronglySorted (fun a b => (index a < index b)%nat) l ->
  StronglySorted (fun a b => precedes a b = true) (sort byProbDescending l).
Proof.
  induction l as [|x l IH]; intros Hl HS; simpl.
  - constructor.
  - apply Forall_cons_iff in Hl. destruct Hl as [Hx Hl].
    apply StronglySorted_inv in HS. destruct HS as [HS Hxl].
    apply insert_sorted; auto.
    + rewrite Forall_forall in *. intros y Hy. apply Hl.
      now apply sort_In in Hy.
    + rewrite Forall_forall in Hxl. intros y Hy. apply Hxl.
      now apply sort_In in Hy.
Qed.

Lemma probabilityPairs_increasing (d : list number) :
  StronglySorted (fun a b => (index a < index b)%nat) (probabilityPairs d).
Proof.
  rewrite probabilityPairs_seq. generalize 0%nat as i.
  induction (length d) as [|n IH]; intros i; simpl.
  - constructor.
  - constructor; [apply IH|].
    apply Forall_forall. intros y Hy. apply in_map_iff in Hy.
    destruct Hy as (k & <- & Hk). apply in_seq in Hk. simpl. lia.
Qed.

Lemma probabilityPairs_comparable (d : list number) :
  Forall comparable d -> Forall (fun a => comparable (prob a)) (probabilityPairs d).
Proof.
  intros Hd. apply Forall_forall. intros x Hx.
  apply In_probabilityPairs in Hx. destruct Hx as [Hlt ->].
  unfold pairAt. simpl.
  rewrite Forall_forall in Hd. apply Hd, nth_In, Hlt.
Qed.

Lemma sortedPairs_sorted (d : list number) :
  Forall comparable d ->
  StronglySorted (fun a b => precedes a b = true) (sortedPairs d).
Proof.
  intros Hd. apply sort_sorted.
  - now apply probabilityPairs_comparable.
  - apply probabilityPairs_increasing.
Qed.

(** In a sorted list an element has exactly the elements in front of it
    before it in the order. *)
Lemma sorted_count_before (l1 l2 : list ProbPair) (x : ProbPair) :
  Forall (fun a => comparable (prob a)) (l1 ++ x :: l2) ->
  StronglySorted (fun a b => precedes a b = true) (l1 ++ x :: l2) ->
  length (filter (fun y => precedes y x) (l1 ++ x :: l2)) = length l1.
Proof.
  intros Hc HS. apply StronglySorted_middle in HS. destruct HS as [H1 H2].
  apply Forall_app in Hc. destruct Hc as [Hc1 Hc2].
  apply Forall_cons_iff in Hc2. destruct Hc2 as [Hx Hc2].
  rewrite filter_app, length_app. simpl. rewrite (precedes_irrefl _ Hx).
  assert (E1 : filter (fun y => precedes y x) l1 = l1).
  { apply filter_all. exact H1. }
  assert (E2 : filter (fun y => precedes y x) l2 = []).
  { apply filter_none. rewrite Forall_forall in *. intros y Hy.
    apply precedes_asym; auto. }
  rewrite E1, E2. simpl. lia.
Qed.

Lemma aheadOf_precedes (d : list number) (t j : nat) :
  aheadOf d t j = precedes (pairAt d j) (pairAt d t).
Proof. reflexivity. Qed.

Theorem rank_is_position (d : list number) (t : Z) :
  Forall comparable d ->
  0 <= t < Z.of_nat (length d) ->
  calculateTokenRank d t = positionInDescendingOrder d (Z.to_nat t).
Proof.
  intros Hd Ht.
  destruct (rank_is_prefix_length d t Ht) as (l1 & l2 & HL & _ & ->).
  unfold positionInDescendingOrder. f_equal.
  pose proof (sortedPairs_sorted d Hd) as HS.
  assert (Hc : Forall (fun a => comparable (prob a)) (sortedPairs d)).
  { apply Forall_forall. intros x Hx. apply sort_In in Hx.
    revert x Hx. apply Forall_forall. now apply probabilityPairs_comparable. }
  rewrite HL in HS, Hc.
  rewrite <- (sorted_count_before _ _ _ Hc HS), <- HL.
  unfold sortedPairs.
  rewrite (filter_length_Permutation _ _ _ (sort_Permutation byProbDescending _)).
  rewrite probabilityPairs_seq.
  generalize (seq 0 (length d)) as l. induction l as [|k l IH]; simpl.
  - reflexivity.
  - rewrite aheadOf_precedes. destruct (precedes _ _); simpl; now rewrite IH.
Qed.

(** *** Cumulative probability *)

Lemma nonnegative_zero : comparable zero /\ ltb zero zero = false.
Proof. split; [apply comparable_zero|apply ltb_irrefl, comparable_zero]. Qed.

Lemma sumBelowRank_grows (l : list ProbPair) (i r : Z) (acc : number) :
  (comparable acc /\ ltb acc zero = false) -> Forall (fun x => comparable (prob x) /\ ltb (prob x) zero = false) l ->
  (comparable (sumBelowRank l i r acc) /\ ltb (sumBelowRank l i r acc) zero = false) /\
  ltb (sumBelowRank l i r acc) acc = false.
Proof.
  revert i acc. induction l as [|x l IH]; intros i acc Hacc Hl; simpl.
  - split; [assumption|]. apply ltb_irrefl, Hacc.
  - apply Forall_cons_iff in Hl. destruct Hl as [Hx Hl].
    destruct (i <? r).
    + destruct (add_nonnegative acc (prob x)) as (Hc & Hn & Hm);
        try apply Hacc; try apply Hx.
      destruct (IH (i + 1) (add acc (prob x)) (conj Hc Hn) Hl) as [Hn' Hm'].
      split; [assumption|].
      apply (ltb_negtrans _ (add acc (prob x)) _); auto; apply Hn' || apply Hacc.
    + split; [assumption|]. apply ltb_irrefl, Hacc.
Qed.

Lemma sumBelowRank_monotone (l : list ProbPair) (i r1 r2 : Z) (acc : number) :
  r1 <= r2 ->
  (comparable acc /\ ltb acc zero = false) -> Forall (fun x => comparable (prob x) /\ ltb (prob x) zero = false) l ->
  ltb (sumBelowRank l i r2 acc) (sumBelowRank l i r1 acc) = false.
Proof.
  intros Hr. revert i acc. induction l as [|x l IH]; intros i acc Hacc Hl.
  - simpl. apply ltb_irrefl, Hacc.
  - pose proof (sumBelowRank_grows (x :: l) i r2 acc Hacc Hl) as [_ Hg].
    simpl in *. apply Forall_cons_iff in Hl. destruct Hl as [Hx Hl].
    destruct (i <? r1) eqn:E1.
    + assert (E2 : (i <? r2) = true) by (apply Z.ltb_lt in E1; apply Z.ltb_lt; lia).
      rewrite E2. apply IH; auto.
      destruct (add_nonnegative acc (prob x)) as (Hc & Hn & _);
        try apply Hacc; try apply Hx.
      now split.
    + exact Hg.
Qed.

Theorem cumulative_monotone (d : list number) (r1 r2 : Z) :
  Forall (fun x => comparable x /\ ltb x zero = false) d -> r1 <= r2 ->
  ltb (calculateCumulativeProbability d r2)
      (calculateCumulativeProbability d r1) = false.
Proof.
  intros Hd Hr. unfold calculateCumulativeProbability.
  apply sumBelowRank_monotone; auto using nonnegative_zero.
  apply Forall_forall. intros x Hx. apply sort_In in Hx.
  apply In_probabilityPairs in Hx. destruct Hx as [Hlt ->]. simpl.
  rewrite Forall_forall in Hd. apply Hd, nth_In, Hlt.
Qed.
End Ordered.
End OrderedRankFacts.
(** ** IEEE 754 binary64: rounding *)

Module Float.
Import Binary64.

Lemma fexp_eq (e : Z) : fexp prec emax e = Z.max (e - 53) (-1074).
Proof. reflexivity. Qed.

(** *** The number of binary digits *)

Lemma digits2_pos_size (p : positive) : digits2_pos p = Pos.size p.
Proof. induction p; simpl; congruence. Qed.

Lemma digits_bounds (p : positive) :
  2 ^ (Z.pos (digits2_pos p) - 1) <= Z.pos p < 2 ^ Z.pos (digits2_pos p).
Proof.
  rewrite digits2_pos_size. split.
  - pose proof (Pos.size_le p) as H.
    apply Pos2Z.pos_le_pos in H. rewrite Pos2Z.inj_pow in H.
    replace (Z.pos (Pos.size p)) with (Z.succ (Z.pos (Pos.size p) - 1)) in H by lia.
    rewrite Z.pow_succ_r in H by lia. lia.
  - pose proof (Pos.size_gt p) as H.
    apply Pos2Z.pos_lt_pos in H. now rewrite Pos2Z.inj_pow in H.
Qed.

Lemma digits_unique (p : positive) (k : Z) :
  2 ^ (k - 1) <= Z.pos p < 2 ^ k -> Z.pos (digits2_pos p) = k.
Proof.
  intros [Hlo Hhi]. pose proof (digits_bounds p) as [Dlo Dhi].
  set (d := Z.pos (digits2_pos p)) in *.
  assert (0 < k).
  { destruct (Z_lt_le_dec 0 k); [assumption|].
    destruct (Z.eq_dec k 0) as [->|]; [simpl in Hhi; lia|].
    rewrite Z.pow_neg_r in Hhi by lia. lia. }
  destruct (Z_lt_le_dec d k).
  - assert (2 ^ d <= 2 ^ (k - 1)) by (apply Z.pow_le_mono_r; lia). lia.
  - destruct (Z_lt_le_dec k d); [|lia].
    assert (2 ^ k <= 2 ^ (d - 1)) by (apply Z.pow_le_mono_r; lia). lia.
Qed.

Lemma digits_monotone (p q : positive) :
  Z.pos p <= Z.pos q -> Z.pos (digits2_pos p) <= Z.pos (digits2_pos q).
Proof.
  intros Hpq. pose proof (digits_bounds p) as [Plo _].
  pose proof (digits_bounds q) as [_ Qhi].
  destruct (Z_lt_le_dec (Z.pos (digits2_pos q)) (Z.pos (digits2_pos p))); [|lia].
  assert (2 ^ Z.pos (digits2_pos q) <= 2 ^ (Z.pos (digits2_pos p) - 1))
    by (apply Z.pow_le_mono_r; lia).
  lia.
Qed.

(** *** Shifts *)

Lemma iter_xO (p d : positive) : Z.pos (Pos.iter xO p d) = Z.pos p * 2 ^ Z.pos d.
Proof.
  induction d using Pos.peano_ind.
  - simpl. lia.
  - rewrite Pos.iter_succ, Pos2Z.inj_succ, Z.pow_succ_r by lia.
    rewrite Pos2Z.inj_xO, IHd. ring.
Qed.

Lemma iter_pos_iter {A : Type} (f : A -> A) (n : positive) (x : A) :
  iter_pos f n x = Pos.iter f x n.
Proof.
  revert x. induction n as [n IH|n IH|]; intros x; simpl.
  - rewrite !IH, !Pos.iter_swap. reflexivity.
  - rewrite !IH. reflexivity.
  - reflexivity.
Qed.

Lemma shr_1_m (mrs : shr_record) :
  0 <= shr_m mrs -> shr_m (shr_1 mrs) = shr_m mrs / 2.
Proof.
  destruct mrs as [m r s]. simpl. intros Hm.
  destruct m as [|[p|p|]|p]; cbn [shr_m]; try lia; try reflexivity.
  - apply Z.div_unique with 1; lia.
  - apply Z.div_unique with 0; lia.
Qed.

Lemma shr_iter_m (n : positive) (mrs : shr_record) :
  0 <= shr_m mrs ->
  shr_m (iter_pos shr_1 n mrs) = shr_m mrs / 2 ^ Z.pos n.
Proof.
  intros Hm. rewrite iter_pos_iter.
  induction n using Pos.peano_ind.
  - simpl. rewrite shr_1_m by assumption. reflexivity.
  - rewrite Pos.iter_succ, Pos2Z.inj_succ, Z.pow_succ_r by lia.
    rewrite shr_1_m.
    + rewrite IHn, Z.div_div by lia. f_equal. ring.
    + rewrite IHn. apply Z.div_pos; lia.
Qed.

(** The mantissa after [shr]: the quotient by the power of two. *)
Lemma shr_m_quotient (m e n : Z) (l : location) :
  0 <= m -> 0 <= n ->
  shr_m (fst (shr (shr_record_of_loc m l) e n)) = m / 2 ^ n /\
  snd (shr (shr_record_of_loc m l) e n) = e + n.
Proof.
  intros Hm Hn. assert (Hr : shr_m (shr_record_of_loc m l) = m)
    by (destruct l as [|[]]; reflexivity).
  destruct n as [|n|n]; simpl.
  - rewrite Hr, Z.div_1_r. split; [reflexivity|lia].
  - rewrite shr_iter_m by lia. rewrite Hr. split; reflexivity.
  - lia.
Qed.

Lemma digits_quotient (p : positive) (n : Z) :
  0 <= n < Z.pos (digits2_pos p) ->
  exists q, Z.pos p / 2 ^ n = Z.pos q /\
            Z.pos (digits2_pos q) = Z.pos (digits2_pos p) - n.
Proof.
  intros Hn. pose proof (digits_bounds p) as [Hlo Hhi].
  set (d := Z.pos (digits2_pos p)) in *.
  assert (Hpow : 0 < 2 ^ n) by (apply Z.pow_pos_nonneg; lia).
  assert (Hsplit : 2 ^ d = 2 ^ (d - n) * 2 ^ n)
    by (rewrite <- Z.pow_add_r by lia; f_equal; lia).
  assert (Hsplit' : 2 ^ (d - 1) = 2 ^ n * 2 ^ (d - n - 1))
    by (rewrite <- Z.pow_add_r by lia; f_equal; lia).
  assert (Hq1 : 2 ^ (d - n - 1) <= Z.pos p / 2 ^ n)
    by (apply Z.div_le_lower_bound; lia).
  assert (Hq2 : Z.pos p / 2 ^ n < 2 ^ (d - n))
    by (apply Z.div_lt_upper_bound; lia).
  assert (Hpos : 0 < 2 ^ (d - n - 1)) by (apply Z.pow_pos_nonneg; lia).
  destruct (Z.pos p / 2 ^ n) as [|q|q] eqn:E; try lia.
  exists q. split; [reflexivity|]. apply digits_unique. lia.
Qed.

Lemma round_nearest_even_cases (m : Z) (l : location) :
  round_nearest_even m l = m \/ round_nearest_even m l = m + 1.
Proof.
  destruct l as [|[]]; simpl; auto. destruct (Z.even m); auto.
Qed.

Lemma shr_fexp_spec (p : positive) (e : Z) (l : location) :
  e <= fexp prec emax (Z.pos (digits2_pos p) + e) ->
  shr_m (fst (shr_fexp prec emax (Z.pos p) e l))
    = Z.pos p / 2 ^ (fexp prec emax (Z.pos (digits2_pos p) + e) - e) /\
  snd (shr_fexp prec emax (Z.pos p) e l)
    = fexp prec emax (Z.pos (digits2_pos p) + e).
Proof.
  intros He. unfold shr_fexp. cbn [Zdigits2].
  destruct (shr_m_quotient (Z.pos p) e
              (fexp prec emax (Z.pos (digits2_pos p) + e) - e) l) as [H1 H2];
    lia.
Qed.

(** Rounding a positive integer [p * 2^e] that needs no left shift: the
    result is canonical, and truncation is a lower bound for it. *)
Lemma binary_round_aux_positive (s : bool) (p : positive) (e : Z) :
  let d := Z.pos (digits2_pos p) in
  let fe := fexp prec emax (d + e) in
  e <= fe -> fe - e < d ->
  exists m' e',
    binary_round_aux prec emax s (Z.pos p) e loc_Exact
      = (if e' <=? emax - prec then S754_finite s m' e' else S754_infinity s) /\
    canonical_mantissa prec emax m' e' = true /\
    fe <= e' /\
    (e' = fe -> Z.pos p / 2 ^ (fe - e) <= Z.pos m').
Proof.
  intros d fe He Hn. unfold binary_round_aux.
  destruct (shr_fexp_spec p e loc_Exact He) as [Hm1 He1].
  destruct (shr_fexp prec emax (Z.pos p) e loc_Exact) as [mrs' e'] eqn:E1.
  cbn [fst snd] in Hm1, He1. fold d in Hm1, He1. fold fe in Hm1, He1.
  destruct (digits_quotient p (fe - e)) as (p1 & Hp1 & Hd1); [fold d; lia|].
  fold d in Hd1. rewrite Hp1 in Hm1.
  set (m2 := round_nearest_even (shr_m mrs') (loc_of_shr_record mrs')).
  assert (Hm2 : m2 = Z.pos p1 \/ m2 = Z.pos p1 + 1).
  { unfold m2. rewrite Hm1. apply round_nearest_even_cases. }
  assert (Hq : exists q, m2 = Z.pos q).
  { destruct Hm2 as [->| ->]; [now exists p1|]. exists (p1 + 1)%positive. lia. }
  destruct Hq as [q Hq]. rewrite Hq. subst e'.
  pose proof (digits_bounds p1) as [P1lo P1hi]. rewrite Hd1 in P1lo, P1hi.
  assert (Hfe : fe = Z.max (d + e - 53) (-1074)) by (unfold fe; apply fexp_eq).
  assert (Hdq : Z.pos (digits2_pos q) = d - (fe - e) \/
                (Z.pos (digits2_pos q) = d - (fe - e) + 1 /\
                 Z.pos q = 2 ^ (d - (fe - e)))).
  { destruct (Z_lt_le_dec (Z.pos q) (2 ^ (d - (fe - e)))).
    - left. apply digits_unique. lia.
    - right. assert (Z.pos q = 2 ^ (d - (fe - e))) by lia. split; [|assumption].
      apply digits_unique. rewrite H.
      replace (d - (fe - e) + 1 - 1) with (d - (fe - e)) by lia.
      split; [lia|]. apply Z.pow_lt_mono_r; lia. }
  assert (He2 : fe <= fexp prec emax (Z.pos (digits2_pos q) + fe)).
  { rewrite fexp_eq. lia. }
  destruct (shr_fexp_spec q fe loc_Exact He2) as [Hm3 He3].
  destruct (shr_fexp prec emax (Z.pos q) fe loc_Exact) as [mrs'' e''] eqn:E2.
  cbn [fst snd] in Hm3, He3. rewrite fexp_eq in Hm3, He3.
  destruct Hdq as [Hdq|[Hdq Hqpow]].
  - (* the rounded mantissa keeps its number of digits *)
    assert (He'' : e'' = fe) by lia.
    replace (Z.max _ _ - fe) with 0 in Hm3 by lia.
    rewrite Z.pow_0_r, Z.div_1_r in Hm3.
    exists q, fe. rewrite Hm3, He''.
    split; [reflexivity|]. split; [|split; [lia|intros _; rewrite Hp1; lia]].
    unfold canonical_mantissa. rewrite fexp_eq. apply Z.eqb_eq. lia.
  - (* the rounded mantissa is the next power of two *)
    destruct (Z_lt_le_dec (d + e - 53) (-1074)).
    + assert (He'' : e'' = fe) by lia.
      replace (Z.max _ _ - fe) with 0 in Hm3 by lia.
      rewrite Z.pow_0_r, Z.div_1_r in Hm3.
      exists q, fe. rewrite Hm3, He''.
      split; [reflexivity|]. split; [|split; [lia|intros _; rewrite Hp1; lia]].
      unfold canonical_mantissa. rewrite fexp_eq. apply Z.eqb_eq. lia.
    + assert (He'' : e'' = fe + 1) by lia.
      replace (Z.max _ _ - fe) with 1 in Hm3 by lia.
      destruct (digits_quotient q 1) as (q' & Hq' & Hdq'); [lia|].
      rewrite Hq' in Hm3.
      exists q', (fe + 1). rewrite Hm3, He''.
      split; [reflexivity|]. split; [|split; [lia|intros; lia]].
      unfold canonical_mantissa. rewrite fexp_eq. apply Z.eqb_eq. lia.
Qed.

Lemma digits_shifted (p r : positive) (k : Z) :
  0 <= k -> Z.pos r = Z.pos p * 2 ^ k ->
  Z.pos (digits2_pos r) = Z.pos (digits2_pos p) + k.
Proof.
  intros Hk Hr. pose proof (digits_bounds p) as [Hlo Hhi].
  apply digits_unique. rewrite Hr.
  replace (Z.pos (digits2_pos p) + k - 1) with (Z.pos (digits2_pos p) - 1 + k) by lia.
  rewrite !Z.pow_add_r by lia.
  assert (0 < 2 ^ k) by (apply Z.pow_pos_nonneg; lia).
  split; [apply Z.mul_le_mono_nonneg_r; lia|apply Z.mul_lt_mono_pos_r; lia].
Qed.

Lemma shl_align_fst (mx : positive) (ex ez : Z) :
  ez <= ex ->
  Z.pos (fst (shl_align mx ex ez)) = Z.pos mx * 2 ^ (ex - ez) /\
  snd (shl_align mx ex ez) = ez.
Proof.
  intros He. unfold shl_align.
  destruct (ez - ex) as [|k|k] eqn:E; cbn [fst snd]; try lia.
  - replace (ex - ez) with 0 by lia. simpl. lia.
  - rewrite iter_xO. replace (ex - ez) with (Z.pos k) by lia. lia.
Qed.

(** Rounding a positive integer multiple of [2^e], for an exponent in
    range: a canonical result, or an infinity, that is not below any
    canonical number under the exact value. *)
Lemma binary_round_positive (s : bool) (p : positive) (e : Z) :
  -1074 <= e ->
  exists m' e',
    binary_round prec emax s p e
      = (if e' <=? emax - prec then S754_finite s m' e' else S754_infinity s) /\
    canonical_mantissa prec emax m' e' = true /\
    forall mx ex, canonical_mantissa prec emax mx ex = true ->
                  atLeast p e mx ex ->
                  ex < e' \/ (ex = e' /\ Z.pos mx <= Z.pos m').
Proof.
  intros He. unfold binary_round.
  set (d := Z.pos (digits2_pos p)). set (fe := fexp prec emax (d + e)).
  assert (Hfe : fe = Z.max (d + e - 53) (-1074)) by apply fexp_eq.
  assert (Hd : 0 < d) by (unfold d; lia).
  assert (Hbelow : forall mx ex, canonical_mantissa prec emax mx ex = true ->
                                 atLeast p e mx ex -> ex <= fe).
  { intros mx ex Hc [Hle Hval]. unfold canonical_mantissa in Hc.
    apply Z.eqb_eq in Hc. rewrite fexp_eq in Hc.
    assert (Hpos : 0 < Z.pos mx * 2 ^ (ex - e)).
    { apply Z.mul_pos_pos; [lia|apply Z.pow_pos_nonneg; lia]. }
    destruct (Z.pos mx * 2 ^ (ex - e)) as [|r|r] eqn:Er; try lia.
    assert (Hr := digits_shifted mx r (ex - e) ltac:(lia) ltac:(lia)).
    pose proof (digits_monotone r p Hval) as Hmono. fold d in Hmono. lia. }
  destruct (Z_lt_le_dec fe e) as [Hlt|Hge].
  - (* the mantissa is shifted left: the integer is representable *)
    destruct (shl_align_fst p e fe) as [Hfst Hsnd]; [lia|].
    destruct (shl_align p e fe) as [mz ez]. cbn [fst snd] in Hfst, Hsnd. subst ez.
    assert (Hdz := digits_shifted p mz (e - fe) ltac:(lia) Hfst). fold d in Hdz.
    destruct (binary_round_aux_positive s mz fe) as (m' & e' & Hr & Hc & _ & _).
    + rewrite Hdz. fold d. replace (d + (e - fe) + fe) with (d + e) by lia.
      fold fe. lia.
    + rewrite Hdz. fold d. replace (d + (e - fe) + fe) with (d + e) by lia.
      fold fe. lia.
    + exists m', e'. split; [exact Hr|]. split; [exact Hc|].
      intros mx ex Hcx Hx. pose proof (Hbelow mx ex Hcx Hx).
      destruct Hx. lia.
  - (* the integer is rounded at the exponent [fe] *)
    assert (Hal : shl_align p e fe = (p, e)).
    { unfold shl_align. destruct (fe - e) eqn:E; try reflexivity. lia. }
    rewrite Hal.
    destruct (binary_round_aux_positive s p e) as (m' & e' & Hr & Hc & Hfe' & Hm');
      fold d; fold fe; try lia.
    fold d in Hfe', Hm'. fold fe in Hfe', Hm'.
    exists m', e'. split; [exact Hr|]. split; [exact Hc|].
    intros mx ex Hcx Hx. pose proof (Hbelow mx ex Hcx Hx) as Hex.
    destruct (Z_lt_le_dec ex e'); [now left|right].
    assert (e' = fe) by lia. split; [lia|].
    specialize (Hm' H). destruct Hx as [Hle Hval].
    replace ex with fe in Hval by lia.
    assert (Z.pos mx <= Z.pos p / 2 ^ (fe - e)); [|lia].
    apply Z.div_le_lower_bound; [apply Z.pow_pos_nonneg|]; lia.
Qed.
End Float.

(** ** IEEE 754 binary64: the order *)

Module FloatOrder.
Import Binary64.

Lemma SFltb_key (x y : spec_float) :
  isNaN x = false -> isNaN y = false ->
  (SFltb x y = true <-> keyLt (key x) (key y)).
Proof.
  destruct x as [sx|sx| |sx mx ex], y as [sy|sy| |sy my ey];
    try discriminate; intros _ _;
    try destruct sx; try destruct sy;
    unfold SFltb, SFcompare, key, keyLt;
    try (split; [discriminate|lia]);
    try (split; [lia|reflexivity]);
    change (Pos.compare_cont Eq mx my) with (Pos.compare mx my);
    destruct (Z.compare_spec ex ey); destruct (Pos.compare_spec mx my);
    simpl; split; intros; try discriminate; try reflexivity; lia.
Qed.

Lemma SFltb_asym (x y : spec_float) :
  isNaN x = false -> isNaN y = false -> SFltb x y = true -> SFltb y x = false.
Proof.
  intros Hx Hy H. apply (SFltb_key x y Hx Hy) in H.
  destruct (SFltb y x) eqn:E; [|reflexivity].
  apply (SFltb_key y x Hy Hx) in E. unfold keyLt in *.
  destruct (key x) as [[a1 a2] a3], (key y) as [[b1 b2] b3]. lia.
Qed.

Lemma SFltb_total (x y : spec_float) :
  isNaN x = false -> isNaN y = false ->
  SFltb x y = false -> SFltb y x = false -> key x = key y.
Proof.
  intros Hx Hy H1 H2.
  assert (K1 : ~ keyLt (key x) (key y))
    by (intros K; apply (SFltb_key x y Hx Hy) in K; congruence).
  assert (K2 : ~ keyLt (key y) (key x))
    by (intros K; apply (SFltb_key y x Hy Hx) in K; congruence).
  unfold keyLt in *.
  destruct (key x) as [[a1 a2] a3], (key y) as [[b1 b2] b3].
  repeat f_equal; lia.
Qed.

Lemma SFltb_negtrans (x y z : spec_float) :
  isNaN x = false -> isNaN y = false -> isNaN z = false ->
  SFltb x y = false -> SFltb y z = false -> SFltb x z = false.
Proof.
  intros Hx Hy Hz H1 H2.
  destruct (SFltb x z) eqn:E; [|reflexivity].
  apply (SFltb_key x z Hx Hz) in E.
  assert (K1 : ~ keyLt (key x) (key y))
    by (intros K; apply (SFltb_key x y Hx Hy) in K; congruence).
  assert (K2 : ~ keyLt (key y) (key z))
    by (intros K; apply (SFltb_key y z Hy Hz) in K; congruence).
  unfold keyLt in *.
  destruct (key x) as [[a1 a2] a3], (key y) as [[b1 b2] b3],
           (key z) as [[c1 c2] c3]. lia.
Qed.
End FloatOrder.

(** ** IEEE 754 binary64: differences and sums *)

Module FloatArith.
Import Binary64 Float FloatOrder.

Lemma canonical_bounds (m : positive) (e : Z) :
  canonical_mantissa prec emax m e = true ->
  -1074 <= e /\ Z.pos m < 2 ^ 53 /\ (-1074 < e -> 2 ^ 52 <= Z.pos m).
Proof.
  unfold canonical_mantissa. intros H. apply Z.eqb_eq in H.
  rewrite fexp_eq in H. pose proof (digits_bounds m) as [Hlo Hhi].
  set (d := Z.pos (digits2_pos m)) in *.
  split; [lia|]. split.
  - assert (2 ^ d <= 2 ^ 53) by (apply Z.pow_le_mono_r; lia). lia.
  - intros He. replace d with 53 in Hlo by lia. exact Hlo.
Qed.

(** For canonical numbers the order by exponent, then mantissa, is the
    order of the values. *)
Lemma compare_aligned (mx my : positive) (ex ey : Z) :
  canonical_mantissa prec emax mx ex = true ->
  canonical_mantissa prec emax my ey = true ->
  Z.compare (Z.pos mx * 2 ^ (ex - Z.min ex ey)) (Z.pos my * 2 ^ (ey - Z.min ex ey))
  = match Z.compare ex ey with
    | Lt => Lt
    | Gt => Gt
    | Eq => Pos.compare mx my
    end.
Proof.
  intros Hx Hy.
  destruct (canonical_bounds mx ex Hx) as (Hex & Hmx & Hnx).
  destruct (canonical_bounds my ey Hy) as (Hey & Hmy & Hny).
  destruct (Z.compare_spec ex ey) as [Heq|Hlt|Hgt].
  - subst ey. rewrite Z.min_id, Z.sub_diag. simpl. rewrite !Pos.mul_1_r.
    reflexivity.
  - rewrite Z.min_l, Z.sub_diag by lia. apply Z.compare_lt_iff.
    assert (2 ^ 1 <= 2 ^ (ey - ex)) by (apply Z.pow_le_mono_r; lia).
    specialize (Hny ltac:(lia)). simpl (2 ^ 0). change (2 ^ 1) with 2 in H.
    change (2 ^ 53) with (2 ^ 52 * 2) in Hmx. nia.
  - rewrite Z.min_r by lia. rewrite Z.sub_diag. apply Z.compare_gt_iff.
    assert (2 ^ 1 <= 2 ^ (ex - ey)) by (apply Z.pow_le_mono_r; lia).
    specialize (Hnx ltac:(lia)). simpl (2 ^ 0). change (2 ^ 1) with 2 in H.
    change (2 ^ 53) with (2 ^ 52 * 2) in Hmy. nia.
Qed.

Lemma SFcompare_aligned (sx sy : bool) (mx my : positive) (ex ey : Z) :
  canonical_mantissa prec emax mx ex = true ->
  canonical_mantissa prec emax my ey = true ->
  SFcompare (S754_finite sx mx ex) (S754_finite sy my ey)
  = Some (Z.compare
            (cond_Zopp sx (Z.pos (fst (shl_align mx ex (Z.min ex ey)))))
            (cond_Zopp sy (Z.pos (fst (shl_align my ey (Z.min ex ey)))))).
Proof.
  intros Hx Hy.
  destruct (shl_align_fst mx ex (Z.min ex ey)) as [-> _]; [lia|].
  destruct (shl_align_fst my ey (Z.min ex ey)) as [-> _]; [lia|].
  pose proof (compare_aligned mx my ex ey Hx Hy) as Hc.
  assert (0 < Z.pos mx * 2 ^ (ex - Z.min ex ey))
    by (apply Z.mul_pos_pos; [lia|apply Z.pow_pos_nonneg; lia]).
  assert (0 < Z.pos my * 2 ^ (ey - Z.min ex ey))
    by (apply Z.mul_pos_pos; [lia|apply Z.pow_pos_nonneg; lia]).
  unfold SFcompare. f_equal.
  change (Pos.compare_cont Eq mx my) with (Pos.compare mx my).
  destruct sx, sy; unfold cond_Zopp.
  - rewrite Z.compare_opp, (Z.compare_antisym (Z.pos mx * _)), Hc.
    destruct (ex ?= ey); reflexivity.
  - symmetry. apply Z.compare_lt_iff. lia.
  - symmetry. apply Z.compare_gt_iff. lia.
  - rewrite Hc. reflexivity.
Qed.

Lemma binary_normalize_sign (D e : Z) :
  -1074 <= e ->
  SFltb (S754_zero false) (binary_normalize prec emax D e false) = (0 <? D) /\
  SFltb (binary_normalize prec emax D e false) (S754_zero false) = (D <? 0).
Proof.
  intros He. destruct D as [|p|p]; simpl.
  - split; reflexivity.
  - destruct (binary_round_positive false p e He) as (m' & e' & -> & _ & _).
    destruct (e' <=? emax - prec); split; reflexivity.
  - destruct (binary_round_positive true p e He) as (m' & e' & -> & _ & _).
    destruct (e' <=? emax - prec); split; reflexivity.
Qed.

Lemma SFltb_irrefl (x : spec_float) : SFltb x x = false.
Proof.
  destruct x as [s|s| |s m e]; try destruct s; try reflexivity;
    unfold SFltb, SFcompare; rewrite Z.compare_refl;
    change (Pos.compare_cont Eq m m) with (Pos.compare m m);
    now rewrite Pos.compare_refl.
Qed.

Lemma isOrdered_finite (s : bool) (m : positive) (e : Z) :
  isOrdered (S754_finite s m e) = true ->
  canonical_mantissa prec emax m e = true /\ -1074 <= e.
Proof.
  unfold isOrdered, valid_binary, bounded. rewrite andb_true_r.
  intros H. apply andb_true_iff in H. destruct H as [Hc _].
  split; [exact Hc|]. apply (canonical_bounds m e Hc).
Qed.

(** The sign of a difference. *)
Lemma SFsub_sign (x y : spec_float) :
  isOrdered x = true -> isOrdered y = true ->
  SFltb (S754_zero false) (SFsub prec emax x y) = SFltb y x /\
  SFltb (SFsub prec emax x y) (S754_zero false) = SFltb x y.
Proof.
  intros Hx Hy.
  destruct x as [sx|sx| |sx mx ex], y as [sy|sy| |sy my ey];
    try discriminate;
    try (destruct sx, sy; split; reflexivity);
    try (destruct sx; split; reflexivity);
    try (destruct sy; split; reflexivity).
  destruct (isOrdered_finite _ _ _ Hx) as [Hcx Hex].
  destruct (isOrdered_finite _ _ _ Hy) as [Hcy Hey].
  unfold SFsub.
  destruct (binary_normalize_sign
              (cond_Zopp sx (Z.pos (fst (shl_align mx ex (Z.min ex ey))))
               - cond_Zopp sy (Z.pos (fst (shl_align my ey (Z.min ex ey)))))
              (Z.min ex ey)) as [-> ->]; [lia|].
  unfold SFltb.
  rewrite (SFcompare_aligned sx sy mx my ex ey Hcx Hcy).
  rewrite (SFcompare_aligned sy sx my mx ey ex Hcy Hcx).
  rewrite (Z.min_comm ey ex).
  set (X := cond_Zopp sx _). set (Y := cond_Zopp sy _).
  split.
  - destruct (Z.compare_spec Y X); destruct (Z.ltb_spec 0 (X - Y)); lia || reflexivity.
  - destruct (Z.compare_spec X Y); destruct (Z.ltb_spec (X - Y) 0); lia || reflexivity.
Qed.

(** A sum of numbers that are not negative is not below its first
    operand, and is such a number. *)
Lemma SFadd_nonnegative (x y : spec_float) :
  isOrdered x = true -> isOrdered y = true ->
  SFltb x (S754_zero false) = false -> SFltb y (S754_zero false) = false ->
  isOrdered (SFadd prec emax x y) = true /\
  SFltb (SFadd prec emax x y) (S754_zero false) = false /\
  SFltb (SFadd prec emax x y) x = false.
Proof.
  intros Hx Hy Hxn Hyn.
  destruct x as [sx|sx| |sx mx ex], y as [sy|sy| |sy my ey];
    try discriminate;
    try (destruct sx; try discriminate); try (destruct sy; try discriminate);
    try (cbn [SFadd]; repeat split;
         solve [assumption | reflexivity | apply SFltb_irrefl]).
  - (* finite + finite *)
    destruct (isOrdered_finite _ _ _ Hx) as [Hcx Hex].
    destruct (isOrdered_finite _ _ _ Hy) as [Hcy Hey].
    unfold SFadd, cond_Zopp.
    destruct (shl_align_fst mx ex (Z.min ex ey)) as [HX _]; [lia|].
    destruct (shl_align_fst my ey (Z.min ex ey)) as [HY _]; [lia|].
    set (X := fst (shl_align mx ex (Z.min ex ey))) in *.
    set (Y := fst (shl_align my ey (Z.min ex ey))) in *.
    change (Z.pos X + Z.pos Y) with (Z.pos (X + Y)). cbn [binary_normalize].
    destruct (binary_round_positive false (X + Y) (Z.min ex ey))
      as (m' & e' & -> & Hc & Hlow); [lia|].
    specialize (Hlow mx ex Hcx). unfold atLeast in Hlow.
    destruct Hlow as [Hlow|[Hlow1 Hlow2]]; [split; lia| |].
    + destruct (Z.leb_spec e' (emax - prec)) as [Hfin|Hinf].
      * split; [|split; [reflexivity|]].
        -- unfold isOrdered, valid_binary, bounded. rewrite Hc.
           apply Z.leb_le in Hfin. rewrite Hfin. reflexivity.
        -- unfold SFltb, SFcompare.
           destruct (Z.compare_spec e' ex); reflexivity || lia.
      * repeat split.
    + destruct (Z.leb_spec e' (emax - prec)) as [Hfin|Hinf].
      * split; [|split; [reflexivity|]].
        -- unfold isOrdered, valid_binary, bounded. rewrite Hc.
           apply Z.leb_le in Hfin. rewrite Hfin. reflexivity.
        -- unfold SFltb, SFcompare. subst e'. rewrite Z.compare_refl.
           change (Pos.compare_cont Eq m' mx) with (Pos.compare m' mx).
           destruct (Pos.compare_spec m' mx); reflexivity || lia.
      * repeat split.
Qed.
End FloatArith.

(** ** The rank engine on doubles *)

Module RankEngine.
Import Binary64 MathUtils ArrayFacts RankFacts OrderedRankFacts.
Import Float FloatOrder FloatArith.

Lemma isOrdered_not_NaN (x : spec_float) : isOrdered x = true -> isNaN x = false.
Proof.
  unfold isOrdered. intros H. apply andb_true_iff in H.
  now apply negb_true_iff.
Qed.

(** The doubles that are not NaN obey the laws of [NumberOrder]. *)
Lemma IEEE_order : NumberOrder IEEE (fun x => isOrdered x = true).
Proof.
  constructor.
  - reflexivity.
  - intros x y Hx Hy. apply SFltb_asym; now apply isOrdered_not_NaN.
  - intros x y z Hx Hy Hz. apply SFltb_negtrans; now apply isOrdered_not_NaN.
  - intros x y Hx Hy. apply (SFsub_sign x y Hx Hy).
  - intros x y Hx Hy. apply (SFsub_sign x y Hx Hy).
  - intros x y Hx Hy. apply (SFadd_nonnegative x y Hx Hy).
Qed.

Lemma SFleb_key (x y : spec_float) :
  isNaN x = false -> isNaN y = false ->
  (SFleb x y = true <-> ~ keyLt (key y) (key x)).
Proof.
  destruct x as [sx|sx| |sx mx ex], y as [sy|sy| |sy my ey];
    try discriminate; intros _ _;
    try destruct sx; try destruct sy;
    unfold SFleb, SFcompare, key, keyLt;
    try (split; [lia|reflexivity]);
    try (split; [discriminate|lia]);
    change (Pos.compare_cont Eq mx my) with (Pos.compare mx my);
    destruct (Z.compare_spec ex ey); destruct (Pos.compare_spec mx my);
    simpl; split; intros; try discriminate; try reflexivity; lia.
Qed.

Lemma SFleb_of_not_ltb (x y : spec_float) :
  isNaN x = false -> isNaN y = false -> SFltb y x = false -> SFleb x y = true.
Proof.
  intros Hx Hy H. apply (SFleb_key x y Hx Hy). intros K.
  apply (SFltb_key y x Hy Hx) in K. congruence.
Qed.

Lemma isNonNegative_spec (x : spec_float) :
  isNonNegative x = true <->
  isOrdered x = true /\ @ltb IEEE x (@zero IEEE) = false.
Proof.
  unfold isNonNegative. rewrite andb_true_iff, negb_true_iff. reflexivity.
Qed.

(** C2. The rank of a token of the vocabulary is its zero-based position
    when the pairs are ordered by probability, larger first, equal
    probabilities keeping the order of their indices: the sorted pairs are
    the pairs in that order, the pair of the target stands at the rank, and
    the rank is the number of pairs ahead of the target.  For the
    probabilities 0.1, 0.5, 0.3, 0.1 the token 2 has rank 1 and the
    cumulative probability at rank 1 is 0.5. *)
Theorem token_rank_is_descending_position :
  (forall (d : list spec_float) (t : Z),
      Forall (fun x => isOrdered x = true) d ->
      0 <= t < Z.of_nat (length d) ->
      Permutation (sortedPairs d) (probabilityPairs d) /\
      StronglySorted (fun a b => precedes a b = true) (sortedPairs d) /\
      nth_error (sortedPairs d) (Z.to_nat (calculateTokenRank d t))
      = Some (pairAt d (Z.to_nat t)) /\
      calculateTokenRank d t = positionInDescendingOrder d (Z.to_nat t)) /\
  calculateTokenRank Scenario.distribution 2 = 1 /\
  calculateCumulativeProbability Scenario.distribution 1 = Scenario.half.
Proof.
  split.
  - intros d t Hd Ht. split; [apply sort_Permutation|]. split.
    { exact (sortedPairs_sorted (N := IEEE) (fun x => isOrdered x = true)
                                (O := IEEE_order) d Hd). }
    split.
    + destruct (rank_is_prefix_length (N := IEEE) d t Ht)
        as (l1 & l2 & HL & _ & Hk).
      rewrite Hk, Nat2Z.id, HL, nth_error_app2, Nat.sub_diag by lia.
      reflexivity.
    + exact (rank_is_position (N := IEEE) (fun x => isOrdered x = true)
                              (O := IEEE_order) d t Hd Ht).
  - split; vm_compute; reflexivity.
Qed.

Lemma token_rank_is_descending_position_witness :
  calculateTokenRank Scenario.distribution 3
  = positionInDescendingOrder Scenario.distribution 3.
Proof.
  apply (proj1 token_rank_is_descending_position Scenario.distribution 3).
  - repeat constructor.
  - simpl. lia.
Defined.

(** C8. For probabilities that are not negative the cumulative probability
    at rank 0 is 0, and it does not decrease when the rank grows. *)
Theorem cumulative_probability_is_monotone (d : list spec_float) :
  Forall (fun x => isNonNegative x = true) d ->
  calculateCumulativeProbability d 0 = S754_zero false /\
  forall r1 r2 : Z,
    r1 <= r2 ->
    SFleb (calculateCumulativeProbability d r1)
          (calculateCumulativeProbability d r2) = true.
Proof.
  intros Hd. split; [apply (cumulative_at_zero (N := IEEE) d)|].
  intros r1 r2 Hr.
  assert (Hd' : Forall (fun x : @number IEEE =>
                          isOrdered x = true /\ ltb x zero = false) d).
  { eapply Forall_impl; [|exact Hd]. intros x Hx. now apply isNonNegative_spec. }
  assert (Hsum : forall r, isNaN (calculateCumulativeProbability d r) = false).
  { intros r. apply isOrdered_not_NaN.
    unfold calculateCumulativeProbability.
    apply (sumBelowRank_grows (N := IEEE) (fun x => isOrdered x = true)
                              (O := IEEE_order)).
    - apply (nonnegative_zero (N := IEEE) (fun x => isOrdered x = true)
                              (O := IEEE_order)).
    - apply Forall_forall. intros x Hx. apply sort_In in Hx.
      apply (In_probabilityPairs (N := IEEE)) in Hx.
      destruct Hx as [Hlt ->]. simpl.
      rewrite Forall_forall in Hd'. apply Hd', nth_In, Hlt. }
  apply SFleb_of_not_ltb; try apply Hsum.
  exact (cumulative_monotone (N := IEEE) (fun x => isOrdered x = true)
                             (O := IEEE_order)
                             d r1 r2 Hd' Hr).
Qed.

Lemma cumulative_probability_is_monotone_witness :
  calculateCumulativeProbability Scenario.distribution 0 = S754_zero false /\
  SFleb (calculateCumulativeProbability Scenario.distribution 1)
        (calculateCumulativeProbability Scenario.distribution 3) = true.
Proof.
  destruct (cumulative_probability_is_monotone Scenario.distribution) as [H0 H].
  - repeat constructor.
  - split; [exact H0|]. apply H. lia.
Defined.

(** C10. For a token of the vocabulary the rank is an index of the
    distribution: the search finds the token among the sorted pairs, which
    hold every index once, so the value for a missing token is not
    returned. *)
Theorem rank_is_within_the_distribution {N : Number} (d : list number) (t : Z) :
  0 <= t < Z.of_nat (length d) ->
  0 <= calculateTokenRank d t < Z.of_nat (length d) /\
  findIndex (fun pr => Z.of_nat (index pr) =? t) (sortedPairs d) <> -1 /\
  Permutation (map index (sortedPairs d)) (seq 0 (length d)).
Proof.
  intros Ht. split; [now apply rank_in_range|]. split.
  - destruct (rank_is_prefix_length d t Ht) as (l1 & l2 & HL & Hl1 & Hk).
    unfold findIndex.
    destruct (findIndexFrom_present
                (fun pr => Z.of_nat (index pr) =? t) (sortedPairs d) 0)
      as (l1' & x & l2' & _ & _ & _ & ->).
    + exists (pairAt d (Z.to_nat t)). split.
      * rewrite HL. apply in_elt.
      * simpl. apply Z.eqb_eq. lia.
    + lia.
  - unfold sortedPairs.
    eapply perm_trans; [apply Permutation_map, sort_Permutation|].
    rewrite probabilityPairs_seq, map_map. simpl. rewrite map_id.
    apply Permutation_refl.
Qed.

Lemma rank_is_within_the_distribution_witness :
  0 <= calculateTokenRank Scenario.distribution 2 < 4.
Proof.
  apply (rank_is_within_the_distribution (N := IEEE) Scenario.distribution 2).
  simpl. lia.
Defined.

(** C3, as the code has it.  For a target id outside the distribution the
    rank is the length of the distribution; nothing fails. *)
Theorem rank_outside_the_distribution {N : Number} (d : list number) (t : Z) :
  t < 0 \/ Z.of_nat (length d) <= t ->
  calculateTokenRank d t = Z.of_nat (length d).
Proof. apply rank_out_of_range. Qed.

Lemma rank_outside_the_distribution_witness :
  calculateTokenRank Scenario.distribution 9 = 4.
Proof.
  apply (rank_outside_the_distribution (N := IEEE) Scenario.distribution 9).
  right. simpl. lia.
Defined.

(** C3 as stated fails: with two probabilities the target ids 7 and -1 get
    the rank 2, an ordinary number. *)
Lemma out_of_range_target_gets_a_rank :
  calculateTokenRank [Scenario.half; Scenario.half] 7 = 2 /\
  calculateTokenRank [Scenario.half; Scenario.half] (-1) = 2.
Proof. split; vm_compute; reflexivity. Qed.

End RankEngine.
(** ** The scan of the token sequence *)

Module Scan.
Import Analysis.

Section WithCollaborators.
Context {N : Number} {World : Type}.
Variable tokenizerService : TokenizerService World.
Variable modelService : ModelService World.

Local Abbreviation processInitial := (processInitial tokenizerService).
Local Abbreviation processPredicted := (processPredicted tokenizerService modelService).
Local Abbreviation analyzeTokenSequence := (analyzeTokenSequence tokenizerService modelService).
Local Abbreviation scanBefore := (scanBefore tokenizerService modelService).

Lemma decodeToken_loaded (tk : TokenizerObject World) (tokenId : Z) (w : World) :
  tokenizer tokenizerService = Some tk ->
  exists text w', decodeToken tokenizerService tokenId w = (Normal text, w').
Proof.
  intros Htk. unfold decodeToken. rewrite Htk.
  destruct (decodeAttempt tk tokenId w) as [[text|e] w']; eauto.
Qed.

Lemma decodeToken_unloaded (tokenId : Z) (w : World) :
  tokenizer tokenizerService = None ->
  decodeToken tokenizerService tokenId w = (Throw notLoaded, w).
Proof. intros Htk. unfold decodeToken. now rewrite Htk. Qed.

(** *** One step of each loop, with a loaded tokenizer *)

Lemma processInitial_loaded (tk : TokenizerObject World) (tokenIds : list Z)
      (i : nat) (results : list AnalysisResult) (m : Machine World) :
  tokenizer tokenizerService = Some tk ->
  exists r m' events,
    processInitial tokenIds i results m = (Normal (results ++ [r]), m', events) /\
    initialStep tokenIds i r events.
Proof.
  intros Htk. unfold Analysis.processInitial, bind, call, notifyProgress, ret.
  destruct (decodeToken_loaded tk (nth i tokenIds 0) (world m) Htk)
    as (token & w' & ->).
  cbn. eexists _, _, _. split; [reflexivity|].
  exists token. split; reflexivity.
Qed.

Lemma processPredicted_loaded (tk : TokenizerObject World) (tokenIds : list Z)
      (i : nat) (results : list AnalysisResult) (m : Machine World) :
  tokenizer tokenizerService = Some tk ->
  exists r m' events,
    processPredicted tokenIds i results m = (Normal (results ++ [r]), m', events) /\
    predictedStep tokenIds i r events.
Proof.
  intros Htk.
  unfold Analysis.processPredicted, bind, tryCatch, call, notifyProgress, ret.
  destruct (decodeToken_loaded tk (nth i tokenIds 0) (world m) Htk)
    as (token & w' & ->).
  cbn [world withWorld].
  destruct (runInference modelService (firstn i tokenIds) w')
    as [[inferenceResult|e] w''] eqn:E; cbn.
  - eexists _, _, _. split; [reflexivity|].
    exists token, (Normal inferenceResult). split; reflexivity.
  - eexists _, _, _. split; [reflexivity|].
    exists token, (Throw e). split; reflexivity.
Qed.

Lemma processInitial_unloaded (tokenIds : list Z) (i : nat)
      (results : list AnalysisResult) (m : Machine World) :
  tokenizer tokenizerService = None ->
  processInitial tokenIds i results m
  = (Throw notLoaded, m,
     [Decoded (nth i tokenIds 0) (Throw notLoaded)]).
Proof.
  intros Htk. unfold Analysis.processInitial, bind, call.
  rewrite (decodeToken_unloaded _ _ Htk). destruct m; reflexivity.
Qed.

Lemma processPredicted_unloaded (tokenIds : list Z) (i : nat)
      (results : list AnalysisResult) (m : Machine World) :
  tokenizer tokenizerService = None ->
  processPredicted tokenIds i results m
  = (Throw notLoaded, m,
     [Decoded (nth i tokenIds 0) (Throw notLoaded)]).
Proof.
  intros Htk. unfold Analysis.processPredicted, bind, call.
  rewrite (decodeToken_unloaded _ _ Htk). destruct m; reflexivity.
Qed.

(** *** The loops *)

Section Loop.
Variable body : nat -> list AnalysisResult -> M World (list AnalysisResult).

Lemma forEach_app (l1 l2 : list nat) (results : list AnalysisResult)
      (m : Machine World) :
  forEach (l1 ++ l2) body results m
  = bind (forEach l1 body results) (forEach l2 body) m.
Proof.
  revert results m. induction l1 as [|i l1 IH]; intros results m; simpl.
  - unfold bind, ret. destruct (forEach l2 body results m) as [[r m'] ev].
    reflexivity.
  - unfold bind. destruct (body i results m) as [[[a|e] m'] ev];
      [|reflexivity].
    specialize (IH a m'). unfold bind in IH. rewrite IH.
    destruct (forEach l1 body a m') as [[[a'|e'] m''] ev'];
      [|reflexivity].
    destruct (forEach l2 body a' m'') as [[r m3] ev3].
    now rewrite app_assoc.
Qed.

(** A loop whose body always pushes one result pushes one result for
    every position, and makes the calls of the bodies in order. *)
Lemma forEach_run (step : nat -> AnalysisResult -> list Event -> Prop)
      (l : list nat) :
  (forall i results m, In i l ->
     exists r m' events,
       body i results m = (Normal (results ++ [r]), m', events) /\
       step i r events) ->
  forall results m,
  exists steps m',
    forEach l body results m
    = (Normal (results ++ map fst steps), m', concat (map snd steps)) /\
    Forall2 (fun i s => step i (fst s) (snd s)) l steps.
Proof.
  induction l as [|i l IH]; intros Hbody results m; simpl.
  - exists [], m. simpl. rewrite app_nil_r. split; [reflexivity|constructor].
  - destruct (Hbody i results m (or_introl eq_refl)) as (r & m' & ev & E & Hs).
    destruct (IH (fun j rs m0 Hj => Hbody j rs m0 (or_intror Hj))
                 (results ++ [r]) m') as (steps & m'' & E' & HF).
    exists ((r, ev) :: steps), m''. unfold bind. rewrite E, E'. simpl.
    rewrite <- app_assoc. split; [reflexivity|].
    constructor; assumption.
Qed.
End Loop.

(** *** The scan as a whole *)

Lemma bind_assoc {A B C : Type} (c : M World A) (f : A -> M World B)
      (g : B -> M World C) (m : Machine World) :
  bind (bind c f) g m = bind c (fun a => bind (f a) g) m.
Proof.
  unfold bind. destruct (c m) as [[[a|e] m'] ev]; [|reflexivity].
  destruct (f a m') as [[[b|e] m''] ev']; [|reflexivity].
  destruct (g b m'') as [[r m3] ev3]. now rewrite app_assoc.
Qed.

Lemma bind_ext {A B : Type} (c : M World A) (f g : A -> M World B)
      (m : Machine World) :
  (forall a m0, f a m0 = g a m0) -> bind c f m = bind c g m.
Proof.
  intros H. unfold bind. destruct (c m) as [[[a|e] m'] ev]; [|reflexivity].
  now rewrite H.
Qed.

(** The scan up to a position, with a loaded tokenizer. *)
Lemma scanBefore_loaded (tk : TokenizerObject World) (tokenIds : list Z)
      (stop : nat) (m : Machine World) :
  tokenizer tokenizerService = Some tk ->
  let prefix := Nat.min INITIAL_TOKENS_COUNT (length tokenIds) in
  exists inits preds m',
    scanBefore tokenIds stop m
    = (Normal (resultsOf inits ++ resultsOf preds), m',
       eventsOf inits ++ eventsOf preds) /\
    initialSteps tokenIds (seq 0 (Nat.min prefix stop)) inits /\
    predictedSteps tokenIds (seq prefix (stop - prefix)) preds.
Proof.
  intros Htk prefix. unfold Analysis.scanBefore. fold prefix.
  destruct (forEach_run (processInitial tokenIds) (initialStep tokenIds)
                        (seq 0 (Nat.min prefix stop))
                        (fun i rs m0 _ => processInitial_loaded
                                            tk tokenIds i rs m0 Htk)
                        [] m) as (inits & m1 & E1 & H1).
  destruct (forEach_run (processPredicted tokenIds) (predictedStep tokenIds)
                        (seq prefix (stop - prefix))
                        (fun i rs m0 _ => processPredicted_loaded tk
                                            tokenIds i rs m0 Htk)
                        (resultsOf inits) m1) as (preds & m2 & E2 & H2).
  exists inits, preds, m2. unfold bind. rewrite E1. simpl.
  unfold resultsOf in E2. rewrite E2. auto.
Qed.

Lemma analyzeTokenSequence_scanBefore (tokenIds : list Z) (m : Machine World) :
  analyzeTokenSequence tokenIds m = scanBefore tokenIds (length tokenIds) m.
Proof.
  unfold Analysis.analyzeTokenSequence, Analysis.scanBefore.
  rewrite (Nat.min_l (Nat.min _ _) (length tokenIds)) by lia. reflexivity.
Qed.

(** The scan reaches a position at or after the prefix, then goes on
    with that position and those after it. *)
Lemma analyzeTokenSequence_split (tokenIds : list Z) (i : nat)
      (m : Machine World) :
  (INITIAL_TOKENS_COUNT <= i < length tokenIds)%nat ->
  analyzeTokenSequence tokenIds m
  = bind (scanBefore tokenIds i)
         (forEach (i :: seq (S i) (length tokenIds - S i))
                  (processPredicted tokenIds)) m.
Proof.
  intros Hi. unfold Analysis.analyzeTokenSequence, Analysis.scanBefore.
  set (prefix := Nat.min INITIAL_TOKENS_COUNT (length tokenIds)).
  assert (Hp : prefix = INITIAL_TOKENS_COUNT) by (unfold prefix; lia).
  rewrite (Nat.min_l prefix i) by lia.
  rewrite bind_assoc. apply bind_ext. intros results m0.
  replace (length tokenIds - prefix)%nat
    with ((i - prefix) + S (length tokenIds - S i))%nat by lia.
  rewrite seq_app, forEach_app.
  replace (prefix + (i - prefix))%nat with i by lia. reflexivity.
Qed.

(** *** The calls of the steps *)

Lemma initialSteps_no_inference (tokenIds : list Z) (l : list nat)
      (steps : list Step) (context : list Z)
      (outcome : Completion InferenceResult) :
  initialSteps tokenIds l steps ->
  ~ In (Inferred context outcome) (eventsOf steps).
Proof.
  unfold initialSteps, eventsOf. induction 1 as [|i s l steps Hs _ IH]; simpl.
  - auto.
  - rewrite in_app_iff. intros [Hin|Hin]; [|now apply IH].
    destruct Hs as (token & _ & Hev). rewrite Hev in Hin.
    destruct Hin as [Hin|[Hin|[]]]; discriminate.
Qed.

Lemma predictedSteps_inference (tokenIds : list Z) (l : list nat)
      (steps : list Step) (context : list Z)
      (outcome : Completion InferenceResult) :
  predictedSteps tokenIds l steps ->
  In (Inferred context outcome) (eventsOf steps) ->
  exists j, In j l /\ context = firstn j tokenIds.
Proof.
  unfold predictedSteps, eventsOf. induction 1 as [|i s l steps Hs _ IH]; simpl.
  - intros [].
  - rewrite in_app_iff. intros [Hin|Hin].
    + destruct Hs as (token & o & Hev & _). rewrite Hev in Hin.
      destruct Hin as [Hin|[Hin|[Hin|[]]]]; try discriminate.
      injection Hin as <- _. exists i. auto.
    + destruct (IH Hin) as (j & Hj & ->). exists j. auto.
Qed.

Lemma predictedSteps_cover (tokenIds : list Z) (l : list nat)
      (steps : list Step) (j : nat) :
  predictedSteps tokenIds l steps -> In j l ->
  exists outcome, In (Inferred (firstn j tokenIds) outcome) (eventsOf steps).
Proof.
  unfold predictedSteps, eventsOf. induction 1 as [|i s l steps Hs _ IH]; simpl.
  - intros [].
  - intros [<-|Hj].
    + destruct Hs as (token & o & Hev & _). exists o. rewrite Hev.
      apply in_or_app. left. simpl. auto.
    + destruct (IH Hj) as [o Ho]. exists o. apply in_or_app. now right.
Qed.

Lemma initialSteps_positions (tokenIds : list Z) (l : list nat) (steps : list Step) :
  initialSteps tokenIds l steps -> map position (resultsOf steps) = l.
Proof.
  unfold initialSteps, resultsOf. induction 1 as [|i s l steps Hs _ IH]; simpl.
  - reflexivity.
  - destruct Hs as (token & -> & _). simpl. now rewrite IH.
Qed.

Lemma predictedSteps_positions (tokenIds : list Z) (l : list nat) (steps : list Step) :
  predictedSteps tokenIds l steps -> map position (resultsOf steps) = l.
Proof.
  unfold predictedSteps, resultsOf. induction 1 as [|i s l steps Hs _ IH]; simpl.
  - reflexivity.
  - destruct Hs as (token & o & _ & ->). destruct o; simpl; now rewrite IH.
Qed.

Lemma firstn_injective (tokenIds : list Z) (i j : nat) :
  (i <= length tokenIds)%nat -> (j <= length tokenIds)%nat ->
  firstn i tokenIds = firstn j tokenIds -> i = j.
Proof.
  intros Hi Hj H. apply (f_equal (@length Z)) in H.
  rewrite !length_firstn in H. lia.
Qed.

(** Without a tokenizer the scan never reaches the predictor. *)
Lemma forEach_unloaded_no_inference
      (body : nat -> list AnalysisResult -> M World (list AnalysisResult))
      (tokenIds : list Z) (l : list nat) (results : list AnalysisResult)
      (m : Machine World) (context : list Z)
      (outcome : Completion InferenceResult) :
  (forall i rs m0, body i rs m0
                   = (Throw notLoaded, m0,
                      [Decoded (nth i tokenIds 0) (Throw notLoaded)])) ->
  ~ In (Inferred context outcome) (snd (forEach l body results m)).
Proof.
  intros Hbody. destruct l as [|i l]; simpl; [auto|].
  unfold bind. rewrite Hbody. simpl. intros [H|[]]. discriminate.
Qed.

(** *** The claims on the scan *)

Lemma analyzeTokenSequence_unloaded_no_inference (tokenIds : list Z)
      (m : Machine World) (context : list Z)
      (outcome : Completion InferenceResult) :
  tokenizer tokenizerService = None ->
  ~ In (Inferred context outcome) (snd (analyzeTokenSequence tokenIds m)).
Proof.
  intros Htk. unfold Analysis.analyzeTokenSequence, bind.
  set (prefix := Nat.min INITIAL_TOKENS_COUNT (length tokenIds)).
  pose proof (forEach_unloaded_no_inference
                (processInitial tokenIds) tokenIds (seq 0 prefix) [] m
                context outcome
                (fun i rs m0 => processInitial_unloaded tokenIds i rs m0 Htk)) as H1.
  destruct (forEach (seq 0 prefix) (processInitial tokenIds) [] m)
    as [[[results|e] m1] ev1]; [|exact H1].
  pose proof (forEach_unloaded_no_inference
                (processPredicted tokenIds) tokenIds
                (seq prefix (length tokenIds - prefix)) results m1
                context outcome
                (fun i rs m0 => processPredicted_unloaded tokenIds
                                  i rs m0 Htk)) as H2.
  destruct (forEach (seq prefix (length tokenIds - prefix))
                    (processPredicted tokenIds) results m1)
    as [[r m2] ev2].
  simpl in *. rewrite in_app_iff. tauto.
Qed.

Lemma Forall2_In_right {A B : Type} (P : A -> B -> Prop) (l : list A)
      (l' : list B) (y : B) :
  Forall2 P l l' -> In y l' -> exists x, In x l /\ P x y.
Proof.
  induction 1 as [|x y' l l' Hxy _ IH]; simpl.
  - intros [].
  - intros [<-|Hy]; [eauto|]. destruct (IH Hy) as (x' & Hx' & Hp). eauto.
Qed.

Lemma resultsOf_length (tokenIds : list Z) (l : list nat) (steps : list Step)
      (P : nat -> Step -> Prop) :
  Forall2 P l steps -> length (resultsOf steps) = length l.
Proof.
  intros H. unfold resultsOf. rewrite length_map.
  symmetry. eapply Forall2_length, H.
Qed.

(** C1. When the call of the predictor for a position at or after the
    prefix throws, the scan returns: its results are those it had
    when it reached the position, then the result of the position with
    [isInitial] false and no rank, probability or cumulative
    probability, then those of the later positions, one result for
    every position in order; and the predictor is called for every
    later position. *)
Theorem predictor_failure_is_recovered (tokenIds : list Z) (i : nat)
        (e : Thrown) (m m' : Machine World)
        (outcome : Completion (list AnalysisResult)) (events : list Event) :
  analyzeTokenSequence tokenIds m = (outcome, m', events) ->
  (INITIAL_TOKENS_COUNT <= i < length tokenIds)%nat ->
  In (Inferred (firstn i tokenIds) (Throw e)) events ->
  exists before token later,
    fst (fst (scanBefore tokenIds i m)) = Normal before /\
    length before = i /\
    outcome = Normal (before ++ unpredicted i token (nth i tokenIds 0) false
                             :: later) /\
    map position (before ++ unpredicted i token (nth i tokenIds 0) false
                         :: later) = seq 0 (length tokenIds) /\
    forall j, (i < j < length tokenIds)%nat ->
              exists o, In (Inferred (firstn j tokenIds) o) events.
Proof.
  intros Hrun Hi Hin.
  destruct (tokenizer tokenizerService) as [tk|] eqn:Htk.
  2:{ exfalso.
      apply (analyzeTokenSequence_unloaded_no_inference
               tokenIds m (firstn i tokenIds) (Throw e) Htk).
      rewrite Hrun. exact Hin. }
  rewrite (analyzeTokenSequence_split tokenIds i m Hi) in Hrun.
  destruct (scanBefore_loaded tk tokenIds i m Htk)
    as (inits & preds & m0 & E0 & HI & HP).
  set (prefix := Nat.min INITIAL_TOKENS_COUNT (length tokenIds)) in *.
  assert (Hp : prefix = INITIAL_TOKENS_COUNT) by (unfold prefix; lia).
  rewrite (Nat.min_l prefix i) in HI by lia.
  destruct (forEach_run (processPredicted tokenIds) (predictedStep tokenIds)
              (i :: seq (S i) (length tokenIds - S i))
              (fun j rs m0 _ => processPredicted_loaded tk
                                  tokenIds j rs m0 Htk)
              (resultsOf inits ++ resultsOf preds) m0)
    as (steps & m2 & E2 & HF).
  unfold bind in Hrun. rewrite E0, E2 in Hrun.
  injection Hrun as <- <- <-.
  inversion HF as [|? s ? rest Hs Hrest]; subst.
  (* the failed call is the call of position [i] *)
  assert (Hfail : exists token,
             fst s = unpredicted i token (nth i tokenIds 0) false).
  { rewrite !in_app_iff in Hin. destruct Hin as [[Hin|Hin]|Hin].
    - exfalso. eapply initialSteps_no_inference; eauto.
    - exfalso. destruct (predictedSteps_inference _ _ _ _ _ HP Hin) as (j & Hj & Hc).
      apply in_seq in Hj. apply firstn_injective in Hc; lia.
    - simpl in Hin. rewrite in_app_iff in Hin. destruct Hin as [Hin|Hin].
      + destruct Hs as (token & o & Hev & Hr). rewrite Hev in Hin.
        destruct Hin as [Hin|[Hin|[Hin|[]]]]; try discriminate.
        injection Hin as ->. exists token. exact Hr.
      + exfalso.
        destruct (predictedSteps_inference _ _ _ _ _ Hrest Hin) as (j & Hj & Hc).
        apply in_seq in Hj. apply firstn_injective in Hc; lia. }
  destruct Hfail as [token Hfst].
  exists (resultsOf inits ++ resultsOf preds), token, (resultsOf rest).
  assert (Hlen : length (resultsOf inits ++ resultsOf preds) = i).
  { rewrite length_app.
    rewrite (resultsOf_length tokenIds _ _ _ HI),
            (resultsOf_length tokenIds _ _ _ HP), !length_seq. lia. }
  split; [now rewrite E0|]. split; [exact Hlen|].
  split; [simpl; now rewrite Hfst|]. split.
  - rewrite !map_app. simpl.
    rewrite (initialSteps_positions _ _ _ HI), (predictedSteps_positions _ _ _ HP).
    rewrite (predictedSteps_positions _ _ _ Hrest).
    replace (length tokenIds) with
      (prefix + ((i - prefix) + S (length tokenIds - S i)))%nat at 2 by lia.
    rewrite !seq_app. simpl.
    replace (prefix + (i - prefix))%nat with i by lia.
    now rewrite <- app_assoc.
  - intros j Hj.
    destruct (predictedSteps_cover tokenIds _ _ j Hrest) as [o Ho].
    { apply in_seq. lia. }
    exists o. rewrite !in_app_iff. right. simpl. rewrite in_app_iff. now right.
Qed.

(** C5. With a tokenizer loaded the scan returns one result for every
    position, in order; those of the first [min 3 n] positions have
    [isInitial] true and no rank, probability or cumulative
    probability, the others have [isInitial] false. *)
Theorem prefix_is_initial (tk : TokenizerObject World) (tokenIds : list Z)
        (m : Machine World) :
  tokenizer tokenizerService = Some tk ->
  let prefix := Nat.min INITIAL_TOKENS_COUNT (length tokenIds) in
  exists results m' events,
    analyzeTokenSequence tokenIds m = (Normal results, m', events) /\
    length results = length tokenIds /\
    map position results = seq 0 (length tokenIds) /\
    forall j r, nth_error results j = Some r ->
      ((j < prefix)%nat ->
         isInitial r = true /\ rank r = None /\ probability r = None /\
         cumulativeProbability r = None) /\
      ((prefix <= j)%nat -> isInitial r = false).
Proof.
  intros Htk prefix.
  destruct (scanBefore_loaded tk tokenIds (length tokenIds) m Htk)
    as (inits & preds & m0 & E0 & HI & HP).
  fold prefix in HI, HP. rewrite (Nat.min_l prefix) in HI by (unfold prefix; lia).
  rewrite <- analyzeTokenSequence_scanBefore in E0.
  exists (resultsOf inits ++ resultsOf preds), m0, (eventsOf inits ++ eventsOf preds).
  split; [exact E0|].
  assert (Hli : length (resultsOf inits) = prefix)
    by (rewrite (resultsOf_length tokenIds _ _ _ HI); apply length_seq).
  assert (Hlp : length (resultsOf preds) = (length tokenIds - prefix)%nat)
    by (rewrite (resultsOf_length tokenIds _ _ _ HP); apply length_seq).
  split; [rewrite length_app; unfold prefix in *; lia|]. split.
  - rewrite map_app, (initialSteps_positions _ _ _ HI),
            (predictedSteps_positions _ _ _ HP).
    replace (length tokenIds) with (prefix + (length tokenIds - prefix))%nat at 2
      by (unfold prefix; lia).
    now rewrite seq_app.
  - intros j r Hj. split; intros Hlt.
    + rewrite nth_error_app1 in Hj by lia.
      apply nth_error_In in Hj. unfold resultsOf in Hj.
      apply in_map_iff in Hj. destruct Hj as (s & <- & Hs).
      destruct (Forall2_In_right _ _ _ _ HI Hs) as (k & _ & token & -> & _).
      repeat split.
    + rewrite nth_error_app2 in Hj by lia.
      apply nth_error_In in Hj. unfold resultsOf in Hj.
      apply in_map_iff in Hj. destruct Hj as (s & <- & Hs).
      destruct (Forall2_In_right _ _ _ _ HP Hs) as (k & _ & token & o & _ & ->).
      destruct o; reflexivity.
Qed.
End WithCollaborators.
End Scan.

(** ** The analysis engine *)

Module Engine.
Import Analysis Scan.
Local Open Scope string_scope.
Local Open Scope Z_scope.

Section WithCollaborators.
Context {N : Number} {World : Type}.
Variable tokenizerService : TokenizerService World.
Variable modelService : ModelService World.

Local Abbreviation processInitial := (processInitial tokenizerService).
Local Abbreviation processPredicted := (processPredicted tokenizerService modelService).
Local Abbreviation analyzeTokenSequence := (analyzeTokenSequence tokenizerService modelService).
Local Abbreviation analyzeText := (analyzeText tokenizerService modelService).

Lemma processInitial_notEncoded (tokenIds : list Z) (i : nat)
      (results : list AnalysisResult) (m : Machine World) :
  Forall notEncoded (snd (processInitial tokenIds i results m)).
Proof.
  unfold Analysis.processInitial, bind, call, notifyProgress, ret.
  destruct (decodeToken tokenizerService (nth i tokenIds 0) (world m))
    as [[token|e] w']; simpl; repeat constructor.
Qed.

Lemma processPredicted_notEncoded (tokenIds : list Z) (i : nat)
      (results : list AnalysisResult) (m : Machine World) :
  Forall notEncoded (snd (processPredicted tokenIds i results m)).
Proof.
  unfold Analysis.processPredicted, bind, tryCatch, call, notifyProgress, ret.
  destruct (decodeToken tokenizerService (nth i tokenIds 0) (world m))
    as [[token|e] w']; simpl; [|repeat constructor].
  destruct (runInference modelService (firstn i tokenIds) w')
    as [[inferenceResult|e] w'']; simpl; repeat constructor.
Qed.

Lemma forEach_notEncoded
      (body : nat -> list AnalysisResult -> M World (list AnalysisResult))
      (l : list nat) :
  (forall i results m, Forall notEncoded (snd (body i results m))) ->
  forall results m, Forall notEncoded (snd (forEach l body results m)).
Proof.
  intros Hbody. induction l as [|i l IH]; intros results m; simpl.
  - constructor.
  - unfold bind. specialize (Hbody i results m).
    destruct (body i results m) as [[[a|e] m'] ev]; simpl in *; [|exact Hbody].
    specialize (IH a m').
    destruct (forEach l body a m') as [[r m''] ev']. simpl in *.
    apply Forall_app. split; assumption.
Qed.

Lemma analyzeTokenSequence_notEncoded (tokenIds : list Z) (m : Machine World) :
  Forall notEncoded (snd (analyzeTokenSequence tokenIds m)).
Proof.
  unfold Analysis.analyzeTokenSequence, bind.
  set (prefix := Nat.min INITIAL_TOKENS_COUNT (length tokenIds)).
  pose proof (forEach_notEncoded (processInitial tokenIds) (seq 0 prefix)
                (processInitial_notEncoded tokenIds) [] m) as H1.
  destruct (forEach (seq 0 prefix) (processInitial tokenIds) [] m)
    as [[[results|e] m1] ev1]; simpl in *; [|exact H1].
  pose proof (forEach_notEncoded (processPredicted tokenIds)
                (seq prefix (length tokenIds - prefix))
                (processPredicted_notEncoded tokenIds) results m1) as H2.
  destruct (forEach (seq prefix (length tokenIds - prefix))
                    (processPredicted tokenIds) results m1) as [[r m2] ev2].
  simpl in *. apply Forall_app. split; assumption.
Qed.

(** *** The flag of a run in progress *)

Lemma call_sameEngine {A : Type} (c : External World A)
      (event : Completion A -> Event) (m : Machine World) :
  sameEngine m (snd (fst (call c event m))).
Proof. unfold call. destruct (c (world m)) as [r w]. split; reflexivity. Qed.

Lemma processInitial_sameEngine (tokenIds : list Z) (i : nat)
      (results : list AnalysisResult) (m : Machine World) :
  sameEngine m (snd (fst (processInitial tokenIds i results m))).
Proof.
  unfold Analysis.processInitial, bind, call, notifyProgress, ret.
  destruct (decodeToken tokenizerService (nth i tokenIds 0) (world m))
    as [[token|e] w']; split; reflexivity.
Qed.

Lemma processPredicted_sameEngine (tokenIds : list Z) (i : nat)
      (results : list AnalysisResult) (m : Machine World) :
  sameEngine m (snd (fst (processPredicted tokenIds i results m))).
Proof.
  unfold Analysis.processPredicted, bind, tryCatch, call, notifyProgress, ret.
  destruct (decodeToken tokenizerService (nth i tokenIds 0) (world m))
    as [[token|e] w']; [|split; reflexivity]. cbn [world withWorld].
  destruct (runInference modelService (firstn i tokenIds) w')
    as [[inferenceResult|e] w'']; split; reflexivity.
Qed.

Lemma sameEngine_trans (m1 m2 m3 : Machine World) :
  sameEngine m1 m2 -> sameEngine m2 m3 -> sameEngine m1 m3.
Proof. unfold sameEngine. intros [H1 H2] [H3 H4]. split; congruence. Qed.

Lemma forEach_sameEngine
      (body : nat -> list AnalysisResult -> M World (list AnalysisResult))
      (l : list nat) :
  (forall i results m, sameEngine m (snd (fst (body i results m)))) ->
  forall results m, sameEngine m (snd (fst (forEach l body results m))).
Proof.
  intros Hbody. induction l as [|i l IH]; intros results m; simpl.
  - split; reflexivity.
  - unfold bind. specialize (Hbody i results m).
    destruct (body i results m) as [[[a|e] m'] ev]; simpl in *; [|exact Hbody].
    specialize (IH a m').
    destruct (forEach l body a m') as [[r m''] ev']. simpl in *.
    eapply sameEngine_trans; eassumption.
Qed.

(** The scan does not touch the flag or the subscribers: while a run is in
    progress the flag that [analyzeText] has set stays set. *)
Lemma analyzeTokenSequence_sameEngine (tokenIds : list Z) (m : Machine World) :
  sameEngine m (snd (fst (analyzeTokenSequence tokenIds m))).
Proof.
  unfold Analysis.analyzeTokenSequence, bind.
  set (prefix := Nat.min INITIAL_TOKENS_COUNT (length tokenIds)).
  pose proof (forEach_sameEngine (processInitial tokenIds) (seq 0 prefix)
                (processInitial_sameEngine tokenIds) [] m) as H1.
  destruct (forEach (seq 0 prefix) (processInitial tokenIds) [] m)
    as [[[results|e] m1] ev1]; simpl in *; [|exact H1].
  pose proof (forEach_sameEngine (processPredicted tokenIds)
                (seq prefix (length tokenIds - prefix))
                (processPredicted_sameEngine tokenIds) results m1) as H2.
  destruct (forEach (seq prefix (length tokenIds - prefix))
                    (processPredicted tokenIds) results m1) as [[r m2] ev2].
  simpl in *. eapply sameEngine_trans; eassumption.
Qed.

Lemma analyzeTextBody_sameEngine (text : string) (config : option AnalysisConfig)
      (m : Machine World) :
  sameEngine m (snd (fst (analyzeTextBody tokenizerService modelService
                                          text config m))).
Proof.
  unfold analyzeTextBody.
  destruct (String.eqb (TextUtils.preprocessText text) ""); [split; reflexivity|].
  unfold bind, notifyProgress, call, throw, ret. cbn [world withWorld].
  match goal with
  | |- context [encode tokenizerService ?t ?w] =>
      destruct (encode tokenizerService t w) as [[tokenIds|e] w']
  end; [|split; reflexivity].
  destruct (Z.of_nat (length tokenIds) =? 0); [split; reflexivity|].
  match goal with
  | |- context [Analysis.analyzeTokenSequence ?ts ?ms ?ids ?m0] =>
      pose proof (analyzeTokenSequence_sameEngine ids m0) as Hscan;
      destruct (Analysis.analyzeTokenSequence ts ms ids m0)
        as [[[results|e] m1] ev1]
  end; exact Hscan.
Qed.

(** *** The claims on [analyzeText], [decodeToken] and the statistics *)

(** C6. When the preprocessed text is empty, or the tokenizer returns no
    token for it, [analyzeText] throws; it has decoded no token and called
    the predictor for no position, and an idle engine reports the empty
    input in its error and is idle again. *)
Theorem empty_input_is_rejected (text : string) (config : option AnalysisConfig)
        (onProgress : option (ProgressCallback World)) (m m' : Machine World)
        (outcome : Completion (list AnalysisResult)) (events : list Event) :
  analyzeText text config onProgress m = (outcome, m', events) ->
  TextUtils.preprocessText text = ""
  \/ In (Encoded (TextUtils.preprocessText text) (Normal [])) events ->
  (exists error, outcome = Throw error) /\
  (forall event, In event events -> ~ tokenEvent event) /\
  (isAnalyzing m = false ->
   (outcome = Throw (JSError "Analysis failed: Text is empty after preprocessing")
    \/ outcome = Throw (JSError "Analysis failed: No tokens generated from text"))
   /\ isAnalyzing m' = false /\ progressCallbacks m' = []).
Proof.
  unfold Analysis.analyzeText. intros Hrun Hempty.
  destruct (isAnalyzing m) eqn:Hbusy.
  { injection Hrun as <- <- <-. split; [eauto|]. split; [intros ? []|discriminate]. }
  unfold tryFinally, tryCatch, analyzeTextBody in Hrun.
  destruct (String.eqb (TextUtils.preprocessText text) "") eqn:Hclean.
  { simpl in Hrun. injection Hrun as <- <- <-.
    split; [eauto|]. split; [intros ? []|]. intros _. auto. }
  apply String.eqb_neq in Hclean.
  destruct Hempty as [Hempty|Hempty]; [contradiction|].
  unfold bind, notifyProgress, call, throw in Hrun. cbn [world withWorld] in Hrun.
  match type of Hrun with
  | context [encode tokenizerService ?t ?w] =>
      destruct (encode tokenizerService t w) as [[tokenIds|e] w'] eqn:Henc
  end.
  - destruct tokenIds as [|t tokenIds].
    + simpl in Hrun. injection Hrun as <- <- <-.
      split; [eauto|]. split.
      * intros event [<-|[<-|[]]]; simpl; tauto.
      * intros _. auto.
    + exfalso. cbn [length Z.of_nat Z.eqb] in Hrun.
      match type of Hrun with
      | context [Analysis.analyzeTokenSequence ?ts ?ms ?ids ?m0] =>
          pose proof (analyzeTokenSequence_notEncoded ids m0) as Hscan;
          destruct (Analysis.analyzeTokenSequence ts ms ids m0)
            as [[[results|e] m1] ev1]
      end; simpl in Hrun, Hscan; injection Hrun as <- <- <-;
        simpl in Hempty;
        repeat (destruct Hempty as [Hempty|Hempty]; [discriminate|]);
        rewrite ?in_app_iff in Hempty;
        repeat match goal with
               | H : _ \/ _ |- _ => destruct H as [H|H]
               | H : In _ (_ :: _) |- _ => destruct H as [H|H]
               | H : In _ [] |- _ => destruct H
               | H : Notified _ = Encoded _ _ |- _ => discriminate H
               end;
        try (rewrite Forall_forall in Hscan; apply (Hscan _ Hempty)).
  - exfalso. simpl in Hrun. injection Hrun as <- <- <-. simpl in Hempty.
    destruct Hempty as [H|[H|[]]]; discriminate.
Qed.

(** C7. While the flag of a run in progress is set, a call of [analyzeText]
    throws at once and leaves the engine as it found it, so that whatever
    the run in progress does next, it does as if the call had not been
    made. *)
Theorem concurrent_call_is_rejected (text : string) (config : option AnalysisConfig)
        (onProgress : option (ProgressCallback World)) (m : Machine World) :
  isAnalyzing m = true ->
  analyzeText text config onProgress m = (Throw alreadyInProgress, m, []) /\
  forall (A : Type) (rest : M World A),
    rest (snd (fst (analyzeText text config onProgress m))) = rest m.
Proof.
  intros Hbusy. unfold Analysis.analyzeText. rewrite Hbusy. split; reflexivity.
Qed.

(** C9, as the code has it.  With a tokenizer loaded, [decodeToken] returns
    a text and does not throw: the text of the tokenizer, or the id in
    angle brackets when the tokenizer throws. *)
Theorem decodeToken_with_a_tokenizer (tk : TokenizerObject World) (tokenId : Z)
        (w : World) :
  tokenizer tokenizerService = Some tk ->
  exists text w',
    decodeToken tokenizerService tokenId w = (Normal text, w') /\
    (forall t, fst (decodeAttempt tk tokenId w) = Normal t -> text = t) /\
    (forall error, fst (decodeAttempt tk tokenId w) = Throw error ->
                   text = "<" ++ decimal tokenId ++ ">").
Proof.
  intros Htk. unfold decodeToken. rewrite Htk.
  destruct (decodeAttempt tk tokenId w) as [[t|e] w']; simpl.
  - exists t, w'. split; [reflexivity|]. split; [congruence|discriminate].
  - exists (placeholder tokenId), w'. split; [reflexivity|].
    split; [discriminate|reflexivity].
Qed.

(** C4, as the code has it.  When no result is predicted, [totalTokens] is
    the number of results and every other field of the statistics is 0. *)
Theorem statistics_without_predictions (results : list AnalysisResult) :
  (forall r, In r results -> isInitial r = true \/ rank r = None) ->
  calculateStatistics results
  = {| totalTokens := Z.of_nat (length results);
       predictedTokens := 0;
       top1Accuracy := zero; top5Accuracy := zero; top10Accuracy := zero;
       averageRank := zero; averageCumulativeProbability := zero;
       medianRank := zero; medianCumulativeProbability := zero |}.
Proof.
  intros Hnone. unfold calculateStatistics.
  assert (E : filter isPredicted results = []).
  { induction results as [|r results IH]; simpl; [reflexivity|].
    assert (Hr : isPredicted r = false).
    { unfold isPredicted. destruct (Hnone r (or_introl eq_refl)) as [-> | ->];
        [reflexivity|apply andb_false_r]. }
    rewrite Hr. apply IH. intros r' Hr'. apply Hnone. now right. }
  rewrite E. reflexivity.
Qed.

End WithCollaborators.
End Engine.

(** ** The scenarios *)

Module Scenarios.
Import Binary64 Analysis Scenario.
Local Open Scope Z_scope.

Local Abbreviation scan :=
  (analyzeTokenSequence (N := IEEE) (loaded plainTokenizer) flakyModel fiveTokens idle).

(** The predictor throws for position 4 of five tokens. *)
Lemma predictor_failure_is_recovered_witness :
  exists before token later,
    fst (fst (scanBefore (N := IEEE) (loaded plainTokenizer) flakyModel
                         fiveTokens 4 idle)) = Normal before /\
    length before = 4%nat /\
    fst (fst scan)
    = Normal (before ++ unpredicted 4 token (nth 4 fiveTokens 0) false :: later) /\
    map position (before ++ unpredicted 4 token (nth 4 fiveTokens 0) false :: later)
    = seq 0 (length fiveTokens) /\
    forall j, (4 < j < length fiveTokens)%nat ->
              exists o, In (Inferred (firstn j fiveTokens) o) (snd scan).
Proof.
  apply (Scan.predictor_failure_is_recovered
           (loaded plainTokenizer) flakyModel fiveTokens 4
           (JSError "Inference failed: backend unavailable"%string)
           idle (snd (fst scan)) (fst (fst scan)) (snd scan)).
  - reflexivity.
  - unfold INITIAL_TOKENS_COUNT. simpl. lia.
  - apply (nth_error_In _ 10). reflexivity.
Defined.

(** Five tokens and a loaded tokenizer. *)
Lemma prefix_is_initial_witness :
  exists results m' events,
    scan = (Normal results, m', events) /\
    length results = length fiveTokens /\
    map position results = seq 0 (length fiveTokens) /\
    forall j r, nth_error results j = Some r ->
      ((j < Nat.min INITIAL_TOKENS_COUNT (length fiveTokens))%nat ->
         isInitial r = true /\ rank r = None /\ probability r = None /\
         cumulativeProbability r = None) /\
      ((Nat.min INITIAL_TOKENS_COUNT (length fiveTokens) <= j)%nat ->
         isInitial r = false).
Proof.
  apply (Scan.prefix_is_initial
           (loaded plainTokenizer) flakyModel plainTokenizer fiveTokens idle).
  reflexivity.
Defined.

Local Abbreviation emptyRun :=
  (analyzeText (N := IEEE) (loaded failingTokenizer) flakyModel
               "a  b "%string None None idle).

(** A tokenizer that returns no token for the text. *)
Lemma empty_input_is_rejected_witness :
  (exists error, fst (fst emptyRun) = Throw error) /\
  (forall event, In event (snd emptyRun) -> ~ tokenEvent event) /\
  (isAnalyzing idle = false ->
   (fst (fst emptyRun)
    = Throw (JSError "Analysis failed: Text is empty after preprocessing"%string)
    \/ fst (fst emptyRun)
       = Throw (JSError "Analysis failed: No tokens generated from text"%string))
   /\ isAnalyzing (snd (fst emptyRun)) = false
   /\ progressCallbacks (snd (fst emptyRun)) = []).
Proof.
  apply (Engine.empty_input_is_rejected
           (loaded failingTokenizer) flakyModel "a  b "%string None None
           idle (snd (fst emptyRun)) (fst (fst emptyRun)) (snd emptyRun)).
  - reflexivity.
  - right. apply (nth_error_In _ 1). reflexivity.
Defined.

(** A call while the flag is set. *)
Lemma concurrent_call_is_rejected_witness :
  analyzeText (N := IEEE) (loaded plainTokenizer) flakyModel "a b"%string None None busy
  = (Throw alreadyInProgress, busy, []) /\
  forall (A : Type) (rest : M unit A),
    rest (snd (fst (analyzeText (N := IEEE) (loaded plainTokenizer) flakyModel
                                "a b"%string None None busy)))
    = rest busy.
Proof.
  apply (Engine.concurrent_call_is_rejected
           (loaded plainTokenizer) flakyModel "a b"%string None None busy).
  reflexivity.
Defined.

(** A tokenizer whose [decode] throws: the id 42 is shown as [<42>]. *)
Lemma decodeToken_with_a_tokenizer_witness :
  exists text w',
    decodeToken (loaded failingTokenizer) 42 tt = (Normal text, w') /\
    (forall t, fst (decodeAttempt failingTokenizer 42 tt) = Normal t -> text = t) /\
    (forall error, fst (decodeAttempt failingTokenizer 42 tt) = Throw error ->
                   text = ("<" ++ decimal 42 ++ ">")%string).
Proof.
  apply (Engine.decodeToken_with_a_tokenizer
           (loaded failingTokenizer) failingTokenizer 42 tt).
  reflexivity.
Defined.

Lemma decodeToken_placeholder :
  decodeToken (loaded failingTokenizer) 42 tt = (Normal "<42>"%string, tt).
Proof. reflexivity. Qed.

(** C9 as stated fails: without a tokenizer [decodeToken] throws. *)
Lemma decodeToken_without_a_tokenizer_throws :
  decodeToken unloaded 42 tt
  = (Throw (JSError "Tokenizer not loaded. Call loadTokenizer() first."%string), tt).
Proof. reflexivity. Qed.

(** One initial result and one result whose prediction failed. *)
Lemma statistics_without_predictions_witness :
  calculateStatistics (N := IEEE)
    [unpredicted 0 "tok"%string 1 true; unpredicted 1 "tok"%string 2 false]
  = {| totalTokens := 2;
       predictedTokens := 0;
       top1Accuracy := zero; top5Accuracy := zero; top10Accuracy := zero;
       averageRank := zero; averageCumulativeProbability := zero;
       medianRank := zero; medianCumulativeProbability := zero |}.
Proof.
  apply (Engine.statistics_without_predictions (N := IEEE)
           [unpredicted 0 "tok"%string 1 true; unpredicted 1 "tok"%string 2 false]).
  intros r [<-|[<-|[]]]; simpl; auto.
Defined.

(** C4 as stated fails: for one initial result the predicted set is empty
    and [totalTokens] is 1. *)
Lemma statistics_count_the_initial_tokens :
  filter isPredicted oneInitial = [] /\
  totalTokens (calculateStatistics oneInitial) = 1.
Proof. split; reflexivity. Qed.

End Scenarios.
(** ** The order of the ranks *)

Module RankOrder.
Import Binary64 MathUtils ArrayFacts RankFacts OrderedRankFacts.

Section AnyNumber.
Context {N : Number}.

Lemma sortedPairs_indices (d : list number) :
  Permutation (map index (sortedPairs d)) (seq 0 (length d)).
Proof.
  unfold sortedPairs.
  apply perm_trans with (map index (probabilityPairs d)).
  - apply Permutation_map. apply sort_Permutation.
  - rewrite probabilityPairs_seq, map_map. simpl.
    rewrite map_id. apply Permutation_refl.
Qed.

Lemma sortedPairs_NoDup (d : list number) : NoDup (sortedPairs d).
Proof.
  apply (NoDup_map_inv index).
  apply (Permutation_NoDup (l := seq 0 (length d))).
  - apply Permutation_sym. apply sortedPairs_indices.
  - apply seq_NoDup.
Qed.

(** The pair of an index stands at the position that is its rank. *)
Lemma rank_position (d : list number) (t : Z) :
  0 <= t < Z.of_nat (length d) ->
  nth_error (sortedPairs d) (Z.to_nat (calculateTokenRank d t))
  = Some (pairAt d (Z.to_nat t)).
Proof.
  intros Ht.
  destruct (rank_is_prefix_length d t Ht) as (l1 & l2 & Hs & _ & Hr).
  rewrite Hr, Nat2Z.id, Hs.
  rewrite nth_error_app2 by lia.
  rewrite Nat.sub_diag. reflexivity.
Qed.

(** Conversely, the index of the pair at a position has that position
    for its rank. *)
Lemma position_rank (d : list number) (k : nat) (x : ProbPair) :
  nth_error (sortedPairs d) k = Some x ->
  (index x < length d)%nat /\ x = pairAt d (index x) /\
  calculateTokenRank d (Z.of_nat (index x)) = Z.of_nat k.
Proof.
  intros Hk.
  assert (Hin : In x (sortedPairs d)) by (apply (nth_error_In _ k); exact Hk).
  apply In_sortedPairs in Hin. destruct Hin as [Hlt Hx].
  split; [exact Hlt | split; [exact Hx |]].
  assert (Ht : 0 <= Z.of_nat (index x) < Z.of_nat (length d)) by lia.
  pose proof (rank_position d _ Ht) as Hp.
  pose proof (rank_in_range d _ Ht) as Hr.
  rewrite Nat2Z.id, <- Hx in Hp.
  assert (Z.to_nat (calculateTokenRank d (Z.of_nat (index x))) = k).
  { apply (proj1 (NoDup_nth_error (sortedPairs d)) (sortedPairs_NoDup d)).
    - rewrite sortedPairs_length. lia.
    - rewrite Hp, Hk. reflexivity. }
  lia.
Qed.

(** X1. Two different tokens of a distribution never share a rank, and
    every position below the length of the distribution is the rank of a
    token. *)
Theorem ranks_are_distinct (d : list number) :
  (forall a b : Z,
      0 <= a < Z.of_nat (length d) -> 0 <= b < Z.of_nat (length d) ->
      calculateTokenRank d a = calculateTokenRank d b -> a = b) /\
  (forall k : Z,
      0 <= k < Z.of_nat (length d) ->
      exists t, 0 <= t < Z.of_nat (length d) /\ calculateTokenRank d t = k).
Proof.
  split.
  - intros a b Ha Hb Heq.
    pose proof (rank_position d a Ha) as Pa.
    pose proof (rank_position d b Hb) as Pb.
    rewrite Heq, Pb in Pa.
    injection Pa as _ Hab. lia.
  - intros k Hk.
    destruct (nth_error (sortedPairs d) (Z.to_nat k)) as [x|] eqn:Hx.
    + destruct (position_rank d _ x Hx) as (Hlt & _ & Hr).
      exists (Z.of_nat (index x)). split; [lia |].
      rewrite Hr. lia.
    + apply nth_error_None in Hx. rewrite sortedPairs_length in Hx. lia.
Qed.

Lemma sumBelowRank_prefix (l : list ProbPair) (i r : Z) (acc : number) :
  sumBelowRank l i r acc
  = fold_left (fun s x => add s (prob x)) (firstn (Z.to_nat (r - i)) l) acc.
Proof.
  revert i acc. induction l as [|x l IH]; intros i acc; simpl.
  - rewrite firstn_nil. reflexivity.
  - destruct (i <? r) eqn:Hi.
    + apply Z.ltb_lt in Hi. rewrite IH.
      replace (Z.to_nat (r - i)) with (S (Z.to_nat (r - (i + 1)))) by lia.
      reflexivity.
    + apply Z.ltb_ge in Hi.
      replace (Z.to_nat (r - i)) with 0%nat by lia. reflexivity.
Qed.

Lemma cumulative_prefix (d : list number) (r : Z) :
  calculateCumulativeProbability d r
  = fold_left (fun s x => add s (prob x)) (firstn (Z.to_nat r) (sortedPairs d)) zero.
Proof.
  unfold calculateCumulativeProbability. fold (sortedPairs d).
  rewrite sumBelowRank_prefix. rewrite Z.sub_0_r. reflexivity.
Qed.

(** X2. The cumulative probability up to the rank of a token leaves the
    token's own probability out: one position further it is larger by
    exactly that probability. *)
Theorem cumulative_step (d : list number) (t : Z) :
  0 <= t < Z.of_nat (length d) ->
  calculateCumulativeProbability d (calculateTokenRank d t + 1)
  = add (calculateCumulativeProbability d (calculateTokenRank d t))
        (nth (Z.to_nat t) d zero).
Proof.
  intros Ht.
  destruct (rank_is_prefix_length d t Ht) as (l1 & l2 & Hs & _ & Hr).
  rewrite !cumulative_prefix, Hr, Hs.
  replace (Z.to_nat (Z.of_nat (length l1) + 1)) with (length l1 + 1)%nat by lia.
  rewrite Nat2Z.id.
  assert (H1 : firstn (length l1) (l1 ++ pairAt d (Z.to_nat t) :: l2) = l1).
  { rewrite firstn_app, Nat.sub_diag, firstn_all. simpl. apply app_nil_r. }
  assert (H2 : firstn (length l1 + 1) (l1 ++ pairAt d (Z.to_nat t) :: l2)
               = l1 ++ [pairAt d (Z.to_nat t)]).
  { rewrite firstn_app, firstn_all2 by lia.
    replace (length l1 + 1 - length l1)%nat with 1%nat by lia. reflexivity. }
  rewrite H1, H2.
  simpl. rewrite fold_left_app. reflexivity.
Qed.

(** X3. The cumulative probability saturates: a rank of zero or less
    gives 0, and every rank from the length of the distribution on, the
    rank of an absent token among them, gives the sum over the whole
    distribution. *)
Theorem cumulative_saturates (d : list number) (r : Z) :
  (r <= 0 -> calculateCumulativeProbability d r = zero) /\
  (Z.of_nat (length d) <= r ->
   calculateCumulativeProbability d r
   = calculateCumulativeProbability d (Z.of_nat (length d))) /\
  (forall t, t < 0 \/ Z.of_nat (length d) <= t ->
     calculateCumulativeProbability d (calculateTokenRank d t)
     = calculateCumulativeProbability d (Z.of_nat (length d))).
Proof.
  split; [| split].
  - intros Hr. rewrite cumulative_prefix.
    replace (Z.to_nat r) with 0%nat by lia. reflexivity.
  - intros Hr. rewrite !cumulative_prefix.
    rewrite !firstn_all2 by (rewrite sortedPairs_length; lia). reflexivity.
  - intros t Ht. rewrite (rank_out_of_range d t Ht). reflexivity.
Qed.

End AnyNumber.

Section Ordered.
Context {N : Number}.
Variable comparable : number -> Prop.
Context {O : NumberOrder N comparable}.

Lemma comparable_nth (d : list number) (k : nat) :
  Forall comparable d -> comparable (nth k d zero).
Proof.
  intros Hd. destruct (Nat.lt_ge_cases k (length d)) as [Hk|Hk].
  - apply (proj1 (Forall_forall _ _) Hd). apply nth_In. exact Hk.
  - rewrite nth_overflow by exact Hk.
    apply (proj1 (nonnegative_zero comparable)).
Qed.

(** An index that is ahead of another one has the smaller rank. *)
Lemma rank_before (d : list number) (a b : Z) :
  Forall comparable d ->
  0 <= a < Z.of_nat (length d) -> 0 <= b < Z.of_nat (length d) ->
  aheadOf d (Z.to_nat b) (Z.to_nat a) = true ->
  calculateTokenRank d a < calculateTokenRank d b.
Proof.
  intros Hd Ha Hb Hab.
  rewrite aheadOf_precedes in Hab.
  destruct (rank_is_prefix_length d a Ha) as (l1 & l2 & Hs & _ & Hr).
  pose proof (rank_position d b Hb) as Pb.
  pose proof (rank_in_range d b Hb) as Rb.
  pose proof (sortedPairs_sorted comparable d Hd) as Hsorted.
  rewrite Hs in Hsorted. apply StronglySorted_middle in Hsorted.
  destruct Hsorted as [Hbefore _].
  assert (Ca : comparable (prob (pairAt d (Z.to_nat a))))
    by (simpl; apply comparable_nth; exact Hd).
  assert (Cb : comparable (prob (pairAt d (Z.to_nat b))))
    by (simpl; apply comparable_nth; exact Hd).
  destruct (Z_lt_le_dec (calculateTokenRank d a) (calculateTokenRank d b))
    as [Hlt|Hle]; [exact Hlt|].
  exfalso. rewrite Hr in Hle. rewrite Hs in Pb.
  destruct (Z.eq_dec (calculateTokenRank d b) (Z.of_nat (length l1)))
    as [Heq|Hne].
  - rewrite Heq, Nat2Z.id, nth_error_app2, Nat.sub_diag in Pb by lia.
    simpl in Pb.
    assert (E : pairAt d (Z.to_nat a) = pairAt d (Z.to_nat b)) by congruence.
    rewrite E in Hab.
    rewrite (precedes_irrefl comparable _ Cb) in Hab. discriminate.
  - rewrite nth_error_app1 in Pb by lia.
    apply nth_error_In in Pb.
    rewrite Forall_forall in Hbefore. apply Hbefore in Pb.
    rewrite (precedes_asym comparable _ _ Cb Ca Pb) in Hab. discriminate.
Qed.

Lemma filter_nil_iff {A : Type} (f : A -> bool) (l : list A) :
  filter f l = [] <-> forall x, In x l -> f x = false.
Proof.
  induction l as [|y l IH]; simpl.
  - split; [intros _ x []| reflexivity].
  - destruct (f y) eqn:Hy.
    + split; [discriminate|]. intros H.
      rewrite (H y (or_introl eq_refl)) in Hy. discriminate.
    + rewrite IH. split.
      * intros H x [<-|Hx]; [exact Hy | apply H, Hx].
      * intros H x Hx. apply H. right. exact Hx.
Qed.

(** The rank is 0 exactly when no index is ahead of the target. *)
Lemma rank_zero (d : list number) (t : Z) :
  Forall comparable d ->
  0 <= t < Z.of_nat (length d) ->
  (calculateTokenRank d t = 0 <->
   forall j, (j < length d)%nat -> aheadOf d (Z.to_nat t) j = false).
Proof.
  intros Hd Ht.
  rewrite (rank_is_position comparable d t Hd Ht).
  unfold positionInDescendingOrder.
  split.
  - intros H j Hj.
    assert (Hnil : filter (aheadOf d (Z.to_nat t)) (seq 0 (length d)) = []).
    { apply length_zero_iff_nil. lia. }
    apply (proj1 (filter_nil_iff _ _) Hnil). apply in_seq. lia.
  - intros H.
    assert (Hnil : filter (aheadOf d (Z.to_nat t)) (seq 0 (length d)) = []).
    { apply filter_nil_iff. intros j Hj. apply H. apply in_seq in Hj. lia. }
    rewrite Hnil. reflexivity.
Qed.

End Ordered.

(** X4. Among the tokens of a distribution without NaN, a token with a
    larger probability has the smaller rank, and of two tokens with equal
    probabilities the one with the smaller id has the smaller rank. *)
Theorem rank_follows_probability (d : list spec_float) (a b : Z) :
  Forall (fun x => isOrdered x = true) d ->
  0 <= a < Z.of_nat (length d) -> 0 <= b < Z.of_nat (length d) ->
  SFltb (nth (Z.to_nat b) d (S754_zero false))
        (nth (Z.to_nat a) d (S754_zero false)) = true
  \/ (SFltb (nth (Z.to_nat a) d (S754_zero false))
            (nth (Z.to_nat b) d (S754_zero false)) = false /\ a < b) ->
  calculateTokenRank d a < calculateTokenRank d b.
Proof.
  intros Hd Ha Hb H.
  apply (rank_before (N := IEEE) (fun x => isOrdered x = true)
                     (O := RankEngine.IEEE_order) d a b Hd Ha Hb).
  unfold aheadOf. simpl.
  destruct H as [H|[H Hlt]].
  - rewrite H. reflexivity.
  - rewrite H. simpl.
    replace (Z.to_nat a <? Z.to_nat b)%nat with true.
    + apply orb_true_r.
    + symmetry. apply Nat.ltb_lt. lia.
Qed.

Lemma rank_follows_probability_witness :
  calculateTokenRank Scenario.distribution 2
  < calculateTokenRank Scenario.distribution 3
  /\ calculateTokenRank Scenario.distribution 0
     < calculateTokenRank Scenario.distribution 3.
Proof.
  split.
  - apply (rank_follows_probability Scenario.distribution 2 3).
    + repeat constructor.
    + simpl. lia.
    + simpl. lia.
    + left. vm_compute. reflexivity.
  - apply (rank_follows_probability Scenario.distribution 0 3).
    + repeat constructor.
    + simpl. lia.
    + simpl. lia.
    + right. split; [vm_compute; reflexivity | lia].
Defined.

(** X5. In a distribution without NaN the token of rank 0 is the first
    one of maximal probability: no token is more probable, and every token
    with a smaller id is less probable; and only that token has rank 0. *)
Theorem rank_zero_is_the_first_maximum (d : list spec_float) (t : Z) :
  Forall (fun x => isOrdered x = true) d ->
  0 <= t < Z.of_nat (length d) ->
  (calculateTokenRank d t = 0 <->
   forall j, 0 <= j < Z.of_nat (length d) ->
     SFltb (nth (Z.to_nat t) d (S754_zero false))
           (nth (Z.to_nat j) d (S754_zero false)) = false /\
     (j < t -> SFltb (nth (Z.to_nat j) d (S754_zero false))
                     (nth (Z.to_nat t) d (S754_zero false)) = true)).
Proof.
  intros Hd Ht.
  rewrite (rank_zero (N := IEEE) (fun x => isOrdered x = true)
                     (O := RankEngine.IEEE_order) d t Hd Ht).
  unfold aheadOf. simpl.
  split.
  - intros H j Hj.
    specialize (H (Z.to_nat j)).
    assert (Hj' : (Z.to_nat j < length d)%nat) by lia.
    apply H in Hj'. apply orb_false_iff in Hj'. destruct Hj' as [H1 H2].
    split; [exact H1|].
    intros Hlt.
    apply andb_false_iff in H2. destruct H2 as [H2|H2].
    + apply negb_false_iff in H2. exact H2.
    + apply Nat.ltb_ge in H2. lia.
  - intros H j Hj.
    destruct (H (Z.of_nat j)) as [H1 H2]; [lia|].
    rewrite Nat2Z.id in H1, H2.
    rewrite H1. simpl.
    destruct (j <? Z.to_nat t)%nat eqn:Hlt.
    + apply Nat.ltb_lt in Hlt. rewrite H2 by lia. reflexivity.
    + apply andb_false_r.
Qed.

Lemma rank_zero_is_the_first_maximum_witness :
  calculateTokenRank Scenario.distribution 1 = 0.
Proof.
  apply (proj2 (rank_zero_is_the_first_maximum Scenario.distribution 1
                  ltac:(repeat constructor) ltac:(simpl; lia))).
  intros j Hj. simpl in Hj.
  assert (Hcases : j = 0 \/ j = 1 \/ j = 2 \/ j = 3) by lia.
  destruct Hcases as [-> | [-> | [-> | ->]]];
    (split; [vm_compute; reflexivity | intros Hlt]);
    solve [lia | vm_compute; reflexivity].
Defined.

Lemma ranks_are_distinct_witness :
  exists t, 0 <= t < 4 /\ calculateTokenRank Scenario.distribution t = 2.
Proof.
  apply (proj2 (ranks_are_distinct (N := IEEE) Scenario.distribution) 2).
  simpl. lia.
Defined.

Lemma cumulative_step_witness :
  calculateCumulativeProbability Scenario.distribution
    (calculateTokenRank Scenario.distribution 2 + 1)
  = SFadd prec emax
      (calculateCumulativeProbability Scenario.distribution
         (calculateTokenRank Scenario.distribution 2))
      (ofScaled 10066330 (-25)).
Proof.
  apply (cumulative_step (N := IEEE) Scenario.distribution 2).
  simpl. lia.
Defined.

Lemma cumulative_saturates_witness :
  calculateCumulativeProbability Scenario.distribution (-2) = S754_zero false /\
  calculateCumulativeProbability Scenario.distribution 9
  = calculateCumulativeProbability Scenario.distribution 4.
Proof.
  destruct (cumulative_saturates (N := IEEE) Scenario.distribution (-2))
    as [H _].
  destruct (cumulative_saturates (N := IEEE) Scenario.distribution 9)
    as (_ & H' & _).
  split; [apply H; lia | apply H'; simpl; lia].
Defined.

End RankOrder.

(** ** Clamping *)

Module ClampingFacts.
Import Binary64 Clamping FloatOrder.

Lemma SFeqb_key (x y : spec_float) :
  isNaN x = false -> isNaN y = false ->
  (SFeqb x y = true <-> key x = key y).
Proof.
  destruct x as [sx|sx| |sx mx ex], y as [sy|sy| |sy my ey];
    try discriminate; intros _ _;
    try destruct sx; try destruct sy;
    unfold SFeqb, SFcompare, key;
    try (split; [discriminate | intros Hk; discriminate Hk]);
    try (split; reflexivity);
    change (Pos.compare_cont Eq mx my) with (Pos.compare mx my);
    destruct (Z.compare_spec ex ey); destruct (Pos.compare_spec mx my);
    simpl; split; intros Hk; try discriminate Hk; try reflexivity;
    try (injection Hk; intros; lia);
    subst; reflexivity.
Qed.

Lemma mathMin_key (x y : spec_float) :
  isNaN x = false -> isNaN y = false ->
  isNaN (mathMin x y) = false /\
  key (mathMin x y) = key (if SFltb y x then y else x).
Proof.
  destruct x as [sx|sx| |sx mx ex], y as [sy|sy| |sy my ey];
    try discriminate; intros _ _; unfold mathMin;
    try (split; reflexivity);
    match goal with
    | |- context [SFltb ?a ?b] => destruct (SFltb a b)
    end; split; reflexivity.
Qed.

Lemma mathMax_key (x y : spec_float) :
  isNaN x = false -> isNaN y = false ->
  isNaN (mathMax x y) = false /\
  key (mathMax x y) = key (if SFltb x y then y else x).
Proof.
  destruct x as [sx|sx| |sx mx ex], y as [sy|sy| |sy my ey];
    try discriminate; intros _ _; unfold mathMax;
    try (split; reflexivity);
    match goal with
    | |- context [SFltb ?a ?b] => destruct (SFltb a b)
    end; split; reflexivity.
Qed.

Lemma SFltb_key_false (x y : spec_float) :
  isNaN x = false -> isNaN y = false ->
  (SFltb x y = false <-> ~ keyLt (key x) (key y)).
Proof.
  intros Hx Hy. pose proof (SFltb_key x y Hx Hy) as H.
  destruct (SFltb x y); split; intros H'; try reflexivity; try discriminate.
  - exfalso. apply H'. apply H. reflexivity.
  - intros K. apply H in K. discriminate.
Qed.

(** X30. [clamp] hands a NaN on; for bounds and a value that are not NaN,
    with the lower bound not above the upper one, the result lies between
    the bounds, and it equals the value when the value lies between
    them. *)
Theorem clamp_stays_within (value lo hi : spec_float) :
  (isNaN value = true -> isNaN (clamp value lo hi) = true) /\
  (isNaN value = false -> isNaN lo = false -> isNaN hi = false ->
   SFleb lo hi = true ->
   SFleb lo (clamp value lo hi) = true /\
   SFleb (clamp value lo hi) hi = true /\
   (SFleb lo value = true -> SFleb value hi = true ->
    SFeqb (clamp value lo hi) value = true)).
Proof.
  split.
  - destruct value; try discriminate. intros _.
    unfold clamp. destruct hi, lo; reflexivity.
  - intros Hv Hlo Hhi Hbounds. unfold clamp.
    destruct (mathMin_key hi value Hhi Hv) as [Hu Ku].
    destruct (mathMax_key lo (mathMin hi value) Hlo Hu) as [Hr Kr].
    rewrite (RankEngine.SFleb_key _ _ Hlo Hr).
    rewrite (RankEngine.SFleb_key _ _ Hr Hhi).
    rewrite (RankEngine.SFleb_key _ _ Hlo Hv).
    rewrite (RankEngine.SFleb_key _ _ Hv Hhi).
    rewrite (SFeqb_key _ _ Hr Hv).
    apply (RankEngine.SFleb_key _ _ Hlo Hhi) in Hbounds.
    rewrite Kr. clear Kr Hr.
    destruct (SFltb lo (mathMin hi value)) eqn:E1.
    + apply (SFltb_key _ _ Hlo Hu) in E1. rewrite Ku in *. clear Ku Hu.
      destruct (SFltb value hi) eqn:E2.
      * apply (SFltb_key _ _ Hv Hhi) in E2.
        unfold keyLt in *.
        destruct (key value) as [[a1 a2] a3], (key lo) as [[b1 b2] b3],
                 (key hi) as [[c1 c2] c3].
        repeat split; try lia.
      * apply (SFltb_key_false _ _ Hv Hhi) in E2.
        unfold keyLt in *.
        destruct (key value) as [[a1 a2] a3], (key lo) as [[b1 b2] b3],
                 (key hi) as [[c1 c2] c3].
        split; [lia | split; [lia|]]. intros H1 H2.
        repeat f_equal; lia.
    + apply (SFltb_key_false _ _ Hlo Hu) in E1. rewrite Ku in *. clear Ku Hu.
      destruct (SFltb value hi) eqn:E2.
      * apply (SFltb_key _ _ Hv Hhi) in E2.
        unfold keyLt in *.
        destruct (key value) as [[a1 a2] a3], (key lo) as [[b1 b2] b3],
                 (key hi) as [[c1 c2] c3].
        split; [lia | split; [lia|]]. intros H1 H2.
        repeat f_equal; lia.
      * apply (SFltb_key_false _ _ Hv Hhi) in E2.
        unfold keyLt in *.
        destruct (key value) as [[a1 a2] a3], (key lo) as [[b1 b2] b3],
                 (key hi) as [[c1 c2] c3].
        split; [lia | split; [lia|]]. intros H1 H2.
        repeat f_equal; lia.
Qed.

Lemma clamp_stays_within_witness :
  SFleb (S754_zero false) (clamp (ofScaled 1 (-1)) (S754_zero false) (ofScaled 1 0))
  = true /\
  SFleb (clamp (ofScaled 1 (-1)) (S754_zero false) (ofScaled 1 0)) (ofScaled 1 0)
  = true /\
  (SFleb (S754_zero false) (ofScaled 1 (-1)) = true ->
   SFleb (ofScaled 1 (-1)) (ofScaled 1 0) = true ->
   SFeqb (clamp (ofScaled 1 (-1)) (S754_zero false) (ofScaled 1 0))
         (ofScaled 1 (-1)) = true).
Proof.
  apply (proj2 (clamp_stays_within (ofScaled 1 (-1)) (S754_zero false)
                                   (ofScaled 1 0)));
    reflexivity.
Defined.

End ClampingFacts.

(** ** The top predictions *)

Module TopKFacts.
Import Binary64 MathUtils TopK ArrayFacts RankFacts OrderedRankFacts RankOrder.

Lemma nth_error_mapIndexed {A B : Type} (f : A -> nat -> B) (l : list A)
      (i j : nat) :
  nth_error (mapIndexed f l i) j
  = option_map (fun x => f x (i + j)%nat) (nth_error l j).
Proof.
  revert i j. induction l as [|y l IH]; intros i [|j]; simpl; try reflexivity.
  - rewrite Nat.add_0_r. reflexivity.
  - rewrite IH. replace (i + S j)%nat with (S i + j)%nat by lia. reflexivity.
Qed.

Lemma length_mapIndexed {A B : Type} (f : A -> nat -> B) (l : list A) (i : nat) :
  length (mapIndexed f l i) = length l.
Proof.
  revert i. induction l as [|y l IH]; intros i; simpl; [reflexivity|].
  rewrite IH. reflexivity.
Qed.

Lemma slice0_prefix {A : Type} (l : list A) (e : Z) :
  exists m, slice0 l e = firstn m l.
Proof.
  unfold slice0. destruct (e <? 0); eexists; reflexivity.
Qed.

Lemma length_slice0 {A : Type} (l : list A) (e : Z) :
  length (slice0 l e)
  = if e <? 0 then (length l - Z.to_nat (- e))%nat
    else Nat.min (Z.to_nat e) (length l).
Proof.
  unfold slice0. destruct (e <? 0) eqn:He; rewrite length_firstn.
  - apply Z.ltb_lt in He. lia.
  - reflexivity.
Qed.

Lemma StronglySorted_nth_error {A : Type} (R : A -> A -> Prop) (l : list A)
      (i j : nat) (x y : A) :
  StronglySorted R l -> (i < j)%nat ->
  nth_error l i = Some x -> nth_error l j = Some y -> R x y.
Proof.
  intros Hs. revert i j. induction Hs as [|a l Hs IH Ha]; intros i j Hij Hi Hj.
  - destruct i; discriminate.
  - destruct j as [|j]; [lia|]. simpl in Hj.
    destruct i as [|i]; simpl in Hi.
    + injection Hi as <-. rewrite Forall_forall in Ha.
      apply Ha. apply (nth_error_In _ j). exact Hj.
    + apply (IH i j); [lia | exact Hi | exact Hj].
Qed.

Section AnyNumber.
Context {N : Number}.

(** X6. Each entry of the top-k list carries its position as its rank,
    the probability of its token, and the rank that [calculateTokenRank]
    gives that token. *)
Theorem top_tokens_agree_with_rank (d : list number) (k : option Z) (j : nat)
        (e : TopToken) :
  nth_error (getTopKTokens d k) j = Some e ->
  rank e = j /\ (tokenId e < length d)%nat /\
  probability e = nth (tokenId e) d zero /\
  calculateTokenRank d (Z.of_nat (tokenId e)) = Z.of_nat j.
Proof.
  unfold getTopKTokens. fold (sortedPairs d).
  rewrite nth_error_mapIndexed.
  destruct (slice0_prefix (sortedPairs d) (orTen k)) as [m ->].
  rewrite nth_error_firstn.
  destruct (j <? m)%nat; [|discriminate].
  destruct (nth_error (sortedPairs d) j) as [x|] eqn:Hx; [|discriminate].
  simpl. intros He. injection He as <-. simpl.
  destruct (position_rank d j x Hx) as (Hlt & Hxe & Hr).
  split; [reflexivity|]. split; [exact Hlt|]. split; [|exact Hr].
  change (nth (index x) d zero) with (prob (pairAt d (index x))).
  rewrite <- Hxe. reflexivity.
Qed.

(** X7. The top-k list has [k] entries, or as many as the distribution
    has when that is fewer; ten when [k] is left out; and for a negative
    [k] it has all entries but the last [-k]. *)
Theorem top_tokens_count (d : list number) :
  length (getTopKTokens d None) = Nat.min 10 (length d) /\
  (forall k, 0 <= k ->
     length (getTopKTokens d (Some k)) = Nat.min (Z.to_nat k) (length d)) /\
  (forall k, k < 0 ->
     length (getTopKTokens d (Some k)) = (length d - Z.to_nat (- k))%nat).
Proof.
  unfold getTopKTokens. fold (sortedPairs d).
  split; [| split].
  - rewrite length_mapIndexed, length_slice0, sortedPairs_length. reflexivity.
  - intros k Hk.
    rewrite length_mapIndexed, length_slice0, sortedPairs_length.
    unfold orTen.
    destruct (k <? 0) eqn:Hneg; [apply Z.ltb_lt in Hneg; lia | reflexivity].
  - intros k Hk.
    rewrite length_mapIndexed, length_slice0, sortedPairs_length.
    unfold orTen.
    destruct (k <? 0) eqn:Hneg; [reflexivity | apply Z.ltb_ge in Hneg; lia].
Qed.

End AnyNumber.

(** X8. For a distribution without NaN the top-k list is in descending
    order: no entry is more probable than an earlier one, and of two
    entries with equal probabilities the one with the smaller token id
    comes first. *)
Theorem top_tokens_descend (d : list spec_float) (k : option Z) (i j : nat)
        (ei ej : TopToken (N := IEEE)) :
  Forall (fun x => isOrdered x = true) d ->
  (i < j)%nat ->
  nth_error (getTopKTokens d k) i = Some ei ->
  nth_error (getTopKTokens d k) j = Some ej ->
  SFltb (probability ei) (probability ej) = false /\
  (SFltb (probability ej) (probability ei) = false ->
   (tokenId ei < tokenId ej)%nat).
Proof.
  intros Hd Hij. unfold getTopKTokens. fold (sortedPairs (N := IEEE) d).
  rewrite !nth_error_mapIndexed.
  destruct (slice0_prefix (sortedPairs (N := IEEE) d) (orTen k)) as [m ->].
  rewrite !nth_error_firstn.
  destruct (i <? m)%nat; [|discriminate].
  destruct (j <? m)%nat; [|discriminate].
  destruct (nth_error (sortedPairs (N := IEEE) d) i) as [x|] eqn:Hx; [|discriminate].
  destruct (nth_error (sortedPairs (N := IEEE) d) j) as [y|] eqn:Hy; [|discriminate].
  simpl. intros Hi Hj. injection Hi as <-. injection Hj as <-. simpl.
  pose proof (sortedPairs_sorted (N := IEEE) (fun x => isOrdered x = true)
                                 (O := RankEngine.IEEE_order) d Hd) as Hs.
  pose proof (StronglySorted_nth_error _ _ i j x y Hs Hij Hx Hy) as Hp.
  simpl in Hp.
  assert (Cx : isOrdered (prob x) = true).
  { apply (nth_error_In _ i), In_sortedPairs in Hx.
    destruct Hx as [Hlt ->]. simpl.
    rewrite Forall_forall in Hd. apply Hd, nth_In, Hlt. }
  assert (Cy : isOrdered (prob y) = true).
  { apply (nth_error_In _ j), In_sortedPairs in Hy.
    destruct Hy as [Hlt ->]. simpl.
    rewrite Forall_forall in Hd. apply Hd, nth_In, Hlt. }
  split.
  - exact (precedes_not_less (N := IEEE) (fun x => isOrdered x = true)
                             (O := RankEngine.IEEE_order) x y Cx Cy Hp).
  - intros Hyx. unfold precedes in Hp. simpl in Hp.
    rewrite Hyx in Hp. simpl in Hp.
    apply andb_true_iff in Hp. destruct Hp as [_ Hp].
    apply Nat.ltb_lt in Hp. exact Hp.
Qed.

Lemma top_tokens_agree_with_rank_witness :
  calculateTokenRank Scenario.distribution 2 = 1.
Proof.
  apply (top_tokens_agree_with_rank (N := IEEE) Scenario.distribution (Some 2) 1
           (@Build_TopToken IEEE 2 (ofScaled 10066330 (-25)) 1)).
  reflexivity.
Defined.

Lemma top_tokens_count_witness :
  length (getTopKTokens Scenario.distribution (Some 2)) = 2%nat /\
  length (getTopKTokens Scenario.distribution (Some (-1))) = 3%nat.
Proof.
  destruct (top_tokens_count (N := IEEE) Scenario.distribution) as (_ & H & H').
  split; [apply (H 2); lia | apply (H' (-1)); lia].
Defined.

Lemma top_tokens_descend_witness :
  SFltb (ofScaled 1 (-1)) (ofScaled 10066330 (-25)) = false /\
  (SFltb (ofScaled 10066330 (-25)) (ofScaled 1 (-1)) = false -> (1 < 2)%nat).
Proof.
  apply (top_tokens_descend Scenario.distribution None 0 1
           (@Build_TopToken IEEE 1 (ofScaled 1 (-1)) 0)
           (@Build_TopToken IEEE 2 (ofScaled 10066330 (-25)) 1)).
  - repeat constructor.
  - lia.
  - reflexivity.
  - reflexivity.
Defined.

End TopKFacts.

(** ** The summary statistics *)

Module StatisticsFacts.
Import Binary64 MathUtils ArrayFacts OrderedRankFacts.

Section AnyNumber.
Context {N : Number}.

(** What [calculateStatistics] reads off the sorted copy of a non-empty
    array. *)
Lemma statistics_of_sorted (values : list number) :
  values <> [] ->
  let sorted := sort ascending values in
  let n := length sorted in
  min (calculateStatistics values) = nth 0 sorted zero /\
  max (calculateStatistics values) = nth (n - 1) sorted zero /\
  median (calculateStatistics values)
  = if Nat.eqb (Nat.modulo n 2) 0
    then div (add (nth (Nat.div n 2 - 1) sorted zero)
                  (nth (Nat.div n 2) sorted zero))
             (ofZ 2)
    else nth (Nat.div n 2) sorted zero.
Proof.
  intros Hne. destruct values as [|v0 vs]; [contradiction|].
  unfold calculateStatistics. cbv zeta. cbn [min max median].
  split; [reflexivity | split; reflexivity].
Qed.

End AnyNumber.

Section Ordered.
Context {N : Number}.
Variable comparable : number -> Prop.
Context {O : NumberOrder N comparable}.

Lemma sortsAfter_ascending (x y : number) :
  comparable x -> comparable y -> sortsAfter ascending x y = ltb y x.
Proof.
  intros Hx Hy. unfold sortsAfter, ascending. apply sub_positive; assumption.
Qed.

Lemma insert_ascending (x : number) (s : list number) :
  comparable x -> Forall comparable s ->
  StronglySorted (fun a b => ltb b a = false) s ->
  StronglySorted (fun a b => ltb b a = false) (insert ascending x s).
Proof.
  intros Hx Hc Hs. induction Hs as [|y s Hs IH Hy]; simpl.
  - constructor; constructor.
  - inversion Hc as [|? ? Cy Cs]; subst.
    rewrite (sortsAfter_ascending x y Hx Cy).
    destruct (ltb y x) eqn:Hyx.
    + constructor; [apply IH, Cs|].
      apply Forall_forall. intros z Hz.
      apply (Permutation_in _ (insert_Permutation ascending x s)) in Hz.
      destruct Hz as [<-|Hz].
      * apply (ltb_asym y x Cy Hx Hyx).
      * rewrite Forall_forall in Hy. apply Hy, Hz.
    + constructor; [constructor; assumption|].
      constructor; [exact Hyx|].
      apply Forall_forall. intros z Hz.
      rewrite Forall_forall in Hy, Cs.
      apply (ltb_negtrans z y x (Cs z Hz) Cy Hx); [apply Hy, Hz | exact Hyx].
Qed.

Lemma sort_ascending (l : list number) :
  Forall comparable l ->
  StronglySorted (fun a b => ltb b a = false) (sort ascending l).
Proof.
  induction l as [|x l IH]; intros Hc; simpl.
  - constructor.
  - inversion Hc as [|? ? Cx Cl]; subst.
    apply insert_ascending; [exact Cx | | apply IH, Cl].
    apply Forall_forall. intros z Hz. apply sort_In in Hz.
    rewrite Forall_forall in Cl. apply Cl, Hz.
Qed.

(** In a sorted array no element is less than the first or more than the
    last. *)
Lemma sorted_extremes (l : list number) (v : number) :
  Forall comparable l ->
  StronglySorted (fun a b => ltb b a = false) l -> In v l ->
  ltb v (nth 0 l zero) = false /\ ltb (nth (length l - 1) l zero) v = false.
Proof.
  intros Hc Hs Hv.
  destruct (In_nth_error _ _ Hv) as [k Hk].
  assert (Hkl : (k < length l)%nat) by (apply nth_error_Some; congruence).
  assert (Cv : comparable v) by (rewrite Forall_forall in Hc; apply Hc, Hv).
  split.
  - destruct k as [|k].
    + rewrite (nth_error_nth _ _ zero Hk).
      apply (OrderedRankFacts.ltb_irrefl comparable v Cv).
    + assert (H0 : nth_error l 0 = Some (nth 0 l zero)).
      { apply nth_error_nth'. lia. }
      exact (TopKFacts.StronglySorted_nth_error _ _ 0 (S k) _ _ Hs
               ltac:(lia) H0 Hk).
  - destruct (Nat.eq_dec k (length l - 1)) as [->|Hne].
    + rewrite (nth_error_nth _ _ zero Hk).
      apply (OrderedRankFacts.ltb_irrefl comparable v Cv).
    + assert (Hn : nth_error l (length l - 1)
                   = Some (nth (length l - 1) l zero)).
      { apply nth_error_nth'. lia. }
      exact (TopKFacts.StronglySorted_nth_error _ _ k (length l - 1) _ _ Hs
               ltac:(lia) Hk Hn).
Qed.

End Ordered.

(** X9. For values without NaN, the minimum and the maximum of the
    statistics are values of the array, and every value lies between
    them; with an odd number of values the median is one of them too. *)
Theorem statistics_extremes (values : list spec_float) :
  values <> [] ->
  Forall (fun x => isOrdered x = true) values ->
  let s := calculateStatistics values in
  In (min s) values /\ In (max s) values /\
  (forall v, In v values -> SFleb (min s) v = true /\ SFleb v (max s) = true) /\
  (Nat.odd (length values) = true -> In (median s) values).
Proof.
  intros Hne Hc.
  destruct (statistics_of_sorted (N := IEEE) values Hne) as (Hmin & Hmax & Hmed).
  cbv zeta in Hmin, Hmax, Hmed. cbv zeta.
  rewrite Hmin, Hmax, Hmed. clear Hmin Hmax Hmed.
  assert (Hlen : length (sort (N := IEEE) ascending values) = length values)
    by apply sort_length.
  assert (Hpos : (0 < length values)%nat).
  { destruct values; [contradiction | simpl; lia]. }
  assert (Hcs : Forall (fun x => isOrdered x = true)
                       (sort (N := IEEE) ascending values)).
  { apply Forall_forall. intros z Hz. apply sort_In in Hz.
    rewrite Forall_forall in Hc. apply Hc, Hz. }
  pose proof (sort_ascending (N := IEEE) (fun x => isOrdered x = true)
                (O := RankEngine.IEEE_order) values Hc) as Hs.
  split; [| split; [| split]].
  - apply (sort_In (N := IEEE) ascending). apply nth_In. lia.
  - apply (sort_In (N := IEEE) ascending). apply nth_In. lia.
  - intros v Hv. apply (sort_In (N := IEEE) ascending) in Hv.
    destruct (sorted_extremes (N := IEEE) (fun x => isOrdered x = true)
                (O := RankEngine.IEEE_order) _ v Hcs Hs Hv) as [H1 H2].
    rewrite Forall_forall in Hcs.
    split; apply RankEngine.SFleb_of_not_ltb;
      try (apply RankEngine.isOrdered_not_NaN, Hcs);
      try exact Hv; try (apply nth_In; lia); assumption.
  - intros Hodd.
    rewrite Hlen.
    assert (Hmod : Nat.modulo (length values) 2 = 1%nat).
    { rewrite <- Nat.bit0_mod, Nat.bit0_odd, Hodd. reflexivity. }
    rewrite Hmod. simpl Nat.eqb. cbv iota.
    apply (sort_In (N := IEEE) ascending). apply nth_In. rewrite Hlen.
    apply Nat.div_lt; lia.
Qed.

Lemma statistics_extremes_witness :
  In (min (calculateStatistics Scenario.distribution)) Scenario.distribution.
Proof.
  apply (statistics_extremes Scenario.distribution).
  - discriminate.
  - repeat constructor.
Defined.

End StatisticsFacts.

(** ** Runs of the sequential analyzer *)

Module Run.
Import Analysis Scan Trace.
Local Open Scope string_scope.
Local Open Scope Z_scope.

Lemma map_nth_seq {A : Type} (l : list A) (d : A) :
  map (fun i => nth i l d) (seq 0 (length l)) = l.
Proof.
  induction l as [|x l IH]; simpl; [reflexivity|].
  f_equal. rewrite <- seq_shift, map_map. exact IH.
Qed.

Section WithCollaborators.
Context {N : Number} {World : Type}.
Variable tokenizerService : TokenizerService World.
Variable modelService : ModelService World.

Local Abbreviation processInitial := (processInitial tokenizerService).
Local Abbreviation processPredicted := (processPredicted tokenizerService modelService).
Local Abbreviation analyzeTokenSequence := (analyzeTokenSequence tokenizerService modelService).
Local Abbreviation analyzeText := (analyzeText tokenizerService modelService).

Lemma eventsOf_cons (s : Step) (steps : list Step) :
  eventsOf (s :: steps) = (snd s ++ eventsOf steps)%list.
Proof. reflexivity. Qed.

Lemma notifications_app (a b : list Event) :
  notifications (a ++ b) = (notifications a ++ notifications b)%list.
Proof. apply flat_map_app. Qed.

Lemma inferenceContexts_app (a b : list Event) :
  inferenceContexts (a ++ b) = (inferenceContexts a ++ inferenceContexts b)%list.
Proof. apply flat_map_app. Qed.

Lemma answered_app (a b : list Event) :
  answered (a ++ b) = (answered a ++ answered b)%list.
Proof. apply flat_map_app. Qed.

(** The whole scan with a tokenizer loaded, iteration by iteration. *)
Lemma scan_loaded (tk : TokenizerObject World) (tokenIds : list Z)
      (m : Machine World) :
  tokenizer tokenizerService = Some tk ->
  let prefix := Nat.min INITIAL_TOKENS_COUNT (length tokenIds) in
  exists inits preds m',
    analyzeTokenSequence tokenIds m
    = (Normal (resultsOf inits ++ resultsOf preds), m',
       eventsOf inits ++ eventsOf preds)%list /\
    initialSteps tokenIds (seq 0 prefix) inits /\
    predictedSteps tokenIds (seq prefix (length tokenIds - prefix)) preds.
Proof.
  intros Htk prefix.
  rewrite (analyzeTokenSequence_scanBefore tokenizerService modelService).
  destruct (scanBefore_loaded tokenizerService modelService tk tokenIds
              (length tokenIds) m Htk) as (inits & preds & m' & Hrun & Hi & Hp).
  exists inits, preds, m'. split; [exact Hrun|].
  replace (Nat.min (Nat.min INITIAL_TOKENS_COUNT (length tokenIds))
                   (length tokenIds))
    with prefix in Hi by (unfold prefix; lia).
  split; assumption.
Qed.

Lemma initialSteps_tokenIds (tokenIds : list Z) (l : list nat)
      (steps : list Step) :
  initialSteps tokenIds l steps ->
  map tokenId (resultsOf steps) = map (fun i => nth i tokenIds 0) l.
Proof.
  induction 1 as [|i [r ev] l steps (token & Hr & _) _ IH];
    [reflexivity|].
  simpl in Hr. subst r. simpl. f_equal. exact IH.
Qed.

Lemma predictedSteps_tokenIds (tokenIds : list Z) (l : list nat)
      (steps : list Step) :
  predictedSteps tokenIds l steps ->
  map tokenId (resultsOf steps) = map (fun i => nth i tokenIds 0) l.
Proof.
  induction 1 as [|i [r ev] l steps (token & outcome & _ & Hr) _ IH];
    [reflexivity|].
  simpl in Hr. subst r. simpl.
  f_equal; [destruct outcome; reflexivity | exact IH].
Qed.

Lemma initialSteps_notifications (tokenIds : list Z) (l : list nat)
      (steps : list Step) :
  initialSteps tokenIds l steps ->
  notifications (eventsOf steps)
  = map (fun r => progressAt tokenIds (position r) (token r)) (resultsOf steps).
Proof.
  induction 1 as [|i [r ev] l steps (token & Hr & Hev) _ IH];
    [reflexivity|].
  simpl in Hr, Hev. subst r ev.
  rewrite eventsOf_cons, notifications_app, IH. reflexivity.
Qed.

Lemma predictedSteps_notifications (tokenIds : list Z) (l : list nat)
      (steps : list Step) :
  predictedSteps tokenIds l steps ->
  notifications (eventsOf steps)
  = map (fun r => progressAt tokenIds (position r) (token r)) (resultsOf steps).
Proof.
  induction 1 as [|i [r ev] l steps (token & outcome & Hev & Hr) _ IH];
    [reflexivity|].
  simpl in Hr, Hev. subst r ev.
  rewrite eventsOf_cons, notifications_app, IH.
  destruct outcome; reflexivity.
Qed.

Lemma initialSteps_contexts (tokenIds : list Z) (l : list nat)
      (steps : list Step) :
  initialSteps tokenIds l steps ->
  inferenceContexts (eventsOf steps) = [] /\ answered (eventsOf steps) = [].
Proof.
  induction 1 as [|i [r ev] l steps (token & Hr & Hev) _ [IH1 IH2]];
    [split; reflexivity|].
  simpl in Hr, Hev. subst r ev.
  rewrite eventsOf_cons, inferenceContexts_app, answered_app, IH1, IH2.
  split; reflexivity.
Qed.

Lemma predictedSteps_contexts (tokenIds : list Z) (l : list nat)
      (steps : list Step) :
  predictedSteps tokenIds l steps ->
  inferenceContexts (eventsOf steps) = map (fun i => firstn i tokenIds) l.
Proof.
  induction 1 as [|i [r ev] l steps (token & outcome & Hev & Hr) _ IH];
    [reflexivity|].
  simpl in Hr, Hev. subst r ev.
  rewrite eventsOf_cons, inferenceContexts_app, IH. reflexivity.
Qed.

Lemma initialSteps_not_predicted (tokenIds : list Z) (l : list nat)
      (steps : list Step) :
  initialSteps tokenIds l steps -> filter isPredicted (resultsOf steps) = [].
Proof.
  induction 1 as [|i [r ev] l steps (token & Hr & Hev) _ IH];
    [reflexivity|].
  simpl in Hr, Hev. subst r ev. simpl. exact IH.
Qed.

Lemma predictedSteps_predicted (tokenIds : list Z) (l : list nat)
      (steps : list Step) :
  predictedSteps tokenIds l steps ->
  length (filter isPredicted (resultsOf steps))
  = length (answered (eventsOf steps)).
Proof.
  induction 1 as [|i [r ev] l steps (token & outcome & Hev & Hr) _ IH];
    [reflexivity|].
  simpl in Hr, Hev. subst r ev.
  rewrite eventsOf_cons, answered_app, length_app, <- IH.
  destruct outcome; reflexivity.
Qed.

Lemma answered_contexts (events : list Event) :
  (length (answered events) <= length (inferenceContexts events))%nat.
Proof.
  induction events as [|event events IH]; simpl; [lia|].
  rewrite !length_app.
  destruct event as [| |context [result|e]|]; simpl; lia.
Qed.

Lemma statistics_counts (results : list AnalysisResult) :
  totalTokens (calculateStatistics results) = Z.of_nat (length results) /\
  predictedTokens (calculateStatistics results)
  = Z.of_nat (length (filter isPredicted results)).
Proof.
  unfold calculateStatistics.
  destruct (filter isPredicted results); split; reflexivity.
Qed.

Lemma Forall2_nth_error {A B : Type} (P : A -> B -> Prop) (l : list A)
      (l' : list B) (k : nat) (x : A) :
  Forall2 P l l' -> nth_error l k = Some x ->
  exists y, nth_error l' k = Some y /\ P x y.
Proof.
  intros H. revert k. induction H as [|a b l l' Hab _ IH]; intros k Hk.
  - destruct k; discriminate.
  - destruct k as [|k]; simpl in Hk.
    + injection Hk as <-. exists b. split; [reflexivity | exact Hab].
    + apply IH. exact Hk.
Qed.

Lemma In_eventsOf (steps : list Step) (s : Step) (event : Event) :
  In s steps -> In event (snd s) -> In event (eventsOf steps).
Proof.
  intros Hs He. unfold eventsOf. apply in_concat.
  exists (snd s). split; [apply in_map; exact Hs | exact He].
Qed.

(** *** The outcomes of the inferences *)

Lemma runInference_refuses (inputIds : list Z) (w : World) :
  session modelService = None
  \/ maxSequenceLength modelService < Z.of_nat (length inputIds) ->
  exists e, fst (runInference modelService inputIds w) = Throw e.
Proof.
  intros H. unfold runInference.
  destruct (session modelService) as [run|]; [|eexists; reflexivity].
  destruct H as [H|H]; [discriminate|].
  destruct (Z.of_nat (length inputIds) =? 0); [eexists; reflexivity|].
  apply Z.ltb_lt in H. rewrite H. eexists; reflexivity.
Qed.

Lemma processInitial_fromModel (tokenIds : list Z) (i : nat)
      (results : list AnalysisResult) (m : Machine World) :
  Forall (fromModel modelService) (snd (processInitial tokenIds i results m)).
Proof.
  unfold Analysis.processInitial, bind, call, notifyProgress, ret.
  destruct (decodeToken tokenizerService (nth i tokenIds 0) (world m))
    as [[token|e] w']; simpl; repeat constructor.
Qed.

Lemma processPredicted_fromModel (tokenIds : list Z) (i : nat)
      (results : list AnalysisResult) (m : Machine World) :
  Forall (fromModel modelService) (snd (processPredicted tokenIds i results m)).
Proof.
  unfold Analysis.processPredicted, bind, tryCatch, call, notifyProgress, ret.
  destruct (decodeToken tokenizerService (nth i tokenIds 0) (world m))
    as [[token|e] w']; simpl; [|repeat constructor].
  destruct (runInference modelService (firstn i tokenIds) w')
    as [[inferenceResult|e] w''] eqn:E; simpl;
    repeat constructor; exists w'; rewrite E; reflexivity.
Qed.

Lemma forEach_Forall (P : Event -> Prop)
      (body : nat -> list AnalysisResult -> M World (list AnalysisResult))
      (l : list nat) :
  (forall i results m, Forall P (snd (body i results m))) ->
  forall results m, Forall P (snd (forEach l body results m)).
Proof.
  intros Hbody. induction l as [|i l IH]; intros results m; simpl.
  - constructor.
  - unfold bind. specialize (Hbody i results m).
    destruct (body i results m) as [[[a|e] m'] ev]; simpl in *; [|exact Hbody].
    specialize (IH a m').
    destruct (forEach l body a m') as [[r m''] ev']. simpl in *.
    apply Forall_app. split; assumption.
Qed.

Lemma analyzeTokenSequence_fromModel (tokenIds : list Z) (m : Machine World) :
  Forall (fromModel modelService) (snd (analyzeTokenSequence tokenIds m)).
Proof.
  unfold Analysis.analyzeTokenSequence, bind.
  set (prefix := Nat.min INITIAL_TOKENS_COUNT (length tokenIds)).
  pose proof (forEach_Forall (fromModel modelService) (processInitial tokenIds)
                (seq 0 prefix) (processInitial_fromModel tokenIds) [] m) as H1.
  destruct (forEach (seq 0 prefix) (processInitial tokenIds) [] m)
    as [[[results|e] m1] ev1]; simpl in *; [|exact H1].
  pose proof (forEach_Forall (fromModel modelService) (processPredicted tokenIds)
                (seq prefix (length tokenIds - prefix))
                (processPredicted_fromModel tokenIds) results m1) as H2.
  destruct (forEach (seq prefix (length tokenIds - prefix))
                    (processPredicted tokenIds) results m1) as [[r m2] ev2].
  simpl in *. apply Forall_app. split; assumption.
Qed.

(** *** The scan *)

Lemma scan_positions (tokenIds : list Z) (inits preds : list Step) :
  let prefix := Nat.min INITIAL_TOKENS_COUNT (length tokenIds) in
  initialSteps tokenIds (seq 0 prefix) inits ->
  predictedSteps tokenIds (seq prefix (length tokenIds - prefix)) preds ->
  map position (resultsOf inits ++ resultsOf preds) = seq 0 (length tokenIds) /\
  map tokenId (resultsOf inits ++ resultsOf preds) = tokenIds.
Proof.
  intros prefix Hi Hp.
  rewrite !map_app.
  rewrite (initialSteps_positions _ _ _ Hi).
  rewrite (predictedSteps_positions _ _ _ Hp).
  rewrite (initialSteps_tokenIds _ _ _ Hi), (predictedSteps_tokenIds _ _ _ Hp).
  rewrite <- map_app, <- seq_app.
  replace (prefix + (length tokenIds - prefix))%nat with (length tokenIds)
    by (unfold prefix; lia).
  split; [reflexivity | apply map_nth_seq].
Qed.

(** X10. With a tokenizer loaded, the scan reports its progress once for
    each token, in the order of the positions: the report after position
    [i] counts [i + 1] of the tokens of the sequence and names the token
    of that position. *)
Theorem progress_follows_the_tokens (tk : TokenizerObject World)
        (tokenIds : list Z) (m : Machine World) :
  tokenizer tokenizerService = Some tk ->
  exists results m' events,
    analyzeTokenSequence tokenIds m = (Normal results, m', events) /\
    notifications events
    = map (fun r => progressAt tokenIds (position r) (token r)) results /\
    map current (notifications events)
    = map (fun i => Z.of_nat i + 1) (seq 0 (length tokenIds)) /\
    Forall (fun p => total p = Z.of_nat (length tokenIds)) (notifications events).
Proof.
  intros Htk.
  destruct (scan_loaded tk tokenIds m Htk) as (inits & preds & m' & Hrun & Hi & Hp).
  eexists _, _, _. split; [exact Hrun|].
  assert (Hn : notifications (eventsOf inits ++ eventsOf preds)
               = map (fun r => progressAt tokenIds (position r) (token r))
                     (resultsOf inits ++ resultsOf preds)).
  { rewrite notifications_app, map_app.
    rewrite (initialSteps_notifications _ _ _ Hi).
    rewrite (predictedSteps_notifications _ _ _ Hp). reflexivity. }
  split; [exact Hn|]. rewrite Hn. split.
  - rewrite map_map. simpl.
    rewrite <- (proj1 (scan_positions tokenIds inits preds Hi Hp)).
    rewrite map_map. reflexivity.
  - apply Forall_forall. intros p Hin. apply in_map_iff in Hin.
    destruct Hin as (r & <- & _). reflexivity.
Qed.

(** X11. With a tokenizer loaded, the scan calls the predictor once for
    each position after the initial ones, in order, with the tokens before
    that position for its context; so no context is empty or has fewer
    tokens than the initial ones, and none holds the whole sequence. *)
Theorem inference_contexts_are_the_prefixes (tk : TokenizerObject World)
        (tokenIds : list Z) (m : Machine World) :
  tokenizer tokenizerService = Some tk ->
  let prefix := Nat.min INITIAL_TOKENS_COUNT (length tokenIds) in
  exists results m' events,
    analyzeTokenSequence tokenIds m = (Normal results, m', events) /\
    inferenceContexts events
    = map (fun i => firstn i tokenIds)
          (seq prefix (length tokenIds - prefix)) /\
    Forall (fun context =>
              (INITIAL_TOKENS_COUNT <= length context < length tokenIds)%nat)
           (inferenceContexts events).
Proof.
  intros Htk prefix.
  destruct (scan_loaded tk tokenIds m Htk) as (inits & preds & m' & Hrun & Hi & Hp).
  eexists _, _, _. split; [exact Hrun|].
  assert (Hc : inferenceContexts (eventsOf inits ++ eventsOf preds)
               = map (fun i => firstn i tokenIds)
                     (seq prefix (length tokenIds - prefix))).
  { rewrite inferenceContexts_app.
    rewrite (proj1 (initialSteps_contexts _ _ _ Hi)).
    rewrite (predictedSteps_contexts _ _ _ Hp). reflexivity. }
  split; [exact Hc|]. rewrite Hc.
  apply Forall_forall. intros context Hin. apply in_map_iff in Hin.
  destruct Hin as (i & <- & Hin). apply in_seq in Hin.
  rewrite length_firstn. unfold prefix, INITIAL_TOKENS_COUNT in *. lia.
Qed.

(** X12. With a tokenizer loaded, a position after the initial ones for
    which the model is not loaded, or whose context is longer than the
    model's maximal sequence length, gets a result without prediction;
    the scan goes on and returns. *)
Theorem unpredictable_positions_are_null (tk : TokenizerObject World)
        (tokenIds : list Z) (m : Machine World) (i : nat) :
  tokenizer tokenizerService = Some tk ->
  (INITIAL_TOKENS_COUNT <= i < length tokenIds)%nat ->
  session modelService = None
  \/ maxSequenceLength modelService < Z.of_nat i ->
  exists results m' events token,
    analyzeTokenSequence tokenIds m = (Normal results, m', events) /\
    length results = length tokenIds /\
    nth_error results i = Some (unpredicted i token (nth i tokenIds 0) false).
Proof.
  intros Htk Hi Hcannot.
  pose proof (analyzeTokenSequence_fromModel tokenIds m) as Hfrom.
  destruct (scan_loaded tk tokenIds m Htk)
    as (inits & preds & m' & Hrun & Hinit & Hpred).
  rewrite Hrun in Hfrom. simpl in Hfrom.
  set (prefix := Nat.min INITIAL_TOKENS_COUNT (length tokenIds)) in *.
  assert (Hprefix : prefix = INITIAL_TOKENS_COUNT) by (unfold prefix; lia).
  assert (Hlen : length (resultsOf inits) = prefix).
  { rewrite (resultsOf_length tokenIds _ _ _ Hinit).
    apply length_seq. }
  assert (Hseq : nth_error (seq prefix (length tokenIds - prefix)) (i - prefix)
                 = Some i).
  { rewrite nth_error_seq.
    destruct (Nat.ltb_spec (i - prefix) (length tokenIds - prefix)); [|lia].
    f_equal. lia. }
  destruct (Forall2_nth_error _ _ _ _ _ Hpred Hseq) as ([r ev] & Hs & Hstep).
  destruct Hstep as (token & outcome & Hev & Hr). simpl in Hev, Hr.
  assert (Hin : In (Inferred (firstn i tokenIds) outcome)
                   (eventsOf inits ++ eventsOf preds)).
  { apply in_or_app. right.
    apply (In_eventsOf preds (r, ev)); [apply (nth_error_In _ _ Hs)|].
    simpl. rewrite Hev. right. left. reflexivity. }
  rewrite Forall_forall in Hfrom. apply Hfrom in Hin. destruct Hin as [w Hw].
  destruct (runInference_refuses (firstn i tokenIds) w) as [e He].
  { destruct Hcannot as [H|H]; [left; exact H | right].
    rewrite length_firstn. lia. }
  rewrite He in Hw. subst outcome.
  exists (resultsOf inits ++ resultsOf preds)%list, m',
         (eventsOf inits ++ eventsOf preds)%list, token.
  split; [exact Hrun|]. split.
  - rewrite <- (length_map position).
    rewrite (proj1 (scan_positions tokenIds inits preds Hinit Hpred)).
    apply length_seq.
  - rewrite nth_error_app2 by lia. rewrite Hlen.
    unfold resultsOf. rewrite nth_error_map, Hs. simpl. rewrite Hr.
    reflexivity.
Qed.

(** X13. The statistics of a scan count every token of the sequence as a
    token, and as predicted tokens the positions for which the predictor
    returned a result; these are at most the positions after the initial
    ones. *)
Theorem statistics_count_the_answers (tk : TokenizerObject World)
        (tokenIds : list Z) (m : Machine World) :
  tokenizer tokenizerService = Some tk ->
  exists results m' events,
    analyzeTokenSequence tokenIds m = (Normal results, m', events) /\
    totalTokens (calculateStatistics results) = Z.of_nat (length tokenIds) /\
    predictedTokens (calculateStatistics results)
    = Z.of_nat (length (answered events)) /\
    (length (answered events)
     <= length tokenIds - Nat.min INITIAL_TOKENS_COUNT (length tokenIds))%nat.
Proof.
  intros Htk.
  destruct (scan_loaded tk tokenIds m Htk)
    as (inits & preds & m' & Hrun & Hinit & Hpred).
  eexists _, _, _. split; [exact Hrun|].
  destruct (statistics_counts (resultsOf inits ++ resultsOf preds))
    as [Htotal Hpredicted].
  rewrite Htotal, Hpredicted. clear Htotal Hpredicted.
  split; [| split].
  - f_equal. rewrite <- (length_map position).
    rewrite (proj1 (scan_positions tokenIds inits preds Hinit Hpred)).
    apply length_seq.
  - f_equal. rewrite filter_app, answered_app, !length_app.
    rewrite (initialSteps_not_predicted _ _ _ Hinit).
    rewrite (proj2 (initialSteps_contexts _ _ _ Hinit)).
    rewrite (predictedSteps_predicted _ _ _ Hpred). reflexivity.
  - rewrite answered_app, length_app.
    rewrite (proj2 (initialSteps_contexts _ _ _ Hinit)). simpl.
    eapply Nat.le_trans; [apply answered_contexts|].
    rewrite (predictedSteps_contexts _ _ _ Hpred).
    rewrite length_map, length_seq. apply Nat.le_refl.
Qed.

End WithCollaborators.
End Run.

(** ** The preprocessing of a text *)

Module TextFacts.
Import TextUtils TextShape.
Local Open Scope string_scope.

Lemma contains_replaceChar_same (x y : ascii) (s : string) :
  contains x s = false -> replaceChar x y s = s.
Proof.
  induction s as [|c s IH]; simpl; [reflexivity|].
  intros H. apply orb_false_iff in H. destruct H as [Hc Hs].
  rewrite Hc, (IH Hs). reflexivity.
Qed.

Lemma contains_replaceChar (x y z : ascii) (s : string) :
  z <> y -> (z = x \/ contains z s = false) ->
  contains z (replaceChar x y s) = false.
Proof.
  intros Hzy H. induction s as [|c s IH]; simpl; [reflexivity|].
  apply orb_false_iff. split.
  - destruct (Ascii.eqb_spec c x) as [->|Hcx].
    + apply Ascii.eqb_neq. congruence.
    + destruct H as [->|H].
      * apply Ascii.eqb_neq. exact Hcx.
      * simpl in H. apply orb_false_iff in H. apply H.
  - apply IH. destruct H as [H|H]; [left; exact H | right].
    simpl in H. apply orb_false_iff in H. apply H.
Qed.

Lemma replaceCRLF_same (s : string) :
  contains CR s = false -> replaceCRLF s = s.
Proof.
  induction s as [|c s IH]; [reflexivity|].
  intros H. simpl in H. apply orb_false_iff in H. destruct H as [Hc Hs].
  simpl. destruct s as [|c' s']; [reflexivity|].
  rewrite Hc. simpl andb. cbv iota. rewrite (IH Hs). reflexivity.
Qed.

Lemma contains_collapseSpaces (z : ascii) (s : string) :
  contains z s = false -> contains z (collapseSpaces s) = false.
Proof.
  induction s as [|c s IH]; [reflexivity|].
  intros H. simpl in H. apply orb_false_iff in H. destruct H as [Hc Hs].
  simpl. destruct s as [|c' s']; [simpl; rewrite Hc; reflexivity|].
  destruct (Ascii.eqb c SPACE && Ascii.eqb c' SPACE).
  - apply IH, Hs.
  - change (contains z (String c (collapseSpaces (String c' s'))) = false).
    simpl contains at 1. rewrite Hc. apply IH, Hs.
Qed.

Lemma collapseSpaces_head (c : ascii) (s : string) :
  exists t, collapseSpaces (String c s) = String c t.
Proof.
  revert c. induction s as [|c' s IH]; intros c.
  - exists "". reflexivity.
  - simpl. destruct (Ascii.eqb c SPACE && Ascii.eqb c' SPACE) eqn:H.
    + apply andb_true_iff in H. destruct H as [H1 H2].
      apply Ascii.eqb_eq in H1, H2. subst c c'.
      apply (IH SPACE).
    + eexists. reflexivity.
Qed.

Lemma hasDoubleSpace_collapseSpaces (s : string) :
  hasDoubleSpace (collapseSpaces s) = false.
Proof.
  induction s as [|c s IH]; [reflexivity|].
  simpl. destruct s as [|c' s']; [reflexivity|].
  destruct (Ascii.eqb c SPACE && Ascii.eqb c' SPACE) eqn:H; [exact IH|].
  destruct (collapseSpaces_head c' s') as [t Ht].
  change (hasDoubleSpace (String c (collapseSpaces (String c' s'))) = false).
  rewrite Ht in IH |- *.
  change ((Ascii.eqb c SPACE && Ascii.eqb c' SPACE)
          || hasDoubleSpace (String c' t) = false).
  rewrite H, IH. reflexivity.
Qed.

Lemma collapseSpaces_same (s : string) :
  hasDoubleSpace s = false -> collapseSpaces s = s.
Proof.
  induction s as [|c s IH]; [reflexivity|].
  intros H. simpl. destruct s as [|c' s']; [reflexivity|].
  change ((Ascii.eqb c SPACE && Ascii.eqb c' SPACE)
          || hasDoubleSpace (String c' s') = false) in H.
  apply orb_false_iff in H. destruct H as [H1 H2].
  rewrite H1, (IH H2). reflexivity.
Qed.

(** *** [trim] *)

Lemma trimStart_suffix (s : string) :
  exists p, s = p ++ trimStart s /\ isBlank p = true.
Proof.
  induction s as [|c s (p & Hp & Hb)]; simpl.
  - exists "". split; reflexivity.
  - destruct (isWhiteSpace c) eqn:Hc.
    + exists (String c p). simpl. rewrite Hc, Hb. split; [f_equal; exact Hp|reflexivity].
    + exists "". split; reflexivity.
Qed.

Lemma trimStart_head (s : string) (c : ascii) (rest : string) :
  trimStart s = String c rest -> isWhiteSpace c = false.
Proof.
  induction s as [|a s IH]; simpl; [discriminate|].
  destruct (isWhiteSpace a) eqn:Ha; [exact IH|].
  intros H. injection H as <- _. exact Ha.
Qed.

Lemma trimStart_same (c : ascii) (rest : string) :
  isWhiteSpace c = false -> trimStart (String c rest) = String c rest.
Proof. intros H. simpl. rewrite H. reflexivity. Qed.

Lemma trimEnd_empty (s : string) : trimEnd s = "" <-> isBlank s = true.
Proof.
  induction s as [|c s IH]; simpl; [tauto|].
  destruct (trimEnd s) as [|a t] eqn:Ht.
  - destruct (isWhiteSpace c); simpl.
    + split; [intros _; apply IH; reflexivity | reflexivity].
    + split; discriminate.
  - split; [discriminate|]. intros H.
    apply andb_true_iff in H. destruct H as [_ H]. apply IH in H. discriminate.
Qed.

Lemma trimEnd_head (c : ascii) (rest : string) :
  isWhiteSpace c = false ->
  exists t, trimEnd (String c rest) = String c t.
Proof.
  intros H. simpl. destruct (trimEnd rest).
  - rewrite H. eexists. reflexivity.
  - eexists. reflexivity.
Qed.

Lemma trimEnd_cons (c : ascii) (rest : string) :
  trimEnd (String c rest)
  = match trimEnd rest with
    | EmptyString => if isWhiteSpace c then EmptyString else String c EmptyString
    | t => String c t
    end.
Proof. reflexivity. Qed.

Lemma trimEnd_idem (s : string) : trimEnd (trimEnd s) = trimEnd s.
Proof.
  induction s as [|c s IH]; [reflexivity|].
  simpl. destruct (trimEnd s) as [|a t] eqn:Ht.
  - destruct (isWhiteSpace c) eqn:Hc; [reflexivity|].
    simpl. rewrite Hc. reflexivity.
  - rewrite trimEnd_cons, IH. reflexivity.
Qed.

Lemma trimEnd_prefix (s : string) :
  exists q, s = trimEnd s ++ q /\ isBlank q = true.
Proof.
  induction s as [|c s (q & Hq & Hb)]; simpl.
  - exists "". split; reflexivity.
  - destruct (trimEnd s) as [|a t] eqn:Ht.
    + assert (Hs : isBlank s = true) by (apply trimEnd_empty; exact Ht).
      destruct (isWhiteSpace c) eqn:Hc.
      * exists (String c s). simpl. rewrite Hc, Hs. split; reflexivity.
      * exists s. split; [reflexivity | exact Hs].
    + exists q. split; [simpl; f_equal; exact Hq | exact Hb].
Qed.

Lemma trim_idem (s : string) : trim (trim s) = trim s.
Proof.
  unfold trim. destruct (trimStart s) as [|c rest] eqn:Hs; [reflexivity|].
  pose proof (trimStart_head s c rest Hs) as Hc.
  destruct (trimEnd_head c rest Hc) as [t Ht].
  rewrite Ht, (trimStart_same c t Hc), <- Ht. apply trimEnd_idem.
Qed.

Lemma isBlank_app (a b : string) :
  isBlank (a ++ b) = isBlank a && isBlank b.
Proof.
  induction a as [|c a IH]; simpl; [reflexivity|].
  rewrite IH. apply andb_assoc.
Qed.

Lemma trim_empty (s : string) : trim s = "" <-> isBlank s = true.
Proof.
  unfold trim. rewrite trimEnd_empty.
  destruct (trimStart_suffix s) as (p & Hp & Hb).
  rewrite Hp at 2. rewrite isBlank_app, Hb. simpl. tauto.
Qed.

Lemma contains_app (z : ascii) (a b : string) :
  contains z (a ++ b) = contains z a || contains z b.
Proof.
  induction a as [|c a IH]; simpl; [reflexivity|].
  rewrite IH. apply orb_assoc.
Qed.

Lemma hasDoubleSpace_cons (c : ascii) (s : string) :
  hasDoubleSpace (String c s) = false -> hasDoubleSpace s = false.
Proof.
  destruct s as [|c' s]; [reflexivity|].
  intros H.
  change ((Ascii.eqb c SPACE && Ascii.eqb c' SPACE)
          || hasDoubleSpace (String c' s) = false) in H.
  apply orb_false_iff in H. apply H.
Qed.

Lemma hasDoubleSpace_app_r (a b : string) :
  hasDoubleSpace (a ++ b) = false -> hasDoubleSpace b = false.
Proof.
  induction a as [|c a IH]; simpl; [tauto|].
  intros H. apply IH. apply (hasDoubleSpace_cons c). exact H.
Qed.

Lemma hasDoubleSpace_app_l (a b : string) :
  hasDoubleSpace (a ++ b) = false -> hasDoubleSpace a = false.
Proof.
  induction a as [|c a IH]; [reflexivity|].
  intros H. pose proof (IH (hasDoubleSpace_cons c _ H)) as Ha.
  destruct a as [|c' a]; [reflexivity|].
  change ((Ascii.eqb c SPACE && Ascii.eqb c' SPACE)
          || hasDoubleSpace (String c' (a ++ b)) = false) in H.
  change ((Ascii.eqb c SPACE && Ascii.eqb c' SPACE)
          || hasDoubleSpace (String c' a) = false).
  apply orb_false_iff in H. destruct H as [H _]. rewrite H, Ha. reflexivity.
Qed.

(** A text is its trimmed part between two blank parts. *)
Lemma trim_middle (s : string) :
  exists p q, s = p ++ trim s ++ q /\ isBlank p = true /\ isBlank q = true.
Proof.
  destruct (trimStart_suffix s) as (p & Hp & Hbp).
  destruct (trimEnd_prefix (trimStart s)) as (q & Hq & Hbq).
  exists p, q. unfold trim. rewrite <- Hq. auto.
Qed.

Lemma contains_trim (z : ascii) (s : string) :
  contains z s = false -> contains z (trim s) = false.
Proof.
  destruct (trim_middle s) as (p & q & Hs & _). intros H.
  rewrite Hs, !contains_app in H.
  apply orb_false_iff in H. destruct H as [_ H].
  apply orb_false_iff in H. apply H.
Qed.

Lemma hasDoubleSpace_trim (s : string) :
  hasDoubleSpace s = false -> hasDoubleSpace (trim s) = false.
Proof.
  destruct (trim_middle s) as (p & q & Hs & _). intros H.
  rewrite Hs in H.
  apply hasDoubleSpace_app_r, hasDoubleSpace_app_l in H. exact H.
Qed.

Lemma trim_head (s : string) (c : ascii) (rest : string) :
  trim s = String c rest -> isWhiteSpace c = false.
Proof.
  unfold trim. destruct (trimStart s) as [|a r] eqn:Hs; [discriminate|].
  pose proof (trimStart_head s a r Hs) as Ha.
  destruct (trimEnd_head a r Ha) as [t ->].
  intros H. injection H as <- _. exact Ha.
Qed.

Lemma trimEnd_last (s front : string) (c : ascii) :
  trimEnd s = front ++ String c "" -> isWhiteSpace c = false.
Proof.
  revert front. induction s as [|a s IH]; intros front.
  - destruct front; discriminate.
  - rewrite trimEnd_cons. destruct (trimEnd s) as [|a' t'].
    + destruct (isWhiteSpace a) eqn:Ha.
      * destruct front; discriminate.
      * destruct front as [|b front]; simpl.
        -- intros H. injection H as <-. exact Ha.
        -- intros H. injection H as _ H. destruct front; discriminate.
    + destruct front as [|b front]; simpl.
      * discriminate.
      * intros H. injection H as _ H. apply (IH front). exact H.
Qed.

Lemma isBlank_replaceCRLF (s : string) :
  isBlank (replaceCRLF s) = isBlank s.
Proof.
  assert (H : forall n s, (String.length s <= n)%nat ->
                          isBlank (replaceCRLF s) = isBlank s).
  { clear s. induction n as [|n IH]; intros s Hn.
    - destruct s; [reflexivity | simpl in Hn; lia].
    - destruct s as [|c s]; [reflexivity|].
      destruct s as [|c' s]; [reflexivity|].
      simpl in Hn.
      change (replaceCRLF (String c (String c' s)))
        with (if Ascii.eqb c CR && Ascii.eqb c' LF
              then String LF (replaceCRLF s)
              else String c (replaceCRLF (String c' s))).
      destruct (Ascii.eqb c CR && Ascii.eqb c' LF) eqn:E.
      + apply andb_true_iff in E. destruct E as [E1 E2].
        apply Ascii.eqb_eq in E1, E2. subst c c'.
        change (isBlank (String LF (replaceCRLF s)))
          with (isWhiteSpace LF && isBlank (replaceCRLF s)).
        rewrite (IH s) by lia. reflexivity.
      + change (isBlank (String c (replaceCRLF (String c' s))))
          with (isWhiteSpace c && isBlank (replaceCRLF (String c' s))).
        rewrite (IH (String c' s)) by (simpl; lia). reflexivity. }
  apply (H (String.length s)). lia.
Qed.

Lemma isBlank_replaceChar (x y : ascii) (s : string) :
  isWhiteSpace x = true -> isWhiteSpace y = true ->
  isBlank (replaceChar x y s) = isBlank s.
Proof.
  intros Hx Hy. induction s as [|c s IH]; simpl; [reflexivity|].
  rewrite IH. destruct (Ascii.eqb_spec c x) as [->|_]; [|reflexivity].
  rewrite Hx, Hy. reflexivity.
Qed.

Lemma isBlank_collapseSpaces (s : string) :
  isBlank (collapseSpaces s) = isBlank s.
Proof.
  induction s as [|c s IH]; [reflexivity|].
  simpl. destruct s as [|c' s']; [reflexivity|].
  destruct (Ascii.eqb c SPACE && Ascii.eqb c' SPACE) eqn:E.
  - apply andb_true_iff in E. destruct E as [E _].
    apply Ascii.eqb_eq in E. subst c. rewrite IH. reflexivity.
  - change (isWhiteSpace c && isBlank (collapseSpaces (String c' s'))
            = isWhiteSpace c && isBlank (String c' s')).
    rewrite IH. reflexivity.
Qed.

Lemma isBlank_preprocessed (text : string) :
  isBlank (collapseSpaces
             (replaceChar TAB SPACE (replaceChar CR LF (replaceCRLF text))))
  = isBlank text.
Proof.
  rewrite isBlank_collapseSpaces.
  rewrite (isBlank_replaceChar TAB SPACE) by reflexivity.
  rewrite (isBlank_replaceChar CR LF) by reflexivity.
  apply isBlank_replaceCRLF.
Qed.

Lemma preprocessed_shape (text : string) :
  contains CR (preprocessText text) = false /\
  contains TAB (preprocessText text) = false /\
  hasDoubleSpace (preprocessText text) = false /\
  trim (preprocessText text) = preprocessText text.
Proof.
  unfold preprocessText.
  split; [| split; [| split]].
  - apply contains_trim, contains_collapseSpaces.
    apply contains_replaceChar; [discriminate | right].
    apply contains_replaceChar; [discriminate | left; reflexivity].
  - apply contains_trim, contains_collapseSpaces.
    apply contains_replaceChar; [discriminate | left; reflexivity].
  - apply hasDoubleSpace_trim, hasDoubleSpace_collapseSpaces.
  - apply trim_idem.
Qed.

Lemma preprocessText_blank (text : string) :
  preprocessText text = "" <-> isBlank text = true.
Proof.
  unfold preprocessText. rewrite trim_empty, isBlank_preprocessed. tauto.
Qed.

(** X17. The preprocessed text is in a normal form: it holds no carriage
    return and no tab, no two spaces side by side, and it neither begins
    nor ends with white space. *)
Theorem preprocessed_text_is_normalised (text : string) :
  contains CR (preprocessText text) = false /\
  contains TAB (preprocessText text) = false /\
  hasDoubleSpace (preprocessText text) = false /\
  (forall c rest, preprocessText text = String c rest -> isWhiteSpace c = false) /\
  (forall front c, preprocessText text = front ++ String c "" ->
                   isWhiteSpace c = false).
Proof.
  destruct (preprocessed_shape text) as (Hcr & Htab & Hdouble & _).
  split; [exact Hcr | split; [exact Htab | split; [exact Hdouble | split]]].
  - intros c rest. unfold preprocessText. apply trim_head.
  - intros front c. unfold preprocessText, trim. apply trimEnd_last.
Qed.

(** X18. Preprocessing a preprocessed text changes nothing. *)
Theorem preprocessText_is_idempotent (text : string) :
  preprocessText (preprocessText text) = preprocessText text.
Proof.
  destruct (preprocessed_shape text) as (Hcr & Htab & Hdouble & Htrim).
  unfold preprocessText at 1.
  rewrite (replaceCRLF_same _ Hcr).
  rewrite (contains_replaceChar_same CR LF _ Hcr).
  rewrite (contains_replaceChar_same TAB SPACE _ Htab).
  rewrite (collapseSpaces_same _ Hdouble).
  exact Htrim.
Qed.

(** X19. The preprocessed text is empty exactly for the texts that are
    empty after trimming, those of white space only. *)
Theorem preprocessText_is_empty_for_blank_texts (text : string) :
  (preprocessText text = "" <-> trim text = "") /\
  (preprocessText text = "" <-> isBlank text = true).
Proof.
  pose proof (preprocessText_blank text) as H.
  split; [|exact H]. rewrite H, trim_empty. tauto.
Qed.

(** X20. [validateText] accepts a text exactly when it has a code unit
    that is not white space and at most 1000000 code units; a text it
    accepts is not empty after preprocessing, and a blank text is refused
    as empty whatever its length. *)
Theorem validateText_accepts_visible_texts (text : string) :
  (isValid (validateText text) = true <->
   isBlank text = false /\ (Z.of_nat (String.length text) <= 1000000)%Z) /\
  (isValid (validateText text) = true ->
   preprocessText text <> "" /\ error (validateText text) = None) /\
  (isBlank text = true ->
   validateText text
   = {| isValid := false; error := Some "Text cannot be empty" |}).
Proof.
  assert (Hempty : String.eqb text "" || (Z.of_nat (String.length (trim text)) =? 0)%Z
                   = isBlank text).
  { destruct (isBlank text) eqn:Hb.
    - apply trim_empty in Hb. rewrite Hb. apply orb_true_r.
    - apply orb_false_iff. split.
      + apply String.eqb_neq. intros ->. discriminate.
      + apply Z.eqb_neq. intros H.
        assert (Ht : trim text = "").
        { destruct (trim text); [reflexivity | simpl in H; lia]. }
        apply trim_empty in Ht. congruence. }
  unfold validateText. rewrite Hempty.
  split; [| split].
  - destruct (isBlank text); simpl.
    + split; [discriminate | intros [H _]; discriminate].
    + destruct (1000000 <? Z.of_nat (String.length text))%Z eqn:Hlong; simpl.
      * apply Z.ltb_lt in Hlong. split; [discriminate | intros [_ H]; lia].
      * apply Z.ltb_ge in Hlong. split; [intros _; split; [reflexivity | lia] | reflexivity].
  - destruct (isBlank text) eqn:Hb; simpl; [discriminate|].
    destruct (1000000 <? Z.of_nat (String.length text))%Z; simpl; [discriminate|].
    intros _. split; [|reflexivity].
    intros H. apply preprocessText_blank in H. congruence.
  - intros ->. reflexivity.
Qed.

End TextFacts.

(** ** The fallback tokenizer *)

Module FallbackFacts.
Import TextUtils TextShape Fallback TextFacts.
Local Open Scope string_scope.
Local Open Scope Z_scope.

Section MapFacts.
Variables K V : Type.
Variable sameKey : K -> K -> bool.
Hypothesis sameKey_eq : forall a b, sameKey a b = true <-> a = b.

Lemma mapGet_mapSet (entries : list (K * V)) (key key' : K) (value : V) :
  mapGet sameKey (mapSet sameKey entries key value) key'
  = if sameKey key key' then Some value else mapGet sameKey entries key'.
Proof.
  induction entries as [|[k v] rest IH]; simpl; [reflexivity|].
  destruct (sameKey k key) eqn:Hk; simpl.
  - apply sameKey_eq in Hk. subst k.
    destruct (sameKey key key'); reflexivity.
  - destruct (sameKey k key') eqn:Hk'; [|exact IH].
    apply sameKey_eq in Hk'. subst k.
    destruct (sameKey key key') eqn:Hkey; [|reflexivity].
    apply sameKey_eq in Hkey. subst key'.
    rewrite (proj2 (sameKey_eq key key) eq_refl) in Hk. discriminate.
Qed.
End MapFacts.

Lemma vocab_set (entries : list (string * Z)) (token token' : string) (id : Z) :
  mapGet String.eqb (mapSet String.eqb entries token id) token'
  = if String.eqb token token' then Some id else mapGet String.eqb entries token'.
Proof. apply mapGet_mapSet. apply String.eqb_eq. Qed.

Lemma reverseVocab_set (entries : list (Z * string)) (id id' : Z) (token : string) :
  mapGet Z.eqb (mapSet Z.eqb entries id token) id'
  = if Z.eqb id id' then Some token else mapGet Z.eqb entries id'.
Proof. apply mapGet_mapSet. apply Z.eqb_eq. Qed.

Lemma extends_refl (t : SimpleTokenizer) : extends t t.
Proof. intros token id H. exact H. Qed.

Lemma extends_trans (t1 t2 t3 : SimpleTokenizer) :
  extends t1 t2 -> extends t2 t3 -> extends t1 t3.
Proof. intros H12 H23 token id H. apply H23, H12, H. Qed.

Lemma addToken_consistent (token : string) (t : SimpleTokenizer) :
  consistent t ->
  consistent (snd (addToken token t)) /\
  extends t (snd (addToken token t)) /\
  mapGet String.eqb (vocab (snd (addToken token t))) token
  = Some (fst (addToken token t)).
Proof.
  intros (Hnext & Hvocab & Hreverse). unfold addToken.
  destruct (mapGet String.eqb (vocab t) token) as [id|] eqn:Hget;
    cbn [fst snd]; unfold consistent, extends; cbn [vocab reverseVocab nextId].
  - split; [split; [exact Hnext | split; assumption]|].
    split; [apply extends_refl | exact Hget].
  - split; [split; [lia | split]| split].
    + intros token' id'. rewrite vocab_set, reverseVocab_set.
      destruct (String.eqb token token') eqn:Htoken.
      * apply String.eqb_eq in Htoken. subst token'.
        intros H. injection H as <-. rewrite Z.eqb_refl. split; [lia | reflexivity].
      * intros H. destruct (Hvocab token' id' H) as [Hrange Hback].
        destruct (Z.eqb (nextId t) id') eqn:Hid;
          [apply Z.eqb_eq in Hid; lia|].
        split; [lia | exact Hback].
    + intros id' token'. rewrite vocab_set, reverseVocab_set.
      destruct (Z.eqb (nextId t) id') eqn:Hid.
      * apply Z.eqb_eq in Hid. subst id'.
        intros H. injection H as <-. rewrite String.eqb_refl. reflexivity.
      * intros H. pose proof (Hreverse id' token' H) as Hforth.
        destruct (String.eqb token token') eqn:Htoken; [|exact Hforth].
        apply String.eqb_eq in Htoken. subst token'. congruence.
    + intros token' id' H. rewrite vocab_set.
      destruct (String.eqb token token') eqn:Htoken; [|exact H].
      apply String.eqb_eq in Htoken. subst token'. congruence.
    + rewrite vocab_set, String.eqb_refl. reflexivity.
Qed.

Local Abbreviation nonEmpty :=
  (fun word : string => negb (Nat.eqb (String.length word) 0)).

Lemma encodeWords_spec (words : list string) :
  forall (t : SimpleTokenizer) (tokens : list Z),
    consistent t ->
    exists new t',
      encodeWords words t tokens = ((tokens ++ new)%list, t') /\
      consistent t' /\ extends t t' /\
      Forall2 (fun word id => mapGet String.eqb (vocab t') word = Some id)
              (filter nonEmpty words) new.
Proof.
  induction words as [|word rest IH]; intros t tokens Ht; simpl.
  - exists [], t. rewrite app_nil_r.
    split; [reflexivity|]. split; [exact Ht|].
    split; [apply extends_refl | constructor].
  - destruct (Nat.eqb (String.length word) 0) eqn:Hword; simpl.
    + apply IH. exact Ht.
    + destruct (mapGet String.eqb (vocab t) word) as [id|] eqn:Hget.
      * destruct (IH t (tokens ++ [id])%list Ht)
          as (new & t' & Hrun & Ht' & Hext & Hall).
        exists (id :: new), t'. rewrite Hrun, <- app_assoc.
        split; [reflexivity|]. split; [exact Ht'|]. split; [exact Hext|].
        constructor; [apply Hext, Hget | exact Hall].
      * destruct (addToken_consistent word t Ht) as (H1 & Hext1 & Hid).
        destruct (addToken word t) as [id t1]. simpl in H1, Hext1, Hid.
        destruct (IH t1 (tokens ++ [id])%list H1)
          as (new & t' & Hrun & Ht' & Hext & Hall).
        exists (id :: new), t'. rewrite Hrun, <- app_assoc.
        split; [reflexivity|]. split; [exact Ht'|].
        split; [apply (extends_trans _ _ _ Hext1 Hext)|].
        constructor; [apply Hext, Hid | exact Hall].
Qed.

Lemma encodeWords_known (words : list string) :
  forall (t : SimpleTokenizer) (tokens ids : list Z),
    Forall2 (fun word id => mapGet String.eqb (vocab t) word = Some id)
            (filter nonEmpty words) ids ->
    encodeWords words t tokens = ((tokens ++ ids)%list, t).
Proof.
  induction words as [|word rest IH]; intros t tokens ids Hall; simpl in *.
  - inversion Hall. rewrite app_nil_r. reflexivity.
  - destruct (Nat.eqb (String.length word) 0); simpl in Hall.
    + apply IH. exact Hall.
    + inversion Hall as [|? id ? ids' Hget Hrest]; subst.
      rewrite Hget, (IH t _ ids' Hrest), <- app_assoc. reflexivity.
Qed.

Lemma encodeWords_length (words : list string) :
  forall (t : SimpleTokenizer) (tokens : list Z),
    length (fst (encodeWords words t tokens))
    = (length tokens + length (filter nonEmpty words))%nat.
Proof.
  induction words as [|word rest IH]; intros t tokens; simpl.
  - lia.
  - destruct (Nat.eqb (String.length word) 0); simpl; [apply IH|].
    destruct (mapGet String.eqb (vocab t) word) as [id|].
    + rewrite IH, length_app. simpl. lia.
    + destruct (addToken word t) as [id t1].
      rewrite IH, length_app. simpl. lia.
Qed.

Lemma orUnk_word (word : string) :
  nonEmpty word = true -> orUnk (Some word) = word.
Proof.
  intros H. unfold orUnk. destruct word; [discriminate | reflexivity].
Qed.

Lemma decoded_words (t : SimpleTokenizer) (words : list string) (ids : list Z) :
  consistent t ->
  Forall (fun word => nonEmpty word = true) words ->
  Forall2 (fun word id => mapGet String.eqb (vocab t) word = Some id) words ids ->
  map (fun id => orUnk (mapGet Z.eqb (reverseVocab t) id)) ids = words.
Proof.
  intros (_ & Hvocab & _) Hwords Hall.
  induction Hall as [|word id words ids Hget _ IH]; [reflexivity|].
  inversion Hwords as [|? ? Hword Hrest]; subst. simpl.
  rewrite (proj2 (Hvocab word id Hget)), (orUnk_word word Hword), (IH Hrest).
  reflexivity.
Qed.

Lemma filter_Forall {A : Type} (f : A -> bool) (l : list A) :
  Forall (fun x => f x = true) (filter f l).
Proof.
  apply Forall_forall. intros x Hx. apply filter_In in Hx. apply Hx.
Qed.

(** *** The words of a text *)

Lemma isWhiteSpace_lowerCaseUnit (c : ascii) :
  isWhiteSpace (lowerCaseUnit c) = isWhiteSpace c.
Proof.
  destruct c as [[] [] [] [] [] [] [] []]; reflexivity.
Qed.

Lemma isBlank_toLowerCase (s : string) : isBlank (toLowerCase s) = isBlank s.
Proof.
  induction s as [|c s IH]; simpl; [reflexivity|].
  rewrite isWhiteSpace_lowerCaseUnit, IH. reflexivity.
Qed.

Lemma words_of_pieces (s : string) :
  filter nonEmpty (splitWhiteSpace s) = [] <-> isBlank s = true.
Proof.
  induction s as [|c s IH]; [simpl; tauto|].
  simpl. destruct (isWhiteSpace c) eqn:Hc; simpl.
  - destruct s as [|c' s']; [simpl; tauto|].
    destruct (isWhiteSpace c') eqn:Hc'; [exact IH|].
    simpl filter at 1. exact IH.
  - split; [|discriminate].
    destruct (splitWhiteSpace s); discriminate.
Qed.

Lemma wordsOf_empty (text : string) :
  wordsOf text = [] <-> isBlank text = true.
Proof.
  unfold wordsOf. rewrite words_of_pieces. rewrite isBlank_toLowerCase. tauto.
Qed.

Lemma fold_addToken_consistent (tokens : list string) (t : SimpleTokenizer) :
  consistent t ->
  consistent (fold_left (fun t token => snd (addToken token t)) tokens t).
Proof.
  revert t. induction tokens as [|token tokens IH]; intros t Ht; simpl.
  - exact Ht.
  - apply IH. apply (addToken_consistent token t Ht).
Qed.

Lemma encode_spec (text : string) (t : SimpleTokenizer) :
  consistent t ->
  consistent (snd (encode text t)) /\
  extends t (snd (encode text t)) /\
  Forall2 (fun word id =>
             mapGet String.eqb (vocab (snd (encode text t))) word = Some id)
          (wordsOf text) (fst (encode text t)).
Proof.
  intros Ht. unfold encode, wordsOf.
  destruct (encodeWords_spec (splitWhiteSpace (toLowerCase text)) t [] Ht)
    as (new & t' & -> & Ht' & Hext & Hall).
  simpl. auto.
Qed.

Lemma create_consistent : consistent create.
Proof.
  apply fold_addToken_consistent.
  split; [simpl; lia | split; intros ? ? H; discriminate].
Qed.

Lemma encode_decoded (text : string) (t : SimpleTokenizer) :
  consistent t ->
  consistent (snd (encode text t)) /\
  extends t (snd (encode text t)) /\
  map (fun id => decodeToken id (snd (encode text t))) (fst (encode text t))
  = wordsOf text /\
  decode (fst (encode text t)) (snd (encode text t))
  = String.concat " " (wordsOf text).
Proof.
  intros Ht. destruct (encode_spec text t Ht) as (Ht' & Hext & Hall).
  split; [exact Ht'|]. split; [exact Hext|].
  assert (Hwords : map (fun id => orUnk (mapGet Z.eqb
                                           (reverseVocab (snd (encode text t))) id))
                       (fst (encode text t))
                   = wordsOf text).
  { apply (decoded_words _ _ _ Ht'); [apply filter_Forall | exact Hall]. }
  split; [exact Hwords|].
  unfold decode. rewrite Hwords. reflexivity.
Qed.

Lemma encode_length (text : string) (t : SimpleTokenizer) :
  length (fst (encode text t)) = length (wordsOf text).
Proof.
  unfold encode, wordsOf. rewrite encodeWords_length. reflexivity.
Qed.

Lemma encode_nil (text : string) (t : SimpleTokenizer) :
  fst (encode text t) = [] <-> isBlank text = true.
Proof.
  rewrite <- wordsOf_empty.
  split; intros H; apply length_zero_iff_nil.
  - rewrite <- (encode_length text t), H. reflexivity.
  - rewrite (encode_length text t), H. reflexivity.
Qed.

(** X21. Decoding what [encode] returned gives the words of the text,
    in lower case and separated by single spaces; each id decodes to its
    word, so different words have different ids.  The vocabulary keeps
    its earlier entries. *)
Theorem encode_then_decode (text : string) (t : SimpleTokenizer) :
  consistent t ->
  consistent (snd (encode text t)) /\
  extends t (snd (encode text t)) /\
  map (fun id => decodeToken id (snd (encode text t))) (fst (encode text t))
  = wordsOf text /\
  decode (fst (encode text t)) (snd (encode text t))
  = String.concat " " (wordsOf text).
Proof. apply encode_decoded. Qed.

(** X22. Encoding the same text once more gives the same ids and leaves
    the tokenizer as it is. *)
Theorem encode_is_repeatable (text : string) (t : SimpleTokenizer) :
  consistent t ->
  encode text (snd (encode text t)) = (fst (encode text t), snd (encode text t)).
Proof.
  intros Ht. destruct (encode_spec text t Ht) as (_ & _ & Hall).
  unfold encode at 1.
  exact (encodeWords_known _ _ [] _ Hall).
Qed.

(** X23. A new tokenizer has the seventeen special tokens under the ids
    0 to 16 and is consistent; and in a consistent tokenizer an id that is
    negative or not below the next id decodes to the unknown token. *)
Theorem unknown_ids_decode_to_unk :
  (consistent create /\ nextId create = 17 /\
   map (fun id => decodeToken id create) (map Z.of_nat (seq 0 17))
   = specialTokens) /\
  forall (t : SimpleTokenizer) (id : Z),
    consistent t -> id < 0 \/ nextId t <= id ->
    decodeToken id t = "<unk>" /\ decode [id] t = "<unk>".
Proof.
  split.
  - split; [exact create_consistent | split; reflexivity].
  - intros t id (_ & Hvocab & Hreverse) Hid.
    assert (Hnone : mapGet Z.eqb (reverseVocab t) id = None).
    { destruct (mapGet Z.eqb (reverseVocab t) id) as [token|] eqn:Hget;
        [|reflexivity].
      apply Hreverse, Hvocab in Hget. lia. }
    unfold decodeToken, decode. simpl. rewrite Hnone. split; reflexivity.
Qed.

(** X24. [encode] returns one id for each word of the text, whatever the
    vocabulary holds; it returns no id exactly for the texts of white
    space only. *)
Theorem encode_counts_the_words (text : string) (t : SimpleTokenizer) :
  length (fst (encode text t)) = length (wordsOf text) /\
  (fst (encode text t) = [] <-> isBlank text = true).
Proof.
  split; [apply encode_length | apply encode_nil].
Qed.

End FallbackFacts.

(** ** Runs of [analyzeText] *)

Module Session.
Import Analysis Scan Trace Run TextFacts.
Local Open Scope string_scope.
Local Open Scope Z_scope.

Section WithCollaborators.
Context {N : Number} {World : Type}.
Variable tokenizerService : TokenizerService World.
Variable modelService : ModelService World.

Local Abbreviation analyzeTokenSequence := (analyzeTokenSequence tokenizerService modelService).
Local Abbreviation analyzeText := (analyzeText tokenizerService modelService).

Lemma encode_loaded (text : string) (w w' : World) (tokenIds : list Z) :
  encode tokenizerService text w = (Normal tokenIds, w') ->
  exists tk, tokenizer tokenizerService = Some tk.
Proof.
  unfold encode. destruct (tokenizer tokenizerService) as [tk|].
  - intros _. exists tk. reflexivity.
  - discriminate.
Qed.

(** The report that ends a run over [n] tokens. *)
Local Abbreviation complete n :=
  (Notified {| current := Z.of_nat n; total := Z.of_nat n;
               percentage := ofZ 100; currentToken := "Complete!" |}).

(** A run in which the tokenizer returned tokens. *)
Lemma analyzeText_encoded (text : string) (config : option AnalysisConfig)
      (onProgress : option (ProgressCallback World)) (m m' : Machine World)
      (outcome : Completion (list AnalysisResult)) (events : list Event)
      (cleanText : string) (tokens : list Z) :
  analyzeText text config onProgress m = (outcome, m', events) ->
  In (Encoded cleanText (Normal tokens)) events ->
  tokens <> [] ->
  let limited := slice0 tokens (maxLengthOr config (Z.of_nat (length tokens))) in
  exists results before,
    outcome = Normal results /\
    map tokenId results = limited /\
    map position results = seq 0 (length limited) /\
    events = (before ++ [complete (length limited)])%list /\
    isAnalyzing m' = false /\ progressCallbacks m' = [].
Proof.
  unfold Analysis.analyzeText. intros Hrun Hin Hne.
  destruct (isAnalyzing m) eqn:Hbusy.
  { injection Hrun as <- <- <-. destruct Hin. }
  unfold tryFinally, tryCatch, analyzeTextBody in Hrun.
  destruct (String.eqb (TextUtils.preprocessText text) "") eqn:Hclean.
  { simpl in Hrun. injection Hrun as <- <- <-. destruct Hin. }
  unfold bind, notifyProgress, call, throw in Hrun. cbn [world withWorld] in Hrun.
  match type of Hrun with
  | context [encode tokenizerService ?t ?w] =>
      destruct (encode tokenizerService t w) as [[tokenIds|e] w'] eqn:Henc
  end.
  2:{ exfalso. simpl in Hrun. injection Hrun as <- <- <-. simpl in Hin.
      destruct Hin as [H|[H|[]]]; discriminate. }
  destruct (encode_loaded _ _ _ _ Henc) as [tk Htk].
  destruct (Z.of_nat (length tokenIds) =? 0) eqn:Hzero.
  { exfalso. apply Z.eqb_eq in Hzero.
    assert (tokenIds = []) by (apply length_zero_iff_nil; lia). subst tokenIds.
    simpl in Hrun. injection Hrun as <- <- <-. simpl in Hin.
    destruct Hin as [H|[H|[]]]; [discriminate|].
    injection H as _ H. apply Hne. symmetry. exact H. }
  match type of Hrun with
  | context [Analysis.analyzeTokenSequence ?ts ?ms ?ids ?m0] =>
      pose proof (Engine.analyzeTokenSequence_notEncoded ts ms ids m0) as Hscan;
      destruct (scan_loaded ts ms tk ids m0 Htk)
        as (inits & preds & m1 & Hseq & Hinit & Hpred);
      rewrite Hseq in Hrun, Hscan
  end.
  simpl in Hrun, Hscan. injection Hrun as <- <- <-.
  assert (Htokens : tokens = tokenIds).
  { simpl in Hin. destruct Hin as [H|[H|[H|H]]]; try discriminate.
    - injection H as _ H. symmetry. exact H.
    - exfalso. apply in_app_or in H. destruct H as [H|[H|[]]].
      + rewrite Forall_forall in Hscan. apply (Hscan _ H).
      + discriminate. }
  subst tokenIds. cbv zeta.
  destruct (scan_positions _ inits preds Hinit Hpred) as [Hpos Hids].
  eexists _, _. split; [reflexivity|].
  split; [exact Hids|]. split; [exact Hpos|].
  split; [| split; reflexivity].
  change (?a :: ?b :: ?c :: ?l ++ [?z])%list
    with (([a; b; c] ++ l) ++ [z])%list.
  reflexivity.
Qed.

Lemma limited_tokens (config : option AnalysisConfig) (tokens : list Z) :
  let limited := slice0 tokens (maxLengthOr config (Z.of_nat (length tokens))) in
  (configuredMaxLength config = None \/ configuredMaxLength config = Some 0 ->
   limited = tokens) /\
  (forall n, configuredMaxLength config = Some n -> 0 < n ->
             limited = firstn (Z.to_nat n) tokens) /\
  (forall n, configuredMaxLength config = Some n -> n < 0 ->
             limited = firstn (length tokens - Z.to_nat (- n)) tokens).
Proof.
  assert (Hall : slice0 tokens (Z.of_nat (length tokens)) = tokens).
  { unfold slice0. destruct (Z.of_nat (length tokens) <? 0) eqn:H.
    - apply Z.ltb_lt in H. lia.
    - rewrite Nat2Z.id. apply firstn_all. }
  unfold maxLengthOr, configuredMaxLength.
  destruct config as [[[n|]]|]; cbv zeta.
  - split; [| split].
    + intros [H|H]; [discriminate|]. injection H as ->. exact Hall.
    + intros n' H Hn. injection H as <-.
      destruct (n =? 0) eqn:H0; [apply Z.eqb_eq in H0; lia|].
      unfold slice0. destruct (n <? 0) eqn:H1; [apply Z.ltb_lt in H1; lia|].
      reflexivity.
    + intros n' H Hn. injection H as <-.
      destruct (n =? 0) eqn:H0; [apply Z.eqb_eq in H0; lia|].
      unfold slice0. destruct (n <? 0) eqn:H1; [|apply Z.ltb_ge in H1; lia].
      f_equal. lia.
  - split; [intros _; exact Hall | split; intros n H; discriminate].
  - split; [intros _; exact Hall | split; intros n H; discriminate].
Qed.

(** X14. When the tokenizer has returned tokens for the text, the run
    returns, whatever the predictor does: one result for each token that
    is analysed, with the positions from 0 on and the token ids in the
    order of the tokenizer, and the last report is the completion. *)
Theorem analysis_returns_a_result_per_token
        (text : string) (config : option AnalysisConfig)
        (onProgress : option (ProgressCallback World)) (m m' : Machine World)
        (outcome : Completion (list AnalysisResult)) (events : list Event)
        (cleanText : string) (tokens : list Z) :
  analyzeText text config onProgress m = (outcome, m', events) ->
  In (Encoded cleanText (Normal tokens)) events ->
  tokens <> [] ->
  let limited := slice0 tokens (maxLengthOr config (Z.of_nat (length tokens))) in
  exists results before,
    outcome = Normal results /\
    map tokenId results = limited /\
    map position results = seq 0 (length limited) /\
    events = (before ++ [complete (length limited)])%list.
Proof.
  intros Hrun Hin Hne limited.
  destruct (analyzeText_encoded text config onProgress m m' outcome events
              cleanText tokens Hrun Hin Hne)
    as (results & before & H1 & H2 & H3 & H4 & _).
  exists results, before. repeat split; assumption.
Qed.

(** X15. The limit [maxLength] of the configuration: left out, or 0, it
    limits nothing; a positive limit keeps that many tokens from the
    start; a negative one drops that many tokens from the end, possibly
    all of them. *)
Theorem maxLength_limits_the_tokens
        (text : string) (config : option AnalysisConfig)
        (onProgress : option (ProgressCallback World)) (m m' : Machine World)
        (outcome : Completion (list AnalysisResult)) (events : list Event)
        (cleanText : string) (tokens : list Z) :
  analyzeText text config onProgress m = (outcome, m', events) ->
  In (Encoded cleanText (Normal tokens)) events ->
  tokens <> [] ->
  exists results,
    outcome = Normal results /\
    (configuredMaxLength config = None \/ configuredMaxLength config = Some 0 ->
     map tokenId results = tokens) /\
    (forall n, configuredMaxLength config = Some n -> 0 < n ->
               map tokenId results = firstn (Z.to_nat n) tokens) /\
    (forall n, configuredMaxLength config = Some n -> n < 0 ->
               map tokenId results
               = firstn (length tokens - Z.to_nat (- n)) tokens).
Proof.
  intros Hrun Hin Hne.
  destruct (analyzeText_encoded text config onProgress m m' outcome events
              cleanText tokens Hrun Hin Hne)
    as (results & before & H1 & H2 & _).
  exists results. split; [exact H1|]. rewrite H2.
  apply limited_tokens.
Qed.

(** X16. A run that starts on an idle engine leaves it idle, with no
    subscriber left, whether it returns or throws; and what it throws is
    an error whose message starts with the words for a failed analysis. *)
Theorem engine_is_released (text : string) (config : option AnalysisConfig)
        (onProgress : option (ProgressCallback World)) (m m' : Machine World)
        (outcome : Completion (list AnalysisResult)) (events : list Event) :
  analyzeText text config onProgress m = (outcome, m', events) ->
  isAnalyzing m = false ->
  isRunning m' = false /\ progressCallbacks m' = [] /\
  forall error, outcome = Throw error ->
                exists message, error = JSError ("Analysis failed: " ++ message).
Proof.
  unfold Analysis.analyzeText. intros Hrun Hidle. rewrite Hidle in Hrun.
  unfold tryFinally, tryCatch, throw in Hrun.
  match type of Hrun with
  | context [analyzeTextBody ?ts ?ms ?t ?c ?m0] =>
      destruct (analyzeTextBody ts ms t c m0) as [[[results|e] m1] ev]
  end; injection Hrun as <- <- <-.
  - split; [reflexivity|]. split; [reflexivity|]. discriminate.
  - split; [reflexivity|]. split; [reflexivity|].
    intros error H. injection H as <-. eexists. reflexivity.
Qed.

(** A run on an idle engine with a text that is not empty after
    preprocessing begins with the call of the tokenizer. *)
Lemma analyzeText_tokenizes (text : string) (config : option AnalysisConfig)
      (onProgress : option (ProgressCallback World)) (m m' : Machine World)
      (outcome : Completion (list AnalysisResult)) (events : list Event) :
  analyzeText text config onProgress m = (outcome, m', events) ->
  isAnalyzing m = false ->
  TextUtils.preprocessText text <> "" ->
  exists first w after,
    events = Notified first
             :: Encoded (TextUtils.preprocessText text)
                        (fst (encode tokenizerService
                                     (TextUtils.preprocessText text) w))
             :: after /\
    Forall notEncoded after.
Proof.
  unfold Analysis.analyzeText. intros Hrun Hidle Hclean. rewrite Hidle in Hrun.
  unfold tryFinally, tryCatch, analyzeTextBody in Hrun.
  apply String.eqb_neq in Hclean. rewrite Hclean in Hrun.
  unfold bind, notifyProgress, call, throw in Hrun. cbn [world withWorld] in Hrun.
  match type of Hrun with
  | context [encode tokenizerService ?t ?w] =>
      exists {| current := 0; total := 100; percentage := ofZ 5;
                currentToken := "Tokenizing..." |}, w;
      destruct (encode tokenizerService t w) as [[tokenIds|e] w'] eqn:Henc
  end.
  2:{ simpl in Hrun. injection Hrun as <- <- <-.
      eexists. split; [reflexivity | constructor]. }
  destruct (Z.of_nat (length tokenIds) =? 0).
  { simpl in Hrun. injection Hrun as <- <- <-.
    eexists. split; [reflexivity | constructor]. }
  match type of Hrun with
  | context [Analysis.analyzeTokenSequence ?ts ?ms ?ids ?m0] =>
      pose proof (Engine.analyzeTokenSequence_notEncoded ts ms ids m0) as Hscan;
      destruct (Analysis.analyzeTokenSequence ts ms ids m0)
        as [[[results|e] m1] ev1]
  end; simpl in Hrun, Hscan; injection Hrun as <- <- <-;
    (eexists; split; [reflexivity|]).
  - constructor; [exact I|]. apply Forall_app. split; [exact Hscan|].
    repeat constructor.
  - constructor; [exact I|]. rewrite app_nil_r. exact Hscan.
Qed.

(** X25. On an idle engine, a text that is not empty after trimming
    reaches the tokenizer: the run calls [encode] with the preprocessed
    text, once, before any other call to a collaborator. *)
Theorem visible_text_reaches_the_tokenizer
        (text : string) (config : option AnalysisConfig)
        (onProgress : option (ProgressCallback World)) (m m' : Machine World)
        (outcome : Completion (list AnalysisResult)) (events : list Event) :
  analyzeText text config onProgress m = (outcome, m', events) ->
  isAnalyzing m = false ->
  TextUtils.trim text <> "" ->
  exists first encoded after,
    events = Notified first
             :: Encoded (TextUtils.preprocessText text) encoded :: after /\
    Forall notEncoded after.
Proof.
  intros Hrun Hidle Htrim.
  assert (Hclean : TextUtils.preprocessText text <> "").
  { intros H. apply Htrim. apply trim_empty. apply preprocessText_blank. exact H. }
  destruct (analyzeText_tokenizes text config onProgress m m' outcome events
              Hrun Hidle Hclean) as (first & w & after & Hev & Hafter).
  eexists _, _, _. split; [exact Hev | exact Hafter].
Qed.

End WithCollaborators.

Import Fallback FallbackFacts.

Lemma fallback_encode (text : string) (t : SimpleTokenizer) :
  Analysis.encode fallbackService text t
  = (Normal (fst (Fallback.encode text t)), snd (Fallback.encode text t)).
Proof.
  unfold Analysis.encode. simpl. destruct (Fallback.encode text t). reflexivity.
Qed.

(** X26. With the fallback tokenizer, the run on an idle engine of a text
    that is not empty after trimming returns, whatever the model does;
    without a limit it returns one result for each word of the
    preprocessed text. *)
Theorem fallback_analysis_returns {N : Number}
        (modelService : ModelService SimpleTokenizer)
        (text : string) (config : option AnalysisConfig)
        (onProgress : option (ProgressCallback SimpleTokenizer))
        (m m' : Machine SimpleTokenizer)
        (outcome : Completion (list AnalysisResult)) (events : list Event) :
  Analysis.analyzeText fallbackService modelService text config onProgress m
  = (outcome, m', events) ->
  isAnalyzing m = false ->
  TextUtils.trim text <> "" ->
  exists results,
    outcome = Normal results /\
    (configuredMaxLength config = None \/ configuredMaxLength config = Some 0 ->
     length results = length (wordsOf (TextUtils.preprocessText text))).
Proof.
  intros Hrun Hidle Htrim.
  assert (Hblank : TextShape.isBlank (TextUtils.preprocessText text) = false).
  { destruct (TextShape.isBlank (TextUtils.preprocessText text)) eqn:Hb;
      [|reflexivity].
    exfalso. apply Htrim. apply trim_empty. apply preprocessText_blank.
    rewrite <- (proj2 (proj2 (proj2 (preprocessed_shape text)))).
    apply trim_empty. exact Hb. }
  assert (Hclean : TextUtils.preprocessText text <> "").
  { intros H. rewrite H in Hblank. discriminate. }
  destruct (analyzeText_tokenizes fallbackService modelService
              text config onProgress m m' outcome events Hrun Hidle Hclean)
    as (first & w & after & Hev & _).
  rewrite fallback_encode in Hev. simpl in Hev.
  assert (Htokens : fst (Fallback.encode (TextUtils.preprocessText text) w) <> []).
  { intros H. apply (encode_nil _ w) in H. congruence. }
  destruct (analyzeText_encoded fallbackService modelService
              text config onProgress m m' outcome events
              (TextUtils.preprocessText text) _ Hrun
              ltac:(rewrite Hev; right; left; reflexivity) Htokens)
    as (results & before & Hout & Hids & _).
  exists results. split; [exact Hout|].
  intros Hconfig.
  rewrite <- (length_map tokenId), Hids.
  rewrite (proj1 (limited_tokens config _) Hconfig).
  apply encode_length.
Qed.

End Session.

(** ** Runs with the fallback tokenizer *)

Module FallbackRun.
Import Analysis Trace Run Fallback FallbackFacts TextFacts.
Local Open Scope string_scope.
Local Open Scope Z_scope.

Lemma fallback_decodeToken (tokenId : Z) (t : SimpleTokenizer) :
  Analysis.decodeToken fallbackService tokenId t
  = (Normal (Fallback.decodeToken tokenId t), t).
Proof. reflexivity. Qed.

Section WithModel.
Context {N : Number}.
Variable modelService : ModelService SimpleTokenizer.

(** The model does not touch the tokenizer. *)
Hypothesis model_is_apart :
  forall inputIds t, snd (runInference modelService inputIds t) = t.

Variable callbacks : list (ProgressCallback SimpleTokenizer).

(** Neither do the subscribers. *)
Hypothesis callbacks_are_apart :
  forall callback, In callback callbacks ->
                   forall progress t, snd (callback progress t) = t.

Local Abbreviation settled t m :=
  (world m = t /\ progressCallbacks m = callbacks).

Lemma runCallbacks_apart (progress : AnalysisProgress) (t : SimpleTokenizer) :
  runCallbacks callbacks progress t = t.
Proof.
  revert t. induction callbacks as [|callback rest IH]; intros t; simpl.
  - reflexivity.
  - rewrite (callbacks_are_apart callback (or_introl eq_refl)).
    apply IH. intros c Hc. apply callbacks_are_apart. right. exact Hc.
Qed.

Lemma notifyProgress_apart (progress : AnalysisProgress)
      (m : Machine SimpleTokenizer) (t : SimpleTokenizer) :
  settled t m ->
  exists m', notifyProgress progress m = (Normal tt, m', [Notified progress]) /\
             settled t m'.
Proof.
  intros [Hw Hc]. unfold notifyProgress.
  rewrite Hc, runCallbacks_apart, Hw.
  eexists. split; [reflexivity|]. split; [reflexivity | exact Hc].
Qed.

Lemma processInitial_fallback (tokenIds : list Z) (i : nat)
      (results : list AnalysisResult) (m : Machine SimpleTokenizer)
      (t : SimpleTokenizer) :
  settled t m ->
  exists r m' events,
    processInitial fallbackService tokenIds i results m
    = (Normal (results ++ [r])%list, m', events) /\
    settled t m' /\
    token r = Fallback.decodeToken (nth i tokenIds 0) t /\
    tokenId r = nth i tokenIds 0.
Proof.
  intros [Hw Hc].
  unfold processInitial, bind, call.
  rewrite fallback_decodeToken. cbn [fst snd].
  destruct (notifyProgress_apart
              (progressAt tokenIds i (Fallback.decodeToken (nth i tokenIds 0) (world m)))
              (withWorld (world m) m) t) as (m' & Hn & Hs).
  { split; [exact Hw | exact Hc]. }
  rewrite Hn. cbn. eexists _, _, _. split; [reflexivity|].
  split; [exact Hs|]. rewrite Hw. split; reflexivity.
Qed.

Lemma processPredicted_fallback (tokenIds : list Z) (i : nat)
      (results : list AnalysisResult) (m : Machine SimpleTokenizer)
      (t : SimpleTokenizer) :
  settled t m ->
  exists r m' events,
    processPredicted fallbackService modelService tokenIds i results m
    = (Normal (results ++ [r])%list, m', events) /\
    settled t m' /\
    token r = Fallback.decodeToken (nth i tokenIds 0) t /\
    tokenId r = nth i tokenIds 0.
Proof.
  intros [Hw Hc].
  unfold processPredicted, bind, tryCatch, call.
  rewrite fallback_decodeToken. cbn [fst snd world withWorld].
  pose proof (model_is_apart (firstn i tokenIds) (world m)) as Hquiet.
  destruct (runInference modelService (firstn i tokenIds) (world m))
    as [[inferenceResult|e] t'']; simpl in Hquiet; subst t''.
  - cbn [ret app].
    match goal with
    | |- context [notifyProgress ?p ?m0] =>
        destruct (notifyProgress_apart p m0 t) as (m' & Hn & Hs);
          [split; [exact Hw | exact Hc] | rewrite Hn]
    end.
    cbn. eexists _, _, _. split; [reflexivity|].
    split; [exact Hs|]. rewrite Hw. split; reflexivity.
  - cbn [ret app].
    match goal with
    | |- context [notifyProgress ?p ?m0] =>
        destruct (notifyProgress_apart p m0 t) as (m' & Hn & Hs);
          [split; [exact Hw | exact Hc] | rewrite Hn]
    end.
    cbn. eexists _, _, _. split; [reflexivity|].
    split; [exact Hs|]. rewrite Hw. split; reflexivity.
Qed.

Lemma forEach_settled
      (body : nat -> list AnalysisResult
              -> M SimpleTokenizer (list AnalysisResult))
      (step : nat -> AnalysisResult -> Prop) (t : SimpleTokenizer)
      (l : list nat) :
  (forall i results m, settled t m ->
     exists r m' events,
       body i results m = (Normal (results ++ [r])%list, m', events) /\
       settled t m' /\ step i r) ->
  forall results m, settled t m ->
  exists more m' events,
    forEach l body results m = (Normal (results ++ more)%list, m', events) /\
    settled t m' /\ Forall2 step l more.
Proof.
  intros Hbody. induction l as [|i l IH]; intros results m Hm; simpl.
  - exists [], m, []. rewrite app_nil_r.
    split; [reflexivity|]. split; [exact Hm | constructor].
  - unfold bind.
    destruct (Hbody i results m Hm) as (r & m1 & ev1 & -> & Hm1 & Hstep).
    destruct (IH (results ++ [r])%list m1 Hm1) as (more & m2 & ev2 & -> & Hm2 & Hall).
    exists (r :: more), m2, (ev1 ++ ev2)%list. rewrite <- app_assoc.
    split; [reflexivity|]. split; [exact Hm2|]. constructor; assumption.
Qed.

Lemma scan_fallback (tokenIds : list Z) (m : Machine SimpleTokenizer)
      (t : SimpleTokenizer) :
  settled t m ->
  exists results m' events,
    analyzeTokenSequence fallbackService modelService tokenIds m
    = (Normal results, m', events) /\
    settled t m' /\
    map token results = map (fun id => Fallback.decodeToken id t) tokenIds /\
    map tokenId results = tokenIds.
Proof.
  intros Hm. unfold analyzeTokenSequence, bind.
  set (prefix := Nat.min INITIAL_TOKENS_COUNT (length tokenIds)).
  set (step := fun (i : nat) (r : AnalysisResult) =>
                 token r = Fallback.decodeToken (nth i tokenIds 0) t /\
                 tokenId r = nth i tokenIds 0).
  destruct (forEach_settled (processInitial fallbackService tokenIds) step t
              (seq 0 prefix)
              (fun i results m0 H => processInitial_fallback tokenIds i results m0 t H)
              [] m Hm) as (rs1 & m1 & ev1 & -> & Hm1 & H1).
  destruct (forEach_settled
              (processPredicted fallbackService modelService tokenIds) step t
              (seq prefix (length tokenIds - prefix))
              (fun i results m0 H => processPredicted_fallback tokenIds i results m0 t H)
              ([] ++ rs1)%list m1 Hm1) as (rs2 & m2 & ev2 & -> & Hm2 & H2).
  eexists _, _, _. split; [reflexivity|]. split; [exact Hm2|].
  pose proof (Forall2_app H1 H2) as Hall.
  rewrite <- seq_app in Hall.
  replace (prefix + (length tokenIds - prefix))%nat with (length tokenIds)
    in Hall by (unfold prefix; lia).
  simpl app.
  assert (Hmaps : forall (l : list nat) (rs : list AnalysisResult),
             Forall2 step l rs ->
             map token rs
             = map (fun i => Fallback.decodeToken (nth i tokenIds 0) t) l /\
             map tokenId rs = map (fun i => nth i tokenIds 0) l).
  { induction 1 as [|i r l rs [Ht Hi] _ [IH1 IH2]]; [split; reflexivity|].
    simpl. rewrite Ht, Hi, IH1, IH2. split; reflexivity. }
  destruct (Hmaps _ _ Hall) as [Ht Hi].
  rewrite Ht, Hi. split.
  - rewrite <- (map_nth_seq tokenIds 0) at 2. rewrite map_map. reflexivity.
  - apply map_nth_seq.
Qed.

Lemma analyzeTextBody_fallback (text : string) (config : option AnalysisConfig)
      (m : Machine SimpleTokenizer) (t : SimpleTokenizer) :
  settled t m ->
  TextShape.isBlank (TextUtils.preprocessText text) = false ->
  exists results m' events,
    analyzeTextBody fallbackService modelService text config m
    = (Normal results, m', events) /\
    world m' = snd (Fallback.encode (TextUtils.preprocessText text) t) /\
    map token results
    = map (fun id => Fallback.decodeToken
                       id (snd (Fallback.encode (TextUtils.preprocessText text) t)))
          (slice0 (fst (Fallback.encode (TextUtils.preprocessText text) t))
                  (maxLengthOr config
                     (Z.of_nat (length (fst (Fallback.encode
                                               (TextUtils.preprocessText text) t)))))).
Proof.
  intros Hm Hblank.
  assert (Hclean : String.eqb (TextUtils.preprocessText text) "" = false).
  { apply String.eqb_neq. intros H. rewrite H in Hblank. discriminate. }
  unfold analyzeTextBody. rewrite Hclean. unfold bind.
  match goal with
  | |- context [notifyProgress ?p m] =>
      destruct (notifyProgress_apart p m t Hm) as (m1 & -> & [Hw1 Hc1])
  end.
  unfold call at 1. rewrite Session.fallback_encode, Hw1. cbn [fst snd].
  set (clean := TextUtils.preprocessText text) in *.
  set (tokenIds := fst (Fallback.encode clean t)).
  set (t' := snd (Fallback.encode clean t)).
  assert (Hzero : (Z.of_nat (length tokenIds) =? 0) = false).
  { apply Z.eqb_neq. intros H.
    assert (Hnil : tokenIds = []) by (apply length_zero_iff_nil; lia).
    apply (encode_nil clean t) in Hnil. congruence. }
  rewrite Hzero.
  match goal with
  | |- context [notifyProgress ?p ?m0] =>
      destruct (notifyProgress_apart p m0 t') as (m2 & -> & Hm2);
        [split; [reflexivity | exact Hc1]|]
  end.
  destruct (scan_fallback
              (slice0 tokenIds (maxLengthOr config (Z.of_nat (length tokenIds))))
              m2 t' Hm2) as (results & m3 & ev3 & -> & Hm3 & Htokens & _).
  match goal with
  | |- context [notifyProgress ?p m3] =>
      destruct (notifyProgress_apart p m3 t' Hm3) as (m4 & -> & [Hw4 _])
  end.
  cbn. eexists _, _, _. split; [reflexivity|]. split; [exact Hw4 | exact Htokens].
Qed.

End WithModel.

Lemma map_slice0 {A B : Type} (f : A -> B) (l : list A) (k : Z) :
  map f (slice0 l k) = slice0 (map f l) k.
Proof.
  unfold slice0. rewrite length_map.
  destruct (k <? 0); symmetry; apply firstn_map.
Qed.

(** X27. With the fallback tokenizer, when neither the model nor the
    subscribers touch the tokenizer, the run on an idle engine of a text
    that is not empty after trimming returns the words of the
    preprocessed text as the tokens of its results, in their order and as
    many as the limit allows; the tokenizer stays consistent and keeps its
    vocabulary. *)
Theorem fallback_tokens_are_the_words {N : Number}
        (modelService : ModelService SimpleTokenizer)
        (text : string) (config : option AnalysisConfig)
        (onProgress : option (ProgressCallback SimpleTokenizer))
        (m m' : Machine SimpleTokenizer)
        (outcome : Completion (list AnalysisResult)) (events : list Event) :
  Analysis.analyzeText fallbackService modelService text config onProgress m
  = (outcome, m', events) ->
  isAnalyzing m = false ->
  consistent (world m) ->
  TextUtils.trim text <> "" ->
  (forall inputIds t, snd (runInference modelService inputIds t) = t) ->
  (forall callback,
      In callback (progressCallbacks m) \/ onProgress = Some callback ->
      forall progress t, snd (callback progress t) = t) ->
  exists results,
    outcome = Normal results /\
    map token results
    = slice0 (wordsOf (TextUtils.preprocessText text))
             (maxLengthOr config
                (Z.of_nat (length (wordsOf (TextUtils.preprocessText text))))) /\
    consistent (world m') /\ extends (world m) (world m').
Proof.
  intros Hrun Hidle Hconsistent Htrim Hmodel Hcallbacks.
  assert (Hblank : TextShape.isBlank (TextUtils.preprocessText text) = false).
  { destruct (TextShape.isBlank (TextUtils.preprocessText text)) eqn:Hb;
      [|reflexivity].
    exfalso. apply Htrim. apply trim_empty. apply preprocessText_blank.
    rewrite <- (proj2 (proj2 (proj2 (preprocessed_shape text)))).
    apply trim_empty. exact Hb. }
  unfold Analysis.analyzeText in Hrun. rewrite Hidle in Hrun.
  unfold tryFinally, tryCatch in Hrun.
  match type of Hrun with
  | context [analyzeTextBody _ _ _ _ ?started] =>
      destruct (analyzeTextBody_fallback modelService Hmodel
                  (progressCallbacks started)
                  ltac:(cbn [progressCallbacks]; intros callback Hin;
                        apply Hcallbacks;
                        destruct onProgress as [c|];
                        [apply in_app_or in Hin;
                         destruct Hin as [Hin|[<-|[]]];
                         [left; exact Hin | right; reflexivity]
                        | left; exact Hin])
                  text config started (world m)
                  ltac:(split; reflexivity) Hblank)
        as (results & m1 & ev1 & Hbody & Hworld & Htokens)
  end.
  rewrite Hbody in Hrun. injection Hrun as <- <- <-.
  destruct (encode_decoded (TextUtils.preprocessText text) (world m)
              Hconsistent) as (Hcons & Hext & Hwords & _).
  exists results. split; [reflexivity|]. cbn [world]. rewrite Hworld.
  split; [| split; [exact Hcons | exact Hext]].
  rewrite Htokens, map_slice0, Hwords.
  rewrite <- (encode_length _ (world m)). reflexivity.
Qed.

End FallbackRun.

(** ** Wrapped texts *)

Module WrappingFacts.
Import TextUtils Fallback Wrapping.
Local Open Scope string_scope.
Local Open Scope Z_scope.

Local Abbreviation fits width :=
  (fun line : string => Z.of_nat (String.length line) <= width).

Lemma fill_fits (words : list string) (width : Z) :
  Forall (fits width) words ->
  forall lines currentLine,
    Forall (fits width) lines -> fits width currentLine ->
    Forall (fits width) (fst (fill words width lines currentLine)) /\
    fits width (snd (fill words width lines currentLine)).
Proof.
  induction 1 as [|word rest Hword Hrest IH]; intros lines currentLine Hl Hc;
    simpl.
  - split; assumption.
  - destruct (isTruthy currentLine) eqn:Hcur;
      match goal with
      | |- context [?a <=? width] => destruct (a <=? width) eqn:Htest
      end.
    + apply IH; [exact Hl | apply Z.leb_le; exact Htest].
    + apply IH; [|exact Hword].
      apply Forall_app. split; [exact Hl | constructor; [exact Hc | constructor]].
    + apply IH; [exact Hl | exact Hword].
    + exfalso. apply Z.leb_gt in Htest. lia.
Qed.

Lemma pushLast_fits (width : Z) (filled : list string * string) :
  Forall (fits width) (fst filled) -> fits width (snd filled) ->
  Forall (fits width) (pushLast filled).
Proof.
  destruct filled as [lines currentLine]. simpl. intros Hl Hc.
  destruct (isTruthy currentLine); [|exact Hl].
  apply Forall_app. split; [exact Hl | constructor; [exact Hc | constructor]].
Qed.

Lemma splitWhiteSpace_not_nil (s : string) : splitWhiteSpace s <> [].
Proof.
  induction s as [|c s IH]; simpl; [discriminate|].
  destruct (isWhiteSpace c).
  - destruct s as [|c' s']; [discriminate|].
    destruct (isWhiteSpace c'); [exact IH | discriminate].
  - destruct (splitWhiteSpace s); discriminate.
Qed.

(** X28. When no word of the text is longer than the width, no line of
    [wordWrap] and no chunk of [chunkText] is longer than the width. *)
Theorem wrapped_lines_fit (text : string) (width : Z) :
  Forall (fun word => Z.of_nat (String.length word) <= width)
         (splitWhiteSpace text) ->
  Forall (fun line => Z.of_nat (String.length line) <= width)
         (wordWrap text width) /\
  Forall (fun chunk => Z.of_nat (String.length chunk) <= width)
         (chunkText text width).
Proof.
  intros Hwords.
  assert (Hwidth : 0 <= width).
  { destruct (splitWhiteSpace text) as [|word rest] eqn:Hs;
      [exact (False_ind _ (splitWhiteSpace_not_nil text Hs))|].
    inversion Hwords as [|? ? Hword _]; subst. lia. }
  assert (Hfill : Forall (fits width)
                         (pushLast (fill (splitWhiteSpace text) width [] ""))).
  { destruct (fill_fits _ width Hwords [] "") as [H1 H2];
      [constructor | simpl; exact Hwidth |].
    apply pushLast_fits; assumption. }
  split; [exact Hfill|].
  unfold chunkText.
  destruct (Z.of_nat (String.length text) <=? width) eqn:Hshort; [|exact Hfill].
  apply Z.leb_le in Hshort. constructor; [exact Hshort | constructor].
Qed.

Lemma append_assoc (a b c : string) : (a ++ b) ++ c = a ++ (b ++ c).
Proof.
  induction a as [|x a IH]; simpl; [reflexivity|]. rewrite IH. reflexivity.
Qed.

Lemma concat_cons (sep x : string) (xs : list string) :
  xs <> [] -> String.concat sep (x :: xs) = x ++ sep ++ String.concat sep xs.
Proof. destruct xs; [contradiction | reflexivity]. Qed.

(** Joining does not tell two neighbours from the one string that joins
    them. *)
Lemma concat_merge (sep a b : string) (l r : list string) :
  String.concat sep (l ++ (a ++ sep ++ b) :: r)
  = String.concat sep (l ++ a :: b :: r).
Proof.
  induction l as [|x l IH].
  - simpl app. rewrite (concat_cons sep a (b :: r)) by discriminate.
    destruct r as [|y r].
    + reflexivity.
    + rewrite !concat_cons by discriminate.
      rewrite !append_assoc. reflexivity.
  - simpl app.
    rewrite !concat_cons by (destruct l; discriminate).
    rewrite IH. reflexivity.
Qed.

Local Abbreviation wordFits width :=
  (fun word : string =>
     isTruthy word = true /\ Z.of_nat (String.length word) <= width).

Lemma fill_cons (word : string) (rest : list string) (width : Z)
      (lines : list string) (currentLine : string) :
  fill (word :: rest) width lines currentLine
  = if Z.of_nat (String.length (if isTruthy currentLine
                                then currentLine ++ " " ++ word else word))
       <=? width
    then fill rest width lines
              (if isTruthy currentLine then currentLine ++ " " ++ word else word)
    else if isTruthy currentLine
    then fill rest width (lines ++ [currentLine])%list word
    else fill rest width (lines ++ [substringTo width word])%list
              (substringFrom width word).
Proof. reflexivity. Qed.

Lemma pushLast_pair (lines : list string) (currentLine : string) :
  pushLast (lines, currentLine)
  = if isTruthy currentLine then (lines ++ [currentLine])%list else lines.
Proof. reflexivity. Qed.

Lemma fill_keeps (words : list string) (width : Z) :
  Forall (wordFits width) words ->
  forall lines currentLine,
    (isTruthy currentLine = false -> lines = []) ->
    Forall (fun line => isTruthy line = true) lines ->
    String.concat " " (pushLast (fill words width lines currentLine))
    = String.concat " " (pushLast (lines, currentLine) ++ words) /\
    Forall (fun line => isTruthy line = true)
           (pushLast (fill words width lines currentLine)).
Proof.
  induction 1 as [|word rest [Hword Hfit] Hrest IH];
    intros lines currentLine Hstart Hlines.
  - rewrite app_nil_r. split; [reflexivity|].
    simpl. destruct (isTruthy currentLine) eqn:Hc; [|exact Hlines].
    apply Forall_app. split; [exact Hlines | constructor; [exact Hc | constructor]].
  - rewrite fill_cons. destruct (isTruthy currentLine) eqn:Hcur;
      match goal with
      | |- context [?a <=? width] => destruct (a <=? width) eqn:Htest
      end.
    + destruct (IH lines (currentLine ++ " " ++ word)) as [H1 H2];
        [intros H; destruct currentLine; discriminate | exact Hlines |].
      split; [|exact H2]. rewrite H1.
      assert (Hjoined : isTruthy (currentLine ++ " " ++ word) = true)
        by (destruct currentLine; reflexivity).
      rewrite !pushLast_pair, Hjoined, Hcur.
      rewrite <- !app_assoc.
      exact (concat_merge " " currentLine word lines rest).
    + destruct (IH (lines ++ [currentLine])%list word) as [H1 H2].
      * intros H. congruence.
      * apply Forall_app. split; [exact Hlines | constructor; [exact Hcur | constructor]].
      * split; [|exact H2]. rewrite H1.
        rewrite !pushLast_pair, Hword, Hcur.
        rewrite <- !app_assoc. reflexivity.
    + destruct (IH lines word) as [H1 H2];
        [intros H; congruence | exact Hlines |].
      split; [|exact H2]. rewrite H1.
      rewrite !pushLast_pair, Hword, Hcur.
      rewrite (Hstart eq_refl). reflexivity.
    + exfalso. apply Z.leb_gt in Htest. lia.
Qed.

(** X29. When the pieces of the text between its white space are not
    empty and none is longer than the width, the lines of [wordWrap] are
    not empty, and joined by single spaces they are the pieces joined by
    single spaces: wrapping only turns separators into line ends. *)
Theorem wrapped_lines_keep_the_words (text : string) (width : Z) :
  Forall (fun word => isTruthy word = true /\
                      Z.of_nat (String.length word) <= width)
         (splitWhiteSpace text) ->
  String.concat " " (wordWrap text width)
  = String.concat " " (splitWhiteSpace text) /\
  Forall (fun line => isTruthy line = true) (wordWrap text width).
Proof.
  intros Hwords. unfold wordWrap.
  destruct (fill_keeps _ width Hwords [] "") as [H1 H2];
    [reflexivity | constructor |].
  split; [exact H1 | exact H2].
Qed.

Lemma wrapped_lines_fit_witness :
  Forall (fun line => Z.of_nat (String.length line) <= 5)
         (wordWrap "aa bb cc" 5) /\
  Forall (fun chunk => Z.of_nat (String.length chunk) <= 5)
         (chunkText "aa bb cc" 5).
Proof.
  apply (wrapped_lines_fit "aa bb cc" 5).
  repeat constructor; simpl; lia.
Defined.

Lemma wrapped_lines_keep_the_words_witness :
  String.concat " " (wordWrap "aa bb cc" 5)
  = String.concat " " (splitWhiteSpace "aa bb cc") /\
  Forall (fun line => isTruthy line = true) (wordWrap "aa bb cc" 5).
Proof.
  apply (wrapped_lines_keep_the_words "aa bb cc" 5).
  repeat constructor; simpl; lia.
Defined.

End WrappingFacts.

(** ** More scenarios *)

Module MoreScenarios.
Import Binary64 Analysis Scenario Trace Fallback Inputs.
Local Open Scope Z_scope.

Local Abbreviation scan :=
  (analyzeTokenSequence (N := IEEE) (loaded plainTokenizer) flakyModel fiveTokens idle).

Lemma progress_follows_the_tokens_witness :
  exists results m' events,
    scan = (Normal results, m', events) /\
    notifications events
    = map (fun r => progressAt fiveTokens (position r) (token r)) results /\
    map current (notifications events)
    = map (fun i => Z.of_nat i + 1) (seq 0 (length fiveTokens)) /\
    Forall (fun p => total p = Z.of_nat (length fiveTokens)) (notifications events).
Proof.
  apply (Run.progress_follows_the_tokens
           (loaded plainTokenizer) flakyModel plainTokenizer fiveTokens idle).
  reflexivity.
Defined.

Lemma inference_contexts_are_the_prefixes_witness :
  exists results m' events,
    scan = (Normal results, m', events) /\
    inferenceContexts events
    = map (fun i => firstn i fiveTokens)
          (seq (Nat.min INITIAL_TOKENS_COUNT (length fiveTokens))
               (length fiveTokens
                - Nat.min INITIAL_TOKENS_COUNT (length fiveTokens))) /\
    Forall (fun context =>
              (INITIAL_TOKENS_COUNT <= length context < length fiveTokens)%nat)
           (inferenceContexts events).
Proof.
  apply (Run.inference_contexts_are_the_prefixes
           (loaded plainTokenizer) flakyModel plainTokenizer fiveTokens idle).
  reflexivity.
Defined.

(** The context of position 4 has four tokens, one more than the model
    takes. *)
Lemma unpredictable_positions_are_null_witness :
  exists results m' events token,
    analyzeTokenSequence (N := IEEE) (loaded plainTokenizer) shortModel
                         fiveTokens idle
    = (Normal results, m', events) /\
    length results = length fiveTokens /\
    nth_error results 4 = Some (unpredicted 4 token (nth 4 fiveTokens 0) false).
Proof.
  apply (Run.unpredictable_positions_are_null
           (loaded plainTokenizer) shortModel plainTokenizer fiveTokens idle 4).
  - reflexivity.
  - unfold INITIAL_TOKENS_COUNT. simpl. lia.
  - right. simpl. lia.
Defined.

Lemma statistics_count_the_answers_witness :
  exists results m' events,
    scan = (Normal results, m', events) /\
    totalTokens (calculateStatistics results) = Z.of_nat (length fiveTokens) /\
    predictedTokens (calculateStatistics results)
    = Z.of_nat (length (answered events)) /\
    (length (answered events)
     <= length fiveTokens
        - Nat.min INITIAL_TOKENS_COUNT (length fiveTokens))%nat.
Proof.
  apply (Run.statistics_count_the_answers
           (loaded plainTokenizer) flakyModel plainTokenizer fiveTokens idle).
  reflexivity.
Defined.

Local Abbreviation limitedRun :=
  (analyzeText (N := IEEE) (loaded plainTokenizer) flakyModel
               "a b"%string fourTokens None idle).

Lemma analysis_returns_a_result_per_token_witness :
  exists results before,
    fst (fst limitedRun) = Normal results /\
    map tokenId results
    = slice0 fiveTokens (maxLengthOr fourTokens (Z.of_nat (length fiveTokens))) /\
    map position results
    = seq 0 (length (slice0 fiveTokens
                            (maxLengthOr fourTokens
                                         (Z.of_nat (length fiveTokens))))) /\
    snd limitedRun
    = (before
       ++ [Notified
             {| current :=
                  Z.of_nat (length (slice0 fiveTokens
                                           (maxLengthOr fourTokens
                                              (Z.of_nat (length fiveTokens)))));
                total :=
                  Z.of_nat (length (slice0 fiveTokens
                                           (maxLengthOr fourTokens
                                              (Z.of_nat (length fiveTokens)))));
                percentage := ofZ 100;
                currentToken := "Complete!"%string |}])%list.
Proof.
  apply (Session.analysis_returns_a_result_per_token
           (loaded plainTokenizer) flakyModel "a b"%string fourTokens None
           idle (snd (fst limitedRun)) (fst (fst limitedRun)) (snd limitedRun)
           "a b"%string fiveTokens).
  - reflexivity.
  - apply (nth_error_In _ 1). reflexivity.
  - discriminate.
Defined.

Lemma maxLength_limits_the_tokens_witness :
  exists results,
    fst (fst limitedRun) = Normal results /\
    (configuredMaxLength fourTokens = None
     \/ configuredMaxLength fourTokens = Some 0 ->
     map tokenId results = fiveTokens) /\
    (forall n, configuredMaxLength fourTokens = Some n -> 0 < n ->
               map tokenId results = firstn (Z.to_nat n) fiveTokens) /\
    (forall n, configuredMaxLength fourTokens = Some n -> n < 0 ->
               map tokenId results
               = firstn (length fiveTokens - Z.to_nat (- n)) fiveTokens).
Proof.
  apply (Session.maxLength_limits_the_tokens
           (loaded plainTokenizer) flakyModel "a b"%string fourTokens None
           idle (snd (fst limitedRun)) (fst (fst limitedRun)) (snd limitedRun)
           "a b"%string fiveTokens).
  - reflexivity.
  - apply (nth_error_In _ 1). reflexivity.
  - discriminate.
Defined.

Local Abbreviation failedRun :=
  (analyzeText (N := IEEE) unloaded flakyModel "a b"%string None None idle).

Lemma engine_is_released_witness :
  isRunning (snd (fst failedRun)) = false /\
  progressCallbacks (snd (fst failedRun)) = [] /\
  forall error, fst (fst failedRun) = Throw error ->
                exists message,
                  error = JSError ("Analysis failed: " ++ message)%string.
Proof.
  apply (Session.engine_is_released
           unloaded flakyModel "a b"%string None None
           idle (snd (fst failedRun)) (fst (fst failedRun)) (snd failedRun)).
  - reflexivity.
  - reflexivity.
Defined.

Lemma visible_text_reaches_the_tokenizer_witness :
  exists first encoded after,
    snd limitedRun
    = Notified first
      :: Encoded (TextUtils.preprocessText "a b"%string) encoded :: after /\
    Forall notEncoded after.
Proof.
  apply (Session.visible_text_reaches_the_tokenizer
           (loaded plainTokenizer) flakyModel "a b"%string fourTokens None
           idle (snd (fst limitedRun)) (fst (fst limitedRun)) (snd limitedRun)).
  - reflexivity.
  - reflexivity.
  - discriminate.
Defined.

(** *** The text utilities *)

Lemma preprocessed_text_is_normalised_witness :
  TextUtils.isWhiteSpace "a"%char = false.
Proof.
  apply (proj1 (proj2 (proj2 (proj2
           (TextFacts.preprocessed_text_is_normalised "  a  b  "%string))))
           "a"%char " b"%string).
  reflexivity.
Defined.

Lemma preprocessText_is_empty_for_blank_texts_witness :
  TextUtils.preprocessText "   "%string = ""%string.
Proof.
  apply (proj2 (TextFacts.preprocessText_is_empty_for_blank_texts "   "%string)).
  reflexivity.
Defined.

Lemma validateText_accepts_visible_texts_witness :
  TextUtils.preprocessText " a "%string <> ""%string /\
  TextShape.error (TextShape.validateText " a "%string) = None.
Proof.
  apply (proj1 (proj2 (TextFacts.validateText_accepts_visible_texts " a "%string))).
  reflexivity.
Defined.

(** *** The fallback tokenizer *)

Lemma encode_then_decode_witness :
  decode (fst (encode "The  cat"%string create))
         (snd (encode "The  cat"%string create))
  = String.concat " " (wordsOf "The  cat"%string).
Proof.
  apply (FallbackFacts.encode_then_decode "The  cat"%string create).
  exact FallbackFacts.create_consistent.
Defined.

Lemma encode_is_repeatable_witness :
  encode "The  cat"%string (snd (encode "The  cat"%string create))
  = (fst (encode "The  cat"%string create),
     snd (encode "The  cat"%string create)).
Proof.
  apply (FallbackFacts.encode_is_repeatable "The  cat"%string create).
  exact FallbackFacts.create_consistent.
Defined.

Lemma unknown_ids_decode_to_unk_witness :
  decodeToken 17 create = "<unk>"%string /\ decode [17] create = "<unk>"%string.
Proof.
  apply (proj2 FallbackFacts.unknown_ids_decode_to_unk create 17).
  - exact FallbackFacts.create_consistent.
  - right. apply Z.leb_le. vm_compute. reflexivity.
Defined.

Lemma encode_counts_the_words_witness :
  fst (encode "  "%string create) = [].
Proof.
  apply (proj2 (FallbackFacts.encode_counts_the_words "  "%string create)).
  reflexivity.
Defined.

Local Abbreviation fallbackRun :=
  (analyzeText (N := IEEE) fallbackService steadyModel
               " The  cat sat on the mat "%string None None fresh).

Lemma fallback_analysis_returns_witness :
  exists results,
    fst (fst fallbackRun) = Normal results /\
    (configuredMaxLength None = None \/ configuredMaxLength None = Some 0 ->
     length results
     = length (wordsOf (TextUtils.preprocessText
                          " The  cat sat on the mat "%string))).
Proof.
  apply (Session.fallback_analysis_returns
           steadyModel " The  cat sat on the mat "%string None None
           fresh (snd (fst fallbackRun)) (fst (fst fallbackRun)) (snd fallbackRun)).
  - destruct fallbackRun as [[outcome m'] events]. reflexivity.
  - reflexivity.
  - discriminate.
Defined.

Lemma fallback_tokens_are_the_words_witness :
  exists results,
    fst (fst fallbackRun) = Normal results /\
    map token results
    = slice0 (wordsOf (TextUtils.preprocessText
                         " The  cat sat on the mat "%string))
             (maxLengthOr None
                (Z.of_nat (length (wordsOf (TextUtils.preprocessText
                                              " The  cat sat on the mat "%string))))) /\
    consistent (world (snd (fst fallbackRun))) /\
    extends (world fresh) (world (snd (fst fallbackRun))).
Proof.
  apply (FallbackRun.fallback_tokens_are_the_words
           steadyModel " The  cat sat on the mat "%string None None
           fresh (snd (fst fallbackRun)) (fst (fst fallbackRun)) (snd fallbackRun)).
  - destruct fallbackRun as [[outcome m'] events]. reflexivity.
  - reflexivity.
  - exact FallbackFacts.create_consistent.
  - discriminate.
  - intros inputIds t. unfold runInference. simpl.
    destruct (Z.of_nat (length inputIds) =? 0); [reflexivity|].
    destruct (8192 <? Z.of_nat (length inputIds)); reflexivity.
  - intros callback [[]|H]; discriminate H.
Defined.

End MoreScenarios.
